(** * Chunked transcription pipeline: a shallow embedding

    The development follows the TypeScript sources:
    - [lib/audio-chunks.ts]: [getAudioDuration], [addOffsetToTimestamp],
      [splitAudioIntoChunks];
    - [lib/gemini.ts]: [parseGeminiJson], [runSingleChunk],
      [runGeminiTranscription];
    - [lib/directus.ts]: [updateTask], the task store.

    Further on it covers [deleteChunkFiles] of [lib/audio-chunks.ts], the
    address built by [directusRequest], and what the routes around the
    pipeline compute: the extension check and [getMimeType] of
    [app/api/upload/route.ts], [normalizeTaskResult] of
    [app/api/tasks/[id]/route.ts] and [toSrtTime] of [lib/export.ts].

    JavaScript numbers are IEEE doubles.  The timestamp code works on
    integers; they are modelled as [Z], and every arithmetic step is checked
    to stay within the safe integers, where double arithmetic is exact.
    Durations of audio are modelled as rationals [Q] with exact arithmetic.
    The percentage of a progress message is a quotient and a product of
    doubles, rounded as such: it is computed with the binary64 operations of
    [SpecFloat]. *)

From Stdlib Require Import ZArith QArith Qround Qminmax String Ascii SpecFloat.
From Stdlib Require Import DecimalString DecimalPos DecimalN Lia Lqa.
From stdpp Require Import base option list strings sorting.

Local Open Scope Z_scope.

(** ** JavaScript string primitives used by the sources *)

Module JsString.

(** ASCII part of the ECMAScript [WhiteSpace] and [LineTerminator] sets,
    the characters removed by [String.prototype.trim] and skipped by
    [Number(...)]. *)
Definition isWhiteSpace (c : ascii) : bool :=
  match nat_of_ascii c with
  | 9%nat | 10%nat | 11%nat | 12%nat | 13%nat | 32%nat => true
  | _ => false
  end.

Definition isDigit (c : ascii) : bool :=
  match c with
  | "0" | "1" | "2" | "3" | "4" | "5" | "6" | "7" | "8" | "9" => true
  | _ => false
  end%char.

Fixpoint allDigits (s : string) : bool :=
  match s with
  | EmptyString => true
  | String c s' => isDigit c && allDigits s'
  end.

Fixpoint trimStart (s : string) : string :=
  match s with
  | EmptyString => EmptyString
  | String c s' => if isWhiteSpace c then trimStart s' else s
  end.

Fixpoint trimEnd (s : string) : string :=
  match s with
  | EmptyString => EmptyString
  | String c s' =>
      match trimEnd s' with
      | EmptyString => if isWhiteSpace c then EmptyString else String c EmptyString
      | r => String c r
      end
  end.

(** [s.trim()] *)
Definition trim (s : string) : string := trimEnd (trimStart s).

(** [s.split(sep)] for a one-character separator: never the empty list,
    [split sep ""] is [[""]]. *)
Fixpoint split (sep : ascii) (s : string) : list string :=
  match s with
  | EmptyString => [EmptyString]
  | String c s' =>
      if Ascii.eqb c sep then EmptyString :: split sep s'
      else match split sep s' with
           | x :: xs => String c x :: xs
           | [] => [String c EmptyString]
           end
  end.

(** [Number.MAX_SAFE_INTEGER]: up to here every integer is a double, and
    sums, products and floored quotients of integers that stay in the range
    are computed without rounding. *)
Definition MAX_SAFE_INTEGER : Z := 2 ^ 53 - 1.

(** [Number.isSafeInteger(z)] *)
Definition isSafeInteger (z : Z) : bool :=
  (- MAX_SAFE_INTEGER <=? z) && (z <=? MAX_SAFE_INTEGER).

(** The value of an arithmetic step on integers: [z] itself while it is a
    safe integer; [None] past the range, where the double result may be
    rounded and the model stops. *)
Definition exact (z : Z) : option Z :=
  if isSafeInteger z then Some z else None.

(** [Number(s)] on the integer fragment: surrounding white space is
    skipped, the empty string is [0], a run of decimal digits is its value.
    [None] marks a string outside this fragment (sign, fraction, exponent,
    radix prefix, text that JavaScript turns into [NaN], or a value past the
    safe integers). *)
Definition Number (s : string) : option Z :=
  d ← NilEmpty.uint_of_string (trim s);
  exact (Z.of_N (N.of_uint d)).

(** [String(n)] for an integer [n]. *)
Definition toString (n : Z) : string :=
  match n with
  | Z0 => "0"
  | Zpos p => NilZero.string_of_uint (N.to_uint (Npos p))
  | Zneg p => String "-" (NilZero.string_of_uint (N.to_uint (Npos p)))
  end.

Fixpoint repeatChar (n : nat) (c : ascii) : string :=
  match n with
  | O => EmptyString
  | S n' => String c (repeatChar n' c)
  end.

(** [s.padStart(targetLength, c)] for a one-character pad string. *)
Definition padStart (targetLength : nat) (c : ascii) (s : string) : string :=
  String.append (repeatChar (targetLength - String.length s) c) s.

(** [parts.join(sep)] *)
Definition join (sep : string) (parts : list string) : string :=
  String.concat sep parts.

End JsString.

(** ** lib/audio-chunks.ts *)

Module AudioChunks.
Import JsString.

Definition CHUNK_DURATION_SEC : Z := 600.

(** Array destructuring with defaults, [const [h = 0, m = 0, s = 0] = parts]:
    a missing element takes the default, a present one is used as it is. *)
Definition component (parts : list (option Z)) (i : nat) : option Z :=
  match parts !! i with
  | None => Some 0
  | Some v => v
  end.

(** [[newH, newM, newS].map(n => String(n).padStart(2, "0")).join(":")] *)
Definition renderSeconds (totalSeconds : Z) : string :=
  let newH := totalSeconds / 3600 in
  let newM := Z.rem totalSeconds 3600 / 60 in
  let newS := Z.rem totalSeconds 60 in
  join ":" ((fun n => padStart 2 "0" (toString n)) <$> [newH; newM; newS]).

(** [addOffsetToTimestamp(timeStr, offsetSec)].  [Math.floor(x / d)] is
    [Z.div], the remainder operator [%] takes the sign of the dividend and
    is [Z.rem].  The sum [h * 3600 + m * 60 + s + offsetSec] is computed
    left to right, each step exact.  The result is [None] when one of the
    first three components is outside the integer fragment of [Number] or a
    step leaves the safe integers. *)
Definition addOffsetToTimestamp (timeStr : string) (offsetSec : Z) : option string :=
  let parts := Number <$> split ":" (trim timeStr) in
  h ← component parts 0;
  m ← component parts 1;
  s ← component parts 2;
  offset ← exact offsetSec;
  hours ← exact (h * 3600);
  minutes ← exact (m * 60);
  hm ← exact (hours + minutes);
  hms ← exact (hm + s);
  totalSeconds ← exact (hms + offset);
  Some (renderSeconds totalSeconds).

(** *** Probing *)

(** A JavaScript number, as far as [typeof dur === "number" && dur > 0]
    tells its values apart. *)
Inductive JsNumber :=
| Finite (q : Q)
| PosInfinity
| NegInfinity
| NaN.

(** [metadata?.format?.duration] can be any value of the probe's output. *)
Inductive JsValue :=
| VUndefined
| VNull
| VNumber (n : JsNumber)
| VString (s : string)
| VBoolean (b : bool)
| VObject.

Record FfprobeFormat := { duration : JsValue }.
Record FfprobeData := { format : option FfprobeFormat }.

(** What [ffmpeg.ffprobe] hands to its Node-style callback [(err, metadata)]. *)
Inductive FfprobeReply :=
| ProbeError (message : string)
| ProbeData (metadata : option FfprobeData).

(** Settled state of a promise. *)
Inductive Promise (A : Type) :=
| Resolved (value : A)
| Rejected (reason : string).
Arguments Resolved {A} value.
Arguments Rejected {A} reason.

(** [dur > 0] *)
Definition isPositive (n : JsNumber) : bool :=
  match n with
  | Finite q => negb (Qle_bool q 0)
  | PosInfinity => true
  | NegInfinity | NaN => false
  end.

(** The [ffmpeg] side of the host: whether [require("fluent-ffmpeg")]
    succeeds, what [ffprobe] reports for a path, and whether an encoding
    run ends with the [end] event ([None]) or the [error] event. *)
Record FfmpegJob := { startSec : Z; durationSec : Q; output : string }.

Record Host := {
  ffmpegInstalled : bool;
  ffprobe : string -> FfprobeReply;
  ffmpegRun : string -> FfmpegJob -> option string;
  dirname : string -> string;
  extname : string -> string;
  basename : string -> string -> string;
  pathJoin : string -> string -> string
}.

(** [getFfmpeg()]: [true] stands for the loaded module, [false] for [null]. *)
Definition getFfmpeg (host : Host) : bool := ffmpegInstalled host.

(** [metadata?.format?.duration] *)
Definition probedValue (metadata : option FfprobeData) : JsValue :=
  match metadata with
  | Some md => match format md with
               | Some f => duration f
               | None => VUndefined
               end
  | None => VUndefined
  end.

(** [getAudioDuration(filePath)].  The promise is settled by the callback
    of [ffprobe], which the library calls once, with an error or with the
    metadata. *)
Definition getAudioDuration (host : Host) (filePath : string)
  : Promise (option JsNumber) :=
  if negb (getFfmpeg host) then Resolved None
  else
    match ffprobe host filePath with
    | ProbeError _ => Resolved None
    | ProbeData metadata =>
        let dur := probedValue metadata in
        Resolved (match dur with
                  | VNumber n => if isPositive n then Some n else None
                  | _ => None
                  end)
    end.

(** *** Splitting *)

Inductive SplitOutcome :=
| SplitDone (chunkPaths : list string) (jobs : list FfmpegJob)
| SplitThrows (reason : string) (jobs : list FfmpegJob)
(** [duration] is [Infinity]: [chunkCount] is infinite and the loop has no
    bound; the model does not follow it. *)
| SplitUnbounded.

Definition chunkQ : Q := inject_Z CHUNK_DURATION_SEC.

(** One [for] loop of [splitAudioIntoChunks], [remaining] iterations from
    index [i] on. *)
Fixpoint splitLoop (host : Host) (originalPath : string) (duration : Q)
    (remaining : nat) (i : Z) (chunkPaths : list string) (jobs : list FfmpegJob)
  : SplitOutcome :=
  match remaining with
  | O => SplitDone chunkPaths jobs
  | S remaining' =>
      let startSec := i * CHUNK_DURATION_SEC in
      let durationSec := Qmin chunkQ (duration - inject_Z startSec) in
      let dir := dirname host originalPath in
      let ext := extname host originalPath in
      let base := basename host originalPath ext in
      let chunkPath :=
        pathJoin host dir
          (String.append base
             (String.append "_chunk_" (String.append (toString i) ext))) in
      let job := {| startSec := startSec; durationSec := durationSec;
                    output := chunkPath |} in
      match ffmpegRun host originalPath job with
      | None =>
          splitLoop host originalPath duration remaining' (i + 1)
            (chunkPaths ++ [chunkPath]) (jobs ++ [job])
      | Some err => SplitThrows err (jobs ++ [job])
      end
  end.

(** [splitAudioIntoChunks(originalPath)] *)
Definition splitAudioIntoChunks (host : Host) (originalPath : string)
  : SplitOutcome :=
  if negb (getFfmpeg host) then SplitDone [originalPath] []
  else
    match getAudioDuration host originalPath with
    | Rejected reason => SplitThrows reason []
    | Resolved None => SplitDone [originalPath] []
    | Resolved (Some (Finite duration)) =>
        if Qle_bool duration chunkQ then SplitDone [originalPath] []
        else
          let chunkCount := Qceiling (duration / chunkQ) in
          splitLoop host originalPath duration (Z.to_nat chunkCount) 0 [] []
    | Resolved (Some PosInfinity) => SplitUnbounded
    | Resolved (Some NegInfinity) => SplitDone [originalPath] []
    (* [NaN <= 600] and [0 < NaN] are both false: no iteration *)
    | Resolved (Some NaN) => SplitDone [] []
    end.

End AudioChunks.

(** ** Exceptions and mutable state

    An [async] function body is a computation over a mutable state that ends
    normally or by a thrown error; [await] on a rejected promise throws. *)

Module Effect.

Inductive Completion (A : Type) :=
| Normal (value : A)
| Throw (message : string).
Arguments Normal {A} value.
Arguments Throw {A} message.

Definition M (S A : Type) : Type := S -> Completion A * S.

Definition ret {S A} (a : A) : M S A := fun s => (Normal a, s).

Definition bind {S A B} (m : M S A) (k : A -> M S B) : M S B :=
  fun s =>
    match m s with
    | (Normal a, s') => k a s'
    | (Throw e, s') => (Throw e, s')
    end.

Definition throw {S A} (message : string) : M S A := fun s => (Throw message, s).

(** [try { body } catch (err) { handler(err.message) }]: the state changes made
    by [body] before it threw are kept. *)
Definition tryCatch {S A} (body : M S A) (handler : string -> M S A) : M S A :=
  fun s =>
    match body s with
    | (Normal a, s') => (Normal a, s')
    | (Throw e, s') => handler e s'
    end.

Definition get {S} : M S S := fun s => (Normal s, s).
Definition modify {S} (f : S -> S) : M S unit := fun s => (Normal tt, f s).

(** The settled value of an awaited call, taken from an oracle. *)
Definition await {S A} (c : Completion A) : M S A := fun s => (c, s).

#[global] Instance M_ret {S} : MRet (M S) := fun A a => ret a.
#[global] Instance M_bind {S} : MBind (M S) := fun A B k m => bind m k.

(** Synchronous code that returns or throws. *)
#[global] Instance Completion_ret : MRet Completion := fun A a => Normal a.
#[global] Instance Completion_bind : MBind Completion :=
  fun A B k c => match c with Normal a => k a | Throw e => Throw e end.
#[global] Instance Completion_fmap : FMap Completion :=
  fun A B f c => match c with Normal a => Normal (f a) | Throw e => Throw e end.

End Effect.

(** ** Shared data: segments and transcription results (lib/gemini.ts) *)

Module Transcript.

(** What [seg.start] or [seg.end] holds at run time.  A segment is a cast of
    whatever [JSON.parse] produced, so the property is a string or anything
    else: [undefined] if it is missing, [null], a number.  Calling [trim] on
    a value that is not a string raises a [TypeError]; [typeError] is the
    message of that error. *)
Inductive TimeField :=
| TimeText (t : string)
| NoTimeText (typeError : string).

(** [speaker] and [text] are only copied; either may be missing. *)
Record Segment := {
  seg_start : TimeField;
  seg_end : TimeField;
  speaker : option string;
  text : option string
}.

(** Every field can be missing at run time: the value is a cast of
    whatever [JSON.parse] produced, and the code guards its reads with
    [?.] and truthiness tests. *)
Record TranscriptionResult := {
  segments : option (list Segment);
  summary : option string;
  detected_language : option string;
  speakers_count : option Z
}.

(** [res?.segments?.length], read as a condition. *)
Definition hasSegments (res : option TranscriptionResult) : bool :=
  match res with
  | Some r => match segments r with
              | Some (_ :: _) => true
              | _ => false
              end
  | None => false
  end.

Definition segmentsOf (r : TranscriptionResult) : list Segment :=
  default [] (segments r).

End Transcript.

(** ** lib/directus.ts: the task store *)

Module Directus.
Import Effect Transcript JsString.

Inductive Status := processing | completed | failed.

(** [Partial<TranscriptionTask>], the fields the pipeline writes.  A field
    set to [undefined] is dropped by [JSON.stringify] and is [None] here. *)
Record TaskPatch := {
  p_status : option Status;
  p_error_message : option string;
  p_result : option TranscriptionResult;
  p_language : option string;
  p_speakers_count : option Z;
  p_processed_at : option Z
}.

Record TranscriptionTask := {
  status : Status;
  error_message : option string;
  result : option TranscriptionResult;
  language : option string;
  task_speakers_count : option Z;
  processed_at : option Z
}.

(** The effect of an accepted [PATCH]: present fields overwrite. *)
Definition applyPatch (t : TranscriptionTask) (p : TaskPatch) : TranscriptionTask :=
  {| status := default (status t) (p_status p);
     error_message := from_option Some (error_message t) (p_error_message p);
     result := from_option Some (result t) (p_result p);
     language := from_option Some (language t) (p_language p);
     task_speakers_count := from_option Some (task_speakers_count t) (p_speakers_count p);
     processed_at := from_option Some (processed_at t) (p_processed_at p) |}.

(** What [fetch] gives back for one request. *)
Inductive StoreReply :=
| Accepted
| Refused (httpStatus : Z) (body : string)
| Unreachable (message : string).

(** [directusRequest]: [res.ok] resolves, anything else throws. *)
Definition replyCompletion (r : StoreReply) : Completion unit :=
  match r with
  | Accepted => Normal tt
  | Refused httpStatus body =>
      Throw (String.append "Directus: "
               (String.append (toString httpStatus) (String.append " " body)))
  | Unreachable message => Throw message
  end.

Inductive Event :=
| EvUpdateTask (patch : TaskPatch)
| EvUnlink (path : string).

(** The world a pipeline run acts on: the store's reply to the n-th request,
    the requests and file deletions issued so far, the stored task, and the
    writes still to come from callbacks that are running though nobody awaits
    them any more. *)
Record World := {
  storeReply : nat -> StoreReply;
  requests : nat;
  events : list Event;
  task : TranscriptionTask;
  pending : list TaskPatch
}.

Definition issue (w : World) (patch : TaskPatch) : World :=
  {| storeReply := storeReply w;
     requests := S (requests w);
     events := events w ++ [EvUpdateTask patch];
     task := match storeReply w (requests w) with
             | Accepted => applyPatch (task w) patch
             | _ => task w
             end;
     pending := pending w |}.

(** [await updateTask(taskId, data)] *)
Definition updateTask (patch : TaskPatch) : M World unit :=
  fun w => (replyCompletion (storeReply w (requests w)), issue w patch).

(** [try { await unlink(path) } catch {}]: the outcome is ignored. *)
Definition unlink (path : string) : M World unit :=
  modify (fun w => {| storeReply := storeReply w; requests := requests w;
                      events := events w ++ [EvUnlink path];
                      task := task w; pending := pending w |}).

(** Callbacks that are still running leave the writes [later] to come. *)
Definition leave (later : list TaskPatch) (w : World) : World :=
  {| storeReply := storeReply w; requests := requests w; events := events w;
     task := task w; pending := pending w ++ later |}.

(** [m], which leaves [later] behind if it throws. *)
Definition leaving {A} (later : list TaskPatch) (m : M World A) : M World A :=
  fun w =>
    match m w with
    | (Normal a, w') => (Normal a, w')
    | (Throw e, w') => (Throw e, leave later w')
    end.


End Directus.

(** ** lib/gemini.ts *)

Module Gemini.
Import Effect Transcript Directus JsString AudioChunks.

(** *** Response parsing *)

(** [JSON.parse] and [jsonrepair] are library functions; each returns or
    throws.  [JSON.parse] yields [None] for the JSON value [null]. *)
Record JsonLib := {
  JSON_parse : string -> Completion (option TranscriptionResult);
  jsonrepair : string -> Completion string
}.

(** [parseGeminiJson(rawText)] *)
Definition parseGeminiJson {S} (lib : JsonLib) (rawText : string)
  : M S (option TranscriptionResult) :=
  if String.eqb (trim rawText) "" then mret None
  else
    tryCatch (await (JSON_parse lib rawText))
      (fun _ =>
         tryCatch
           (repaired ← await (jsonrepair lib rawText);
            await (JSON_parse lib repaired))
           (fun _ => mret None)).

(** *** One chunk *)

Record UploadResult := { name : string; uri : string; mimeType : string }.

Inductive FileState := PROCESSING | ACTIVE | FAILED | OtherState (label : string).

Definition stateLabel (st : FileState) : string :=
  match st with
  | PROCESSING => "PROCESSING"
  | ACTIVE => "ACTIVE"
  | FAILED => "FAILED"
  | OtherState label => label
  end.

Definition isProcessing (st : FileState) : bool :=
  match st with PROCESSING => true | _ => false end.

Definition isActive (st : FileState) : bool :=
  match st with ACTIVE => true | _ => false end.

(** The remote service as seen by one [runSingleChunk] call: the settled
    outcome of the upload and of the generation of each attempt, and of the
    k-th status request of each attempt. *)
Record Service := {
  upload : nat -> Completion UploadResult;
  getFile : nat -> nat -> Completion FileState;
  generateContent : nat -> Completion (option string);
  jsonLib : JsonLib
}.

Inductive ChunkEvent :=
| EvUpload (file : string)
| EvGetFile (fileName : string)
| EvSleep (ms : Z)
| EvGenerate (fileUri : string)
| EvDeleteRemote (fileName : string)
| EvUnlinkChunk (path : string)
| EvLogFailure (attempt : nat) (message : string).

(** The variable [geminiFileName], shared by all attempts, and the calls
    made so far. *)
Record ChunkState := {
  geminiFileName : option string;
  trace : list ChunkEvent
}.

Definition emit (e : ChunkEvent) : M ChunkState unit :=
  modify (fun st => {| geminiFileName := geminiFileName st;
                       trace := trace st ++ [e] |}).

Definition setGeminiFileName (v : option string) : M ChunkState unit :=
  modify (fun st => {| geminiFileName := v; trace := trace st |}).

(** [try { await ai.files.delete({ name }) } catch {}] *)
Definition deleteRemote (fileName : string) : M ChunkState unit :=
  emit (EvDeleteRemote fileName).

(** [try { await unlink(filePath) } catch {}] *)
Definition unlinkChunk (path : string) : M ChunkState unit :=
  emit (EvUnlinkChunk path).

(** [while (currentFile.state === "PROCESSING" && waitAttempts < 60)],
    [budget] being [60 - waitAttempts]; [k] counts the status requests of
    this attempt. *)
Fixpoint waitLoop (svc : Service) (attempt : nat) (fileName : string)
    (budget : nat) (k : nat) (currentFile : FileState) : M ChunkState FileState :=
  match budget with
  | O => mret currentFile
  | S budget' =>
      if isProcessing currentFile then
        emit (EvSleep 2000);;
        emit (EvGetFile fileName);;
        next ← await (getFile svc attempt k);
        waitLoop svc attempt fileName budget' (S k) next
      else mret currentFile
  end.

(** The [try] block of one attempt. *)
Definition attemptBody (svc : Service) (filePath : string) (attempt : nat)
  : M ChunkState TranscriptionResult :=
  emit (EvUpload filePath);;
  uploadResult ← await (upload svc attempt);
  setGeminiFileName (Some (name uploadResult));;
  emit (EvGetFile (name uploadResult));;
  first ← await (getFile svc attempt 0);
  currentFile ← waitLoop svc attempt (name uploadResult) 60 1 first;
  if negb (isActive currentFile) then
    throw (String.append "File state: " (stateLabel currentFile))
  else
    emit (EvGenerate (uri uploadResult));;
    resultText ← await (generateContent svc attempt);
    let rawText := default "" (trim <$> resultText) in
    parsed ← parseGeminiJson (jsonLib svc) rawText;
    deleteRemote (name uploadResult);;
    setGeminiFileName None;;
    match parsed with
    | Some res =>
        if hasSegments parsed then unlinkChunk filePath;; mret res
        else throw "Empty or invalid segments in response"
    | None => throw "Empty or invalid segments in response"
    end.

(** [if (geminiFileName)]: a non-empty string. *)
Definition truthyName (v : option string) : option string :=
  match v with
  | Some n => if String.eqb n "" then None else Some n
  | None => None
  end.

(** The [catch] block: [Some r] when the function returns [r], [None] when
    control falls through to the next iteration. *)
Definition attemptCatch (filePath : string) (retries attempt : nat) (err : string)
  : M ChunkState (option (option TranscriptionResult)) :=
  emit (EvLogFailure (attempt + 1) err);;
  st ← get;
  match truthyName (geminiFileName st) with
  | Some n => deleteRemote n
  | None => mret tt
  end;;
  if Nat.eqb attempt retries then
    unlinkChunk filePath;; mret (Some None)
  else
    emit (EvSleep (2 ^ Z.of_nat attempt * 2000));; mret None.

(** [for (let attempt = 0; attempt <= retries; attempt++)], [remaining]
    iterations from [attempt] on. *)
Fixpoint attemptLoop (svc : Service) (filePath : string) (retries : nat)
    (remaining : nat) (attempt : nat) : M ChunkState (option TranscriptionResult) :=
  match remaining with
  | O => mret None
  | S remaining' =>
      step ← tryCatch
               (res ← attemptBody svc filePath attempt; mret (Some (Some res)))
               (attemptCatch filePath retries attempt);
      match step with
      | Some r => mret r
      | None => attemptLoop svc filePath retries remaining' (S attempt)
      end
  end.

Definition DEFAULT_RETRIES : nat := 2.

(** [runSingleChunk(ai, filePath, displayName, mimeType, retries)] *)
Definition runSingleChunk (svc : Service) (filePath : string) (retries : nat)
  : M ChunkState (option TranscriptionResult) :=
  setGeminiFileName None;;
  attemptLoop svc filePath retries (S retries) 0.

Definition freshChunk : ChunkState := {| geminiFileName := None; trace := [] |}.

(** *** Merging the per-chunk results *)

(** The JavaScript function [addOffsetToTimestamp] is total on strings;
    [AudioChunks.addOffsetToTimestamp] describes it on the integer
    fragment.  The pipeline is stated for any total function that agrees
    with the model there. *)
Record OffsetFn := {
  applyOffset : string -> Z -> string;
  applyOffset_model :
    forall t off r, addOffsetToTimestamp t off = Some r -> applyOffset t off = r
}.

Record MergeAcc := {
  allSegments : list Segment;
  summaries : list string;
  detectedLanguage : string;
  speakersCount : Z
}.

Definition emptyAcc : MergeAcc :=
  {| allSegments := []; summaries := []; detectedLanguage := ""; speakersCount := 0 |}.

(** [addOffsetToTimestamp(value, offsetSec)] on a property of a segment: the
    function begins with [timeStr.trim()], which throws unless the value is a
    string. *)
Definition offsetField (fn : OffsetFn) (offsetSec : Z) (value : TimeField)
  : Completion string :=
  match value with
  | TimeText t => Normal (applyOffset fn t offsetSec)
  | NoTimeText typeError => Throw typeError
  end.

(** [{ ...seg, start: addOffsetToTimestamp(seg.start, offsetSec),
       end: addOffsetToTimestamp(seg.end, offsetSec) }] *)
Definition adjustSegment (fn : OffsetFn) (offsetSec : Z) (seg : Segment)
  : Completion Segment :=
  newStart ← offsetField fn offsetSec (seg_start seg);
  newEnd ← offsetField fn offsetSec (seg_end seg);
  mret {| seg_start := TimeText newStart;
          seg_end := TimeText newEnd;
          speaker := speaker seg;
          text := text seg |}.

(** [res.segments.map((seg) => ...)]: the first error ends the walk. *)
Fixpoint adjustAll (fn : OffsetFn) (offsetSec : Z) (segs : list Segment)
  : Completion (list Segment) :=
  match segs with
  | [] => mret []
  | seg :: rest =>
      adjusted ← adjustSegment fn offsetSec seg;
      others ← adjustAll fn offsetSec rest;
      mret (adjusted :: others)
  end.

(** A truthy string: present and not empty. *)
Definition truthyString (v : option string) : option string :=
  match v with
  | Some s => if String.eqb s "" then None else Some s
  | None => None
  end.

(** A truthy integer: present and not zero. *)
Definition truthyNumber (v : option Z) : option Z :=
  match v with
  | Some n => if Z.eqb n 0 then None else Some n
  | None => None
  end.

(** The body of the merge loop for index [i]. *)
Definition mergeStep (fn : OffsetFn) (i : nat) (res : option TranscriptionResult)
    (acc : MergeAcc) : Completion MergeAcc :=
  match res with
  | Some r =>
      if hasSegments res then
        let offsetSec := Z.of_nat i * CHUNK_DURATION_SEC in
        adjusted ← adjustAll fn offsetSec (segmentsOf r);
        mret {| allSegments := allSegments acc ++ adjusted;
                summaries := match truthyString (summary r) with
                             | Some s => summaries acc ++ [s]
                             | None => summaries acc
                             end;
                detectedLanguage := match truthyString (detected_language r) with
                                    | Some l => l
                                    | None => detectedLanguage acc
                                    end;
                speakersCount := match truthyNumber (speakers_count r) with
                                 | Some n => Z.max (speakersCount acc) n
                                 | None => speakersCount acc
                                 end |}
      else mret acc
  | None => mret acc
  end.

(** [for (let i = 0; i < totalChunks; i++) { const res = results[i]; ... }],
    [remaining] iterations from [i] on.  An index without an element reads
    [undefined].  An error thrown in the body ends the loop. *)
Fixpoint mergeLoop (fn : OffsetFn) (results : list (option TranscriptionResult))
    (remaining : nat) (i : nat) (acc : MergeAcc) : Completion MergeAcc :=
  match remaining with
  | O => mret acc
  | S remaining' =>
      let res := mjoin (results !! i) in
      acc' ← mergeStep fn i res acc;
      mergeLoop fn results remaining' (S i) acc'
  end.

Definition blankLine : string := String "010" (String "010" EmptyString).

(** The [result] object of the final write. *)
Definition mergedResult (acc : MergeAcc) : TranscriptionResult :=
  {| segments := Some (allSegments acc);
     summary := Some (join blankLine (summaries acc));
     detected_language := truthyString (Some (detectedLanguage acc));
     speakers_count :=
       Some (if Z.eqb (speakersCount acc) 0 then 1 else speakersCount acc) |}.

(** *** The pipeline *)

Definition CONCURRENCY : nat := 2.

Definition NO_SEGMENTS_MESSAGE : string :=
  "Не удалось получить сегменты ни из одного фрагмента аудио".

(** The number value of an integer: the nearest double. *)
Definition toDouble (z : Z) : spec_float := binary_normalize 53 1024 z 0 false.

(** [x / y] and [x * y] on doubles, each rounded to the nearest double. *)
Definition divide (x y : spec_float) : spec_float := SFdiv 53 1024 x y.
Definition times (x y : spec_float) : spec_float := SFmul 53 1024 x y.

(** [Math.round(x)]: the nearest integer, halves upwards; [None] where the
    value is [NaN] or infinite.  A finite double is [m * 2^e]. *)
Definition mathRound (x : spec_float) : option Z :=
  match x with
  | S754_zero _ => Some 0
  | S754_finite sign m e =>
      let n := if sign then Z.neg m else Z.pos m in
      Some (if 0 <=? e then n * 2 ^ e
            else (2 * n + 2 ^ (- e)) / (2 * 2 ^ (- e)))
  | S754_infinity _ | S754_nan => None
  end.

(** [(completedChunks / totalChunks) * 75] *)
Definition share (completedChunks totalChunks : nat) : spec_float :=
  times (divide (toDouble (Z.of_nat completedChunks)) (toDouble (Z.of_nat totalChunks)))
    (toDouble 75).

(** [15 + Math.round((completedChunks / totalChunks) * 75)], where it is a
    finite number. *)
Definition percent (completedChunks totalChunks : nat) : option Z :=
  rounded ← mathRound (share completedChunks totalChunks);
  Some (15 + rounded).

(** [`${pct}`] *)
Definition percentText (completedChunks totalChunks : nat) : string :=
  match percent completedChunks totalChunks with
  | Some pct => toString pct
  | None =>
      match share completedChunks totalChunks with
      | S754_infinity false => "Infinity"
      | S754_infinity true => "-Infinity"
      | _ => "NaN"
      end
  end.

Definition progress (message : string) : TaskPatch :=
  {| p_status := None; p_error_message := Some message; p_result := None;
     p_language := None; p_speakers_count := None; p_processed_at := None |}.

Definition failure (message : string) : TaskPatch :=
  {| p_status := Some failed; p_error_message := Some message; p_result := None;
     p_language := None; p_speakers_count := None; p_processed_at := None |}.

Definition partLabel (i totalChunks : nat) : string :=
  String.append "Обработка части "
    (String.append (toString (Z.of_nat i + 1))
       (String.append " из "
          (String.append (toString (Z.of_nat totalChunks)) "..."))).

Definition dispatchMessage (i totalChunks : nat) : string :=
  if Nat.eqb totalChunks 1 then "Отправка в ИИ..." else partLabel i totalChunks.

Definition doneMessage (i totalChunks completedChunks : nat) : string :=
  String.append (partLabel i totalChunks)
    (String.append " ("
       (String.append (percentText completedChunks totalChunks) "%)")).

(** One run of [runGeminiTranscription]: the environment it meets. *)
Record Run := {
  apiKey : bool;
  (** settled outcome of [splitAudioIntoChunks(tempFilePath)] *)
  splitResult : Completion (list string);
  (** the remote service as met by the [runSingleChunk] call of chunk [i] *)
  service : nat -> Service;
  (** the order in which the [runSingleChunk] calls of a window resolve *)
  completionOrder : list nat -> list nat;
  (** [Math.round((Date.now() - startTime) / 1000)] at the final write *)
  elapsedSeconds : Z;
  offsetFn : OffsetFn
}.

(** [await runSingleChunk(ai, path, displayName, mimeType)] for chunk [i]. *)
Definition chunkResult (run : Run) (chunkPaths : list string) (i : nat)
  : Completion (option TranscriptionResult) :=
  fst (runSingleChunk (service run i) (default "" (chunkPaths !! i))
         DEFAULT_RETRIES freshChunk).

Record BatchState := {
  results : list (option TranscriptionResult);
  completedChunks : nat
}.

(** [results[i] = chunkResult; completedChunks++] *)
Definition storeResult (i : nat) (r : option TranscriptionResult) (st : BatchState)
  : BatchState :=
  {| results := <[i := r]> (results st);
     completedChunks := S (completedChunks st) |}.

(** What window callbacks that nobody awaits any more still write: each, as
    its chunk resolves, stores the result, counts it and sends its progress
    message.  Whether the store accepts a message changes nothing for the
    callbacks after it. *)
Fixpoint laterWrites (run : Run) (chunkPaths : list string) (totalChunks : nat)
    (callbacks : list nat) (st : BatchState) : list TaskPatch :=
  match callbacks with
  | [] => []
  | i :: rest =>
      match chunkResult run chunkPaths i with
      | Normal r =>
          let st' := storeResult i r st in
          progress (doneMessage i totalChunks (completedChunks st'))
          :: laterWrites run chunkPaths totalChunks rest st'
      | Throw _ => laterWrites run chunkPaths totalChunks rest st
      end
  end.

(** The callbacks among [indices] whose dispatch message the store accepts,
    the message of the first being request number [requests w + k]. *)
Fixpoint started (w : World) (k : nat) (indices : list nat) : list nat :=
  match indices with
  | [] => []
  | i :: rest =>
      match storeReply w (requests w + k) with
      | Accepted => i :: started w (S k) rest
      | _ => started w (S k) rest
      end
  end.

(** The requests of all callbacks of a window are issued before any reply
    is awaited; the first refusal, in issue order, then rejects the window. *)
Fixpoint updateTaskAll (patches : list TaskPatch) : M World unit :=
  match patches with
  | [] => mret tt
  | patch :: rest =>
      fun w =>
        let reply := replyCompletion (storeReply w (requests w)) in
        match updateTaskAll rest (issue w patch) with
        | (later, w') =>
            (match reply with Normal _ => later | Throw e => Throw e end, w')
        end
  end.

(** The part of a window callback after [runSingleChunk] has resolved; the
    callbacks in [others] are still waiting for their chunks.  If the
    progress message is refused the callback rejects, and what the others
    will write is left behind. *)
Definition completeChunk (run : Run) (chunkPaths : list string) (totalChunks : nat)
    (i : nat) (others : list nat) (st : BatchState) : M World BatchState :=
  r ← await (chunkResult run chunkPaths i);
  let st' := storeResult i r st in
  leaving (laterWrites run chunkPaths totalChunks others st')
    (updateTask (progress (doneMessage i totalChunks (completedChunks st'))));;
  mret st'.

Fixpoint completeAll (run : Run) (chunkPaths : list string) (totalChunks : nat)
    (order : list nat) (st : BatchState) : M World BatchState :=
  match order with
  | [] => mret st
  | i :: rest =>
      st' ← completeChunk run chunkPaths totalChunks i rest st;
      completeAll run chunkPaths totalChunks rest st'
  end.

(** [processBatch(indices)]: [Promise.all] over the window's callbacks.  Each
    callback issues its dispatch message at once; the chunks then resolve in
    the order [completionOrder run indices], each followed by its progress
    message.  A reply is taken to arrive before the next chunk resolves.
    Once a callback rejects, the window rejects and the [catch] block runs;
    the callbacks whose chunk is still being transcribed go on, though nobody
    awaits them.  Under the same timing their chunks resolve after the
    [catch] block has written, so their progress messages come after its
    writes: they are left in [pending]. *)
Definition processBatch (run : Run) (chunkPaths : list string) (totalChunks : nat)
    (indices : list nat) (st : BatchState) : M World BatchState :=
  fun w =>
    let running :=
      filter (fun i => i ∈ started w 0 indices) (completionOrder run indices) in
    (leaving (laterWrites run chunkPaths totalChunks running st)
       (updateTaskAll ((fun i => progress (dispatchMessage i totalChunks)) <$> indices));;
     completeAll run chunkPaths totalChunks (completionOrder run indices) st) w.

(** [for (let j = i; j < i + CONCURRENCY && j < totalChunks; j++) indices.push(j)] *)
Definition windowIndices (i totalChunks : nat) : list nat :=
  seq i (Nat.min CONCURRENCY (totalChunks - i)).

(** [for (let i = 0; i < totalChunks; i += CONCURRENCY)], at most [budget]
    windows from [i] on. *)
Fixpoint windowLoop (run : Run) (chunkPaths : list string) (totalChunks : nat)
    (budget : nat) (i : nat) (st : BatchState) : M World BatchState :=
  match budget with
  | O => mret st
  | S budget' =>
      if Nat.ltb i totalChunks then
        st' ← processBatch run chunkPaths totalChunks (windowIndices i totalChunks) st;
        windowLoop run chunkPaths totalChunks budget' (i + CONCURRENCY) st'
      else mret st
  end.

Definition completion (run : Run) (acc : MergeAcc) : TaskPatch :=
  let count := if Z.eqb (speakersCount acc) 0 then 1 else speakersCount acc in
  {| p_status := Some completed;
     p_error_message := None;
     p_result := Some (mergedResult acc);
     p_language := Some (detectedLanguage acc);
     p_speakers_count := Some count;
     p_processed_at := Some (elapsedSeconds run) |}.

(** The [try] block of [runGeminiTranscription].  The value of
    [await getAudioDuration(tempFilePath)] is not used and the call always
    resolves, so it leaves no mark here. *)
Definition pipelineBody (run : Run) (tempFilePath : string) : M World unit :=
  updateTask (progress "Анализ аудиофайла...");;
  updateTask (progress "Подготовка фрагментов...");;
  chunkPaths ← await (splitResult run);
  let totalChunks := length chunkPaths in
  let start := {| results := replicate totalChunks None; completedChunks := 0 |} in
  st ← windowLoop run chunkPaths totalChunks totalChunks 0 start;
  updateTask (progress "Сборка результата...");;
  acc ← await (mergeLoop (offsetFn run) (results st) totalChunks 0 emptyAcc);
  match allSegments acc with
  | [] => throw NO_SEGMENTS_MESSAGE
  | _ :: _ =>
      (if (1 <? totalChunks)%nat
          || (Nat.eqb totalChunks 1
              && negb (bool_decide (chunkPaths !! 0%nat = Some tempFilePath)))
       then unlink tempFilePath else mret tt);;
      updateTask (completion run acc)
  end.

(** [runGeminiTranscription(taskId, tempFilePath, fileName, mimeType)] *)
Definition runGeminiTranscription (run : Run) (tempFilePath : string) : M World unit :=
  if negb (apiKey run) then
    updateTask (failure "GEMINI_API_KEY is not configured")
  else
    tryCatch (pipelineBody run tempFilePath)
      (fun message => updateTask (failure message);; unlink tempFilePath).

(** The task as the caller leaves it: created with status [processing]. *)
Definition newTask : TranscriptionTask :=
  {| status := processing; error_message := None; result := None;
     language := None; task_speakers_count := None; processed_at := None |}.

Definition startWorld (replies : nat -> StoreReply) : World :=
  {| storeReply := replies; requests := 0; events := []; task := newTask;
     pending := [] |}.

End Gemini.

(** ** lib/audio-chunks.ts: cleaning up *)

Module AudioCleanup.
Import Effect JsString AudioChunks.

(** What [deleteChunkFiles] does to the outside: [unlink] calls, and a
    warning on the console for each one that failed. *)
Inductive FsEvent :=
| FsUnlink (path : string)
| FsWarn (path : string) (reason : string).

(** [await unlink(p)]: the outcome of the call comes from the file system,
    here an oracle asked with the number of entries logged so far. *)
Definition unlinkFile (fs : nat -> Completion unit) (p : string)
  : M (list FsEvent) unit :=
  fun log => (fs (length log), log ++ [FsUnlink p]).

(** [console.warn("Error deleting chunk file:", p, e)] *)
Definition warn (p reason : string) : M (list FsEvent) unit :=
  modify (fun log => log ++ [FsWarn p reason]).

(** [deleteChunkFiles(chunkPaths, originalPath)] *)
Fixpoint deleteChunkFiles (fs : nat -> Completion unit) (chunkPaths : list string)
    (originalPath : string) : M (list FsEvent) unit :=
  match chunkPaths with
  | [] => mret tt
  | p :: rest =>
      (if String.eqb p originalPath then mret tt
       else tryCatch (unlinkFile fs p) (fun e => warn p e));;
      deleteChunkFiles fs rest originalPath
  end.

End AudioCleanup.

(** ** app/api/upload/route.ts: what is accepted, and its MIME type

    [getMimeType] is also the function of that name in the earlier
    [lib/transcribe.ts]. *)

Module UploadRoute.
Import JsString.

(** [s.toLowerCase()].  The model maps the ASCII capitals and leaves every
    other character alone.  JavaScript also maps capitals outside ASCII, to
    characters outside ASCII, with two exceptions: U+212A becomes [k] and
    U+0130 becomes [i] followed by a combining dot.  The keys compared with
    below are ASCII and contain neither [k] nor [i], so the comparisons come
    out as in JavaScript. *)
Definition toLowerChar (c : ascii) : ascii :=
  let n := nat_of_ascii c in
  if (65 <=? n)%nat && (n <=? 90)%nat then ascii_of_nat (n + 32) else c.

Fixpoint toLowerCase (s : string) : string :=
  match s with
  | EmptyString => EmptyString
  | String c s' => String (toLowerChar c) (toLowerCase s')
  end.

(** [parts.pop()]: the last element, [undefined] for an empty array. *)
Definition pop (parts : list string) : option string := last parts.

Definition ALLOWED_EXTENSIONS : list string :=
  [".mp3"; ".wav"; ".m4a"; ".ogg"; ".webm"].

(** The own properties of the object literal [mimeMap]. *)
Definition mimeMap : list (string * string) :=
  [("mp3", "audio/mpeg"); ("wav", "audio/wav"); ("m4a", "audio/mp4");
   ("ogg", "audio/ogg"); ("webm", "audio/webm")].

(** The properties an object literal inherits from [Object.prototype]. *)
Definition OBJECT_PROTOTYPE : list string :=
  ["constructor"; "__defineGetter__"; "__defineSetter__"; "hasOwnProperty";
   "__lookupGetter__"; "__lookupSetter__"; "isPrototypeOf";
   "propertyIsEnumerable"; "toString"; "valueOf"; "__proto__"; "toLocaleString"].

(** The value of [mimeMap[key]]. *)
Inductive Property :=
| Own (value : string)
(** a function or object of [Object.prototype]: truthy, and not a string *)
| Inherited (key : string)
| Undefined.

Fixpoint ownProperty (entries : list (string * string)) (key : string) : option string :=
  match entries with
  | [] => None
  | (k, v) :: rest => if String.eqb k key then Some v else ownProperty rest key
  end.

Definition getProperty (key : string) : Property :=
  match ownProperty mimeMap key with
  | Some v => Own v
  | None => if existsb (String.eqb key) OBJECT_PROTOTYPE then Inherited key else Undefined
  end.

(** What [getMimeType] returns.  Its declared type is [string]; for an
    inherited key the value returned at run time is not one. *)
Inductive MimeValue :=
| MimeString (s : string)
| NotAString (key : string).

(** [getMimeType(fileName)] *)
Definition getMimeType (fileName : string) : MimeValue :=
  let ext := pop (split "." (toLowerCase fileName)) in
  match getProperty (default "" ext) with
  | Own v => if String.eqb v "" then MimeString "audio/mpeg" else MimeString v
  | Inherited key => NotAString key
  | Undefined => MimeString "audio/mpeg"
  end.

(** ["." + (file.name.split(".").pop()?.toLowerCase() || "")] in [POST] *)
Definition uploadExtension (fileName : string) : string :=
  String "." (default "" (toLowerCase <$> pop (split "." fileName))).

(** [ALLOWED_EXTENSIONS.includes(ext)] *)
Definition isAllowed (fileName : string) : bool :=
  existsb (String.eqb (uploadExtension fileName)) ALLOWED_EXTENSIONS.

End UploadRoute.

(** ** lib/export.ts: SRT time stamps *)

Module SrtExport.
Import JsString.

(** [/^\d{2}:\d{2}:\d{2},\d{3}$/.test(s)]: twelve characters, digits around
    two colons and a comma. *)
Definition isSrtTime (s : string) : bool :=
  match list_ascii_of_string s with
  | [h1; h2; c1; m1; m2; c2; s1; s2; k; f1; f2; f3] =>
      isDigit h1 && isDigit h2 && Ascii.eqb c1 ":"
      && isDigit m1 && isDigit m2 && Ascii.eqb c2 ":"
      && isDigit s1 && isDigit s2 && Ascii.eqb k ","
      && isDigit f1 && isDigit f2 && isDigit f3
  | _ => false
  end.

(** [s.includes(".")] *)
Fixpoint includesDot (s : string) : bool :=
  match s with
  | EmptyString => false
  | String c s' => Ascii.eqb c "." || includesDot s'
  end.

(** [s.replace(/\./g, ",")] *)
Fixpoint replaceDots (s : string) : string :=
  match s with
  | EmptyString => EmptyString
  | String c s' => String (if Ascii.eqb c "." then "," else c)%char (replaceDots s')
  end.

(** [toSrtTime(s)] *)
Definition toSrtTime (s : string) : string :=
  if isSrtTime s then s
  else if includesDot s then replaceDots s
  else String.append s ",000".

End SrtExport.

(** ** app/api/tasks/[id]/route.ts: the task as it is handed out *)

Module TaskRoute.
Import Effect.

(** A JSON value, as [res.json()] and [JSON.parse] produce them. *)
Local Unset Elimination Schemes.
Inductive Json :=
| JNull
| JBool (b : bool)
| JNumber (q : Q)
| JString (s : string)
| JArray (items : list Json)
| JObject (fields : list (string * Json)).
Local Set Elimination Schemes.

(** [obj[key]] on the own properties of an object; [None] is [undefined]. *)
Fixpoint getField (key : string) (fields : list (string * Json)) : option Json :=
  match fields with
  | [] => None
  | (k, v) :: rest => if String.eqb k key then Some v else getField key rest
  end.

(** [{ ...obj, [key]: value }]: the property keeps its place if the object
    has it, and is added at the end if not. *)
Fixpoint setField (key : string) (value : Json) (fields : list (string * Json))
  : list (string * Json) :=
  match fields with
  | [] => [(key, value)]
  | (k, v) :: rest =>
      if String.eqb k key then (k, value) :: rest
      else (k, v) :: setField key value rest
  end.

(** [typeof v === "object" && Array.isArray(v.segments)], for a [v] that is
    not [null]. *)
Definition hasSegmentArray (v : Json) : bool :=
  match v with
  | JObject fields =>
      match getField "segments" fields with
      | Some (JArray _) => true
      | _ => false
      end
  | _ => false
  end.

(** [{ segments: [], summary: "", _truncated: true }] *)
Definition TRUNCATED : Json :=
  JObject [("segments", JArray []); ("summary", JString ""); ("_truncated", JBool true)].

(** [normalizeTaskResult(data)], [parse] being [JSON.parse]. *)
Definition normalizeTaskResult (parse : string -> Completion Json)
    (data : list (string * Json)) : list (string * Json) :=
  match getField "result" data with
  | None | Some JNull => data
  | Some result =>
      if hasSegmentArray result then data
      else
        match result with
        | JString text =>
            match parse text with
            | Normal parsed =>
                if hasSegmentArray parsed then setField "result" parsed data
                else setField "result" TRUNCATED data
            | Throw _ => setField "result" TRUNCATED data
            end
        | _ => data
        end
  end.

End TaskRoute.

(** ** lib/directus.ts: the address of a request *)

Module DirectusUrl.
Import JsString.

(** [s.replace(/\/$/, "")]: one slash at the end is removed. *)
Fixpoint stripSlash (s : string) : string :=
  match s with
  | EmptyString => EmptyString
  | String c s' =>
      match s' with
      | EmptyString => if Ascii.eqb c "/" then EmptyString else s
      | String _ _ => String c (stripSlash s')
      end
  end.

(** [process.env.DIRECTUS_URL?.replace(/\/$/, "") || ""] *)
Definition DIRECTUS_URL (env : option string) : string :=
  match env with
  | Some url => stripSlash url
  | None => EmptyString
  end.

(** [path.startsWith("/")] *)
Definition startsWithSlash (path : string) : bool :=
  match path with
  | String c _ => Ascii.eqb c "/"
  | EmptyString => false
  end.

(** The [url] that [directusRequest(path)] fetches. *)
Definition requestUrl (env : option string) (path : string) : string :=
  String.append (DIRECTUS_URL env)
    (if startsWithSlash path then path else String "/" path).

End DirectusUrl.

(** ** Auxiliary definitions for the statements

    Predicates, closed forms and reference functions used to state the
    properties below.  None of them is part of the program. *)

Module StringSpec.
Import JsString.

Fixpoint noneOf (p : ascii -> bool) (s : string) : bool :=
  match s with
  | EmptyString => true
  | String c s' => negb (p c) && noneOf p s'
  end.

End StringSpec.

Module TimestampSpec.
Import JsString AudioChunks.

(** A timecode in the [HH:MM:SS] form: three colon-separated fields, each a
    non-empty run of decimal digits (the hour field may be longer than two
    digits, as in the function's own output). *)
Definition isField (s : string) : bool :=
  allDigits s && negb (String.eqb s "").

Definition isTimecode (t : string) : bool :=
  match split ":" t with
  | [h; m; s] => isField h && isField m && isField s
  | _ => false
  end.

Definition twoDigits (n : Z) : string := padStart 2 "0" (toString n).

Definition colonJoin (h m s : string) : string :=
  String.append h (String ":" (String.append m (String ":" s))).

(** The seconds a timestamp denotes, [h * 3600 + m * 60 + s], as
    [addOffsetToTimestamp] computes them before it adds the offset. *)
Definition timecodeSeconds (timeStr : string) : option Z :=
  let parts := Number <$> split ":" (trim timeStr) in
  h ← component parts 0;
  m ← component parts 1;
  s ← component parts 2;
  hours ← exact (h * 3600);
  minutes ← exact (m * 60);
  hm ← exact (hours + minutes);
  exact (hm + s).

(** A strict [HH:MM:SS] timecode: three fields of exactly two digits. *)
Definition isClockField (s : string) : bool :=
  match s with
  | String a (String b EmptyString) => isDigit a && isDigit b
  | _ => false
  end.

Definition isClockTimecode (t : string) : bool :=
  match split ":" t with
  | [h; m; s] => isClockField h && isClockField m && isClockField s
  | _ => false
  end.

End TimestampSpec.

Module SplitterSpec.
Import JsString AudioChunks.

(** The path written by iteration [i] of the splitting loop. *)
Definition chunkPathAt (host : Host) (originalPath : string) (i : Z) : string :=
  let ext := extname host originalPath in
  pathJoin host (dirname host originalPath)
    (String.append (basename host originalPath ext)
       (String.append "_chunk_" (String.append (toString i) ext))).

(** The encoding run of iteration [i]. *)
Definition plannedJob (host : Host) (originalPath : string) (duration : Q) (i : Z)
  : FfmpegJob :=
  {| startSec := i * CHUNK_DURATION_SEC;
     durationSec := Qmin chunkQ (duration - inject_Z (i * CHUNK_DURATION_SEC));
     output := chunkPathAt host originalPath i |}.

Definition sumQ (l : list Q) : Q := foldr Qplus 0%Q l.

Definition indicesFrom (i : Z) (n : nat) : list Z :=
  (fun k => i + Z.of_nat k) <$> seq 0 n.

End SplitterSpec.

Module ChunkSpec.
Import Effect Transcript Directus JsString AudioChunks Gemini.

(** The value [parseGeminiJson] settles on: the strict parse if it succeeds,
    else the strict parse of the repaired text, else [null]. *)
Definition parseOutcome (lib : JsonLib) (rawText : string) : option TranscriptionResult :=
  if String.eqb (trim rawText) "" then None
  else
    match JSON_parse lib rawText with
    | Normal parsed => parsed
    | Throw _ =>
        match jsonrepair lib rawText with
        | Normal repaired =>
            match JSON_parse lib repaired with
            | Normal parsed => parsed
            | Throw _ => None
            end
        | Throw _ => None
        end
    end.

Definition EMPTY_SEGMENTS : string := "Empty or invalid segments in response".

(** What an attempt makes of the text it received. *)
Definition accept (parsed : option TranscriptionResult) : Completion TranscriptionResult :=
  match parsed with
  | Some res => if hasSegments parsed then Normal res else Throw EMPTY_SEGMENTS
  | None => Throw EMPTY_SEGMENTS
  end.

Definition isUpload (e : ChunkEvent) : bool :=
  match e with EvUpload _ => true | _ => false end.

(** The calls of one failed attempt, [attempt] counted from 0: a fresh
    upload first and no other upload, the deletion of the remote file if the
    upload returned one with a usable name, and at the end the back-off
    sleep, or the deletion of the local file when no attempt is left. *)
Definition FailedAttempt (svc : Service) (filePath : string) (retries attempt : nat)
    (seg : list ChunkEvent) : Prop :=
  exists rest,
    seg = EvUpload filePath :: rest
    /\ Forall (fun e => isUpload e = false) rest
    /\ (forall u, upload svc attempt = Normal u -> name u <> EmptyString ->
        EvDeleteRemote (name u) ∈ rest)
    /\ last seg = Some (if Nat.eqb attempt retries then EvUnlinkChunk filePath
                        else EvSleep (2 ^ Z.of_nat attempt * 2000)).

(** The calls of the attempt that succeeds. *)
Definition AcceptedAttempt (svc : Service) (filePath : string) (attempt : nat)
    (seg : list ChunkEvent) : Prop :=
  exists rest u,
    seg = EvUpload filePath :: rest
    /\ Forall (fun e => isUpload e = false) rest
    /\ upload svc attempt = Normal u
    /\ EvDeleteRemote (name u) ∈ rest
    /\ last seg = Some (EvUnlinkChunk filePath).

End ChunkSpec.

Module MergeSpec.
Import Effect Transcript Directus JsString AudioChunks Gemini.

(** The surviving chunks: those whose result is present with a non-empty
    segment list, each with its chunk index, in index order. *)
Fixpoint survivorsFrom (i : nat) (results : list (option TranscriptionResult))
  : list (nat * TranscriptionResult) :=
  match results with
  | [] => []
  | res :: rest =>
      match res with
      | Some r => if hasSegments res then [(i, r)] else []
      | None => []
      end ++ survivorsFrom (S i) rest
  end.

Definition survivors (results : list (option TranscriptionResult))
  : list (nat * TranscriptionResult) := survivorsFrom 0 results.

(** The merged segments chunk by chunk: the segments of each chunk moved by
    the chunk's index times the chunk duration, one chunk after the other;
    or the first error on the way. *)
Fixpoint specSegments (fn : OffsetFn) (chunks : list (nat * TranscriptionResult))
  : Completion (list Segment) :=
  match chunks with
  | [] => mret []
  | c :: rest =>
      here ← adjustAll fn (Z.of_nat c.1 * CHUNK_DURATION_SEC) (segmentsOf c.2);
      later ← specSegments fn rest;
      mret (here ++ later)
  end.

Definition specSummaries (chunks : list (nat * TranscriptionResult)) : list string :=
  omap (fun c => truthyString (summary c.2)) chunks.

Definition specLanguages (chunks : list (nat * TranscriptionResult)) : list string :=
  omap (fun c => truthyString (detected_language c.2)) chunks.

Definition specCounts (chunks : list (nat * TranscriptionResult)) : list Z :=
  omap (fun c => truthyNumber (speakers_count c.2)) chunks.


(** The merge loop as a walk over the array's elements. *)
Fixpoint mergeFrom (fn : OffsetFn) (i : nat) (results : list (option TranscriptionResult))
    (acc : MergeAcc) : Completion MergeAcc :=
  match results with
  | [] => mret acc
  | res :: rest => acc' ← mergeStep fn i res acc; mergeFrom fn (S i) rest acc'
  end.

(** The accumulator after the chunks [chunks] have been merged into [acc],
    [segs] being their segments as merged. *)
Definition merging (acc : MergeAcc) (chunks : list (nat * TranscriptionResult))
    (segs : list Segment) : MergeAcc :=
  {| allSegments := allSegments acc ++ segs;
     summaries := summaries acc ++ specSummaries chunks;
     detectedLanguage := default (detectedLanguage acc) (last (specLanguages chunks));
     speakersCount := foldl Z.max (speakersCount acc) (specCounts chunks) |}.


(** A segment with a text as start and a text as end. *)
Definition Timed (seg : Segment) : Prop :=
  exists startText endText,
    seg_start seg = TimeText startText /\ seg_end seg = TimeText endText.



End MergeSpec.

Module PipelineSpec.
Import Effect Transcript Directus JsString AudioChunks Gemini.

(** What [runSingleChunk] resolves to for chunk [i]. *)
Definition settled (run : Run) (chunkPaths : list string) (i : nat)
  : option TranscriptionResult :=
  match chunkResult run chunkPaths i with
  | Normal r => r
  | Throw _ => None
  end.

(** The results array of a strictly sequential run: chunk 0, then chunk 1,
    and so on, each stored at its own index. *)
Definition sequentialResults (run : Run) (chunkPaths : list string)
  : list (option TranscriptionResult) :=
  settled run chunkPaths <$> seq 0 (length chunkPaths).

(** The store answers every request with success. *)
Definition Accepting (w : World) : Prop := forall k, storeReply w k = Accepted.

(** Completion orders that are orders: each lists its window's indices once. *)
Definition ValidOrder (order : list nat -> list nat) : Prop :=
  forall indices, order indices ≡ₚ indices.

(** [w'] differs from [w] by progress messages only. *)
Definition Progressed (w w' : World) : Prop :=
  storeReply w' = storeReply w
  /\ status (task w') = status (task w)
  /\ result (task w') = result (task w)
  /\ language (task w') = language (task w)
  /\ task_speakers_count (task w') = task_speakers_count (task w)
  /\ processed_at (task w') = processed_at (task w).

(** The array after the chunks of [order] have resolved. *)
Definition stored (run : Run) (chunkPaths : list string) (order : list nat)
    (results : list (option TranscriptionResult)) : list (option TranscriptionResult) :=
  foldl (fun acc i => <[i := settled run chunkPaths i]> acc) results order.

Definition ASSEMBLING : string := "Сборка результата...".

(** The task a completed run leaves in the store. *)
Definition completedTask (run : Run) (acc : MergeAcc) : TranscriptionTask :=
  {| status := completed;
     error_message := Some ASSEMBLING;
     result := Some (mergedResult acc);
     language := Some (detectedLanguage acc);
     task_speakers_count :=
       Some (if Z.eqb (speakersCount acc) 0 then 1 else speakersCount acc);
     processed_at := Some (elapsedSeconds run) |}.

(** From [w] to [w1] the store accepted every request issued. *)
Definition Quiet (w w1 : World) : Prop :=
  storeReply w1 = storeReply w
  /\ (requests w <= requests w1)%nat
  /\ forall k, (requests w <= k < requests w1)%nat -> storeReply w k = Accepted.




(** The number of chunks of a run. *)
Definition chunkCount (run : Run) : nat :=
  match splitResult run with
  | Normal chunkPaths => length chunkPaths
  | Throw _ => 0%nat
  end.

(** The same run with another completion order inside the windows. *)
Definition withOrder (run : Run) (order : list nat -> list nat) : Run :=
  {| apiKey := apiKey run;
     splitResult := splitResult run;
     service := service run;
     completionOrder := order;
     elapsedSeconds := elapsedSeconds run;
     offsetFn := offsetFn run |}.

(** Two worlds that differ at most in the progress text and in the log of
    issued calls. *)
Definition SameStore (w1 w2 : World) : Prop :=
  storeReply w1 = storeReply w2
  /\ requests w1 = requests w2
  /\ status (task w1) = status (task w2)
  /\ result (task w1) = result (task w2)
  /\ language (task w1) = language (task w2)
  /\ task_speakers_count (task w1) = task_speakers_count (task w2)
  /\ processed_at (task w1) = processed_at (task w2).

(** Two outcomes of the same kind: both normal with the same results array,
    or both thrown with the same message. *)
Definition SameOutcome (c1 c2 : Completion BatchState) : Prop :=
  match c1, c2 with
  | Normal s1, Normal s2 => results s1 = results s2
  | Throw e1, Throw e2 => e1 = e2
  | _, _ => False
  end.

(** Two computations seen side by side: same kind of outcome, related
    values, stores that agree. *)
Definition Sim {A} (R : A -> A -> Prop) (o1 o2 : Completion A * World) : Prop :=
  SameStore (snd o1) (snd o2)
  /\ match fst o1, fst o2 with
     | Normal a1, Normal a2 => R a1 a2
     | Throw e1, Throw e2 => e1 = e2
     | _, _ => False
     end.

End PipelineSpec.

Module TraceSpec.
Import Effect Transcript Directus JsString AudioChunks Gemini.

(** The milliseconds slept in a list of calls. *)
Definition sleepTotal (evs : list ChunkEvent) : Z :=
  foldr (fun e acc => match e with EvSleep ms => ms + acc | _ => acc end) 0 evs.

(** The sleeps of a list of calls, in order. *)
Definition sleeps (evs : list ChunkEvent) : list Z :=
  omap (fun e => match e with EvSleep ms => Some ms | _ => None end) evs.

(** The names asked for in status requests. *)
Definition polled (evs : list ChunkEvent) : list string :=
  omap (fun e => match e with EvGetFile n => Some n | _ => None end) evs.

(** The local files deleted. *)
Definition unlinkedPaths (evs : list ChunkEvent) : list string :=
  omap (fun e => match e with EvUnlinkChunk p => Some p | _ => None end) evs.

(** The remote files deleted. *)
Definition deletedNames (evs : list ChunkEvent) : list string :=
  omap (fun e => match e with EvDeleteRemote n => Some n | _ => None end) evs.

(** One round of the polling loop, and [j] rounds. *)
Definition pollRound (fileName : string) : list ChunkEvent :=
  [EvSleep 2000; EvGetFile fileName].

Definition pollRounds (j : nat) (fileName : string) : list ChunkEvent :=
  concat (replicate j (pollRound fileName)).

(** The calls of one run of the [try] block after an upload that returned
    [u]: the first status request, [j] polling rounds, and [tail]. *)
Definition bodyCalls (path : string) (u : UploadResult) (j : nat)
    (tail : list ChunkEvent) : list ChunkEvent :=
  EvUpload path :: EvGetFile (name u) :: pollRounds j (name u) ++ tail.

(** The three ways the [try] block can end once the file is active. *)
Definition generated (u : UploadResult) : list ChunkEvent := [EvGenerate (uri u)].

Definition rejected (u : UploadResult) : list ChunkEvent :=
  [EvGenerate (uri u); EvDeleteRemote (name u)].

Definition accepted (path : string) (u : UploadResult) : list ChunkEvent :=
  [EvGenerate (uri u); EvDeleteRemote (name u); EvUnlinkChunk path].

(** What the [catch] block adds after a failed attempt, [stale] being the
    value of [geminiFileName] it finds. *)
Definition catchCalls (path : string) (retries attempt : nat) (err : string)
    (stale : option string) : list ChunkEvent :=
  EvLogFailure (attempt + 1) err
  :: match truthyName stale with
     | Some n => [EvDeleteRemote n]
     | None => []
     end
  ++ [if Nat.eqb attempt retries then EvUnlinkChunk path
      else EvSleep (2 ^ Z.of_nat attempt * 2000)].

(** A remote name that one of the first [attempts] uploads returned. *)
Definition Uploaded (svc : Service) (attempts : nat) (fileName : string) : Prop :=
  exists k u, (k < attempts)%nat /\ upload svc k = Normal u /\ name u = fileName.

(** The longest one attempt can sleep while polling, and the longest a call
    with [retries] retries can sleep in all. *)
Definition POLL_BUDGET_MS : Z := 60 * 2000.

Definition sleepBudget (retries : nat) : Z :=
  (Z.of_nat retries + 1) * POLL_BUDGET_MS + (2 ^ Z.of_nat retries - 1) * 2000.

End TraceSpec.

Module RunSpec.
Import Effect Transcript Directus JsString AudioChunks Gemini.
Import PipelineSpec.

(** A write that carries a progress text and nothing else. *)
Definition message (m : string) : Event := EvUpdateTask (progress m).





(** In a run over [totalChunks] chunks every percentage is a number, the
    one before the first completion is 15, the one after the last is 90, and
    from one completion to the next the percentage does not fall. *)
Definition steadyPercent (totalChunks : nat) : bool :=
  forallb (fun c => match percent c totalChunks, percent (S c) totalChunks with
                    | Some a, Some b => (15 <=? a) && (a <=? b) && (b <=? 90)
                    | _, _ => false
                    end) (seq 0 totalChunks)
  && bool_decide (percent 0 totalChunks = Some 15)
  && bool_decide (percent totalChunks totalChunks = Some 90).



(** The windows the loop of [runGeminiTranscription] builds, from index [i]
    on, and the loop as a walk over a list of windows. *)
Fixpoint windowsFrom (totalChunks budget i : nat) : list (list nat) :=
  match budget with
  | O => []
  | S budget' =>
      if Nat.ltb i totalChunks
      then windowIndices i totalChunks
           :: windowsFrom totalChunks budget' (i + CONCURRENCY)
      else []
  end.

Fixpoint runWindows (run : Run) (chunkPaths : list string) (totalChunks : nat)
    (windows : list (list nat)) (st : BatchState) : M World BatchState :=
  match windows with
  | [] => mret st
  | indices :: rest =>
      st' ← processBatch run chunkPaths totalChunks indices st;
      runWindows run chunkPaths totalChunks rest st'
  end.

End RunSpec.

Module CleanupSpec.
Import AudioCleanup.

(** The paths handed to [unlink], in order. *)
Definition removed (log : list FsEvent) : list string :=
  omap (fun e => match e with FsUnlink p => Some p | _ => None end) log.

(** The entries of a list other than [originalPath]. *)
Definition others (originalPath : string) (paths : list string) : list string :=
  filter (fun p => p <> originalPath) paths.

End CleanupSpec.

Module ChronologySpec.
Import Effect Transcript Directus JsString AudioChunks Gemini.
Import TimestampSpec MergeSpec.

(** The seconds a segment's start reads as, if it is a text that does. *)
Definition startSeconds (seg : Segment) : option Z :=
  match seg_start seg with
  | TimeText t => timecodeSeconds t
  | NoTimeText _ => None
  end.

(** The seconds at which the segments of a list start, one for one. *)
Definition StartsAt (segs : list Segment) (starts : list Z) : Prop :=
  Forall2 (fun seg T => startSeconds seg = Some T /\ Timed seg) segs starts.

(** In chronological order: every start can be read, and none is earlier
    than one before it. *)
Definition Chronological (segs : list Segment) : Prop :=
  exists starts, StartsAt segs starts /\ StronglySorted Z.le starts.

(** What a chunk's own segments should look like: in chronological order, and
    starting within the chunk's duration. *)
Definition WithinChunk (segs : list Segment) : Prop :=
  exists starts,
    StartsAt segs starts
    /\ StronglySorted Z.le starts
    /\ Forall (fun T => T < CHUNK_DURATION_SEC) starts.

(** Where the splitter cut chunk [i]: the start of its encoding run, and 0
    for a source that was returned unsplit. *)
Definition chunkStart (jobs : list FfmpegJob) (i : nat) : Z :=
  default 0 (startSec <$> jobs !! i).

(** The segments of the chunks [chunks], those of each chunk moved by the
    start of the encoding run that wrote the chunk; or the first error. *)
Fixpoint movedByStart (fn : OffsetFn) (jobs : list FfmpegJob)
    (chunks : list (nat * TranscriptionResult)) : Completion (list Segment) :=
  match chunks with
  | [] => mret []
  | c :: rest =>
      here ← adjustAll fn (chunkStart jobs c.1) (segmentsOf c.2);
      later ← movedByStart fn jobs rest;
      mret (here ++ later)
  end.

End ChronologySpec.

Module UrlSpec.
Import JsString.

(** The text ends with a slash. *)
Fixpoint endsWithSlash (s : string) : bool :=
  match s with
  | EmptyString => false
  | String c s' =>
      match s' with
      | EmptyString => Ascii.eqb c "/"
      | String _ _ => endsWithSlash s'
      end
  end.

End UrlSpec.

Module FieldSpec.

(** The separator of timestamp fields. *)
Definition isColon (c : ascii) : bool := Ascii.eqb c ":".

End FieldSpec.

(** ** Concrete runs *)

Module Scenarios.
Import Effect Transcript Directus JsString AudioChunks Gemini.

(** A total offset function: the model where it is defined, the text
    JavaScript prints for [NaN] fields elsewhere. *)
Definition modelOffset : OffsetFn :=
  {| applyOffset := fun t off => default "NaN:NaN:NaN" (addOffsetToTimestamp t off);
     applyOffset_model := fun t off r H => f_equal (default "NaN:NaN:NaN") H |}.

Definition helloResult : TranscriptionResult :=
  {| segments := Some [{| seg_start := TimeText "00:00:01"; seg_end := TimeText "00:00:05";
                          speaker := Some "Speaker A"; text := Some "hello" |}];
     summary := Some "greeting";
     detected_language := Some "en";
     speakers_count := Some 1 |}.

(** The message of the [TypeError] that [undefined.trim()] raises in V8. *)
Definition TRIM_OF_UNDEFINED : string :=
  "Cannot read properties of undefined (reading 'trim')".

(** A reply that was cut off inside its second segment, right after the
    start, as it reads once the open brackets are closed: the second segment
    has a start and nothing else. *)
Definition cutOffResult : TranscriptionResult :=
  {| segments := Some [{| seg_start := TimeText "00:00:01"; seg_end := TimeText "00:00:05";
                          speaker := Some "Speaker A"; text := Some "hello" |};
                       {| seg_start := TimeText "00:00:06";
                          seg_end := NoTimeText TRIM_OF_UNDEFINED;
                          speaker := None; text := None |}];
     summary := None;
     detected_language := None;
     speakers_count := None |}.

(** A [JSON.parse] that knows two documents, and a [jsonrepair] that closes
    the brackets of the cut-off one. *)
Definition demoJson : JsonLib :=
  {| JSON_parse := fun s => if String.eqb s "{hello}" then Normal (Some helloResult)
                            else if String.eqb s "{cut-off}" then Normal (Some cutOffResult)
                            else Throw "SyntaxError";
     jsonrepair := fun s => if String.eqb s "{cut-off" then Normal "{cut-off}"
                            else Throw "JSONRepairError" |}.

(** A service on which every call works at once. *)
Definition goodService : Service :=
  {| upload := fun _ => Normal {| name := "files/a"; uri := "gs://a";
                                  mimeType := "audio/mpeg" |};
     getFile := fun _ _ => Normal ACTIVE;
     generateContent := fun _ => Normal (Some "{hello}");
     jsonLib := demoJson |}.


(** A service on which every upload fails. *)
Definition deadService : Service :=
  {| upload := fun _ => Throw "fetch failed";
     getFile := fun _ _ => Throw "fetch failed";
     generateContent := fun _ => Throw "fetch failed";
     jsonLib := demoJson |}.

Definition threePaths : list string := ["in_chunk_0.mp3"; "in_chunk_1.mp3"; "in_chunk_2.mp3"].

(** Three chunks; the second exhausts its retries; within a window the later
    chunk resolves first. *)
Definition lossyRun : Run :=
  {| apiKey := true;
     splitResult := Normal threePaths;
     service := fun i => if Nat.eqb i 1 then deadService else goodService;
     completionOrder := reverse;
     elapsedSeconds := 42;
     offsetFn := modelOffset |}.





Definition alwaysAccepted : nat -> StoreReply := fun _ => Accepted.


Definition oneSegment : list Segment :=
  [{| seg_start := TimeText "00:00:01"; seg_end := TimeText "00:00:05";
      speaker := Some "Speaker A"; text := Some "..." |}].

(** Three chunk results with detected languages ["", "en", ""] and speaker
    counts [2, 1, 3]. *)
Definition languageExample : list (option TranscriptionResult) :=
  [Some {| segments := Some oneSegment; summary := Some "first";
           detected_language := Some ""; speakers_count := Some 2 |};
   Some {| segments := Some oneSegment; summary := Some "";
           detected_language := Some "en"; speakers_count := Some 1 |};
   Some {| segments := Some oneSegment; summary := Some "third";
           detected_language := Some ""; speakers_count := Some 3 |}].

(** A host with a 25-minute file on which the second encoding run fails. *)
Definition flakyHost : Host :=
  {| ffmpegInstalled := true;
     ffprobe := fun _ =>
       ProbeData (Some {| format := Some {| duration := VNumber (Finite 1500) |} |});
     ffmpegRun := fun _ job =>
       if Z.eqb (startSec job) 600 then Some "ffmpeg exited with code 1" else None;
     dirname := fun _ => "/tmp";
     extname := fun _ => ".mp3";
     basename := fun _ _ => "a";
     pathJoin := fun dir file => String.append dir (String "/" file) |}.

(** A host with a 25-minute file on which every encoding run ends well. *)
Definition steadyHost : Host :=
  {| ffmpegInstalled := true;
     ffprobe := fun _ =>
       ProbeData (Some {| format := Some {| duration := VNumber (Finite 1500) |} |});
     ffmpegRun := fun _ _ => None;
     dirname := fun _ => "/tmp";
     extname := fun _ => ".mp3";
     basename := fun _ _ => "a";
     pathJoin := fun dir file => String.append dir (String "/" file) |}.

(** A run whose splitting step fails. *)
Definition brokenSplitRun : Run :=
  {| apiKey := true;
     splitResult := Throw "ffmpeg exited with code 1";
     service := fun _ => deadService;
     completionOrder := fun indices => indices;
     elapsedSeconds := 0;
     offsetFn := modelOffset |}.

End Scenarios.

(** * Properties *)

(** ** Strings *)

Module JsStringFacts.
Import StringSpec TimestampSpec SplitterSpec ChunkSpec MergeSpec PipelineSpec.
Import JsString.

Lemma isDigit_not_white c : isDigit c = true -> isWhiteSpace c = false.
Proof.
  destruct c as [[] [] [] [] [] [] [] []]; vm_compute; congruence.
Qed.

Lemma isDigit_not_colon c : isDigit c = true -> Ascii.eqb c ":" = false.
Proof.
  destruct c as [[] [] [] [] [] [] [] []]; vm_compute; congruence.
Qed.

Lemma allDigits_noneOf_white s : allDigits s = true -> noneOf isWhiteSpace s = true.
Proof.
  induction s as [|c s IH]; cbn; [done|].
  intros [Hc Hs]%andb_prop. rewrite (isDigit_not_white _ Hc). cbn. auto.
Qed.

Lemma allDigits_noneOf_colon s :
  allDigits s = true -> noneOf (fun c => Ascii.eqb c ":") s = true.
Proof.
  induction s as [|c s IH]; cbn; [done|].
  intros [Hc Hs]%andb_prop. rewrite (isDigit_not_colon _ Hc). cbn. auto.
Qed.

Lemma noneOf_append p s1 s2 :
  noneOf p (String.append s1 s2) = noneOf p s1 && noneOf p s2.
Proof.
  induction s1 as [|c s1 IH]; simpl; [done|]. rewrite IH. by rewrite andb_assoc.
Qed.

Lemma trimStart_clean s : noneOf isWhiteSpace s = true -> trimStart s = s.
Proof.
  destruct s as [|c s]; cbn; [done|].
  intros [Hc _]%andb_prop. apply negb_true_iff in Hc. by rewrite Hc.
Qed.

Lemma trimEnd_clean s : noneOf isWhiteSpace s = true -> trimEnd s = s.
Proof.
  induction s as [|c s IH]; cbn; [done|].
  intros [Hc Hs]%andb_prop. apply negb_true_iff in Hc.
  rewrite (IH Hs), Hc. by destruct s.
Qed.

Lemma trim_clean s : noneOf isWhiteSpace s = true -> trim s = s.
Proof.
  intros H. unfold trim. rewrite (trimStart_clean _ H). by apply trimEnd_clean.
Qed.

Lemma split_cons sep s : exists x xs, split sep s = x :: xs.
Proof.
  induction s as [|c s (x & xs & IH)]; cbn; [by eauto|].
  destruct (Ascii.eqb c sep); [by eauto|]. rewrite IH. eauto.
Qed.

Lemma split_none sep s :
  noneOf (fun c => Ascii.eqb c sep) s = true -> split sep s = [s].
Proof.
  induction s as [|c s IH]; cbn; [done|].
  intros [Hc Hs]%andb_prop. apply negb_true_iff in Hc.
  by rewrite Hc, (IH Hs).
Qed.

Lemma split_field sep s rest :
  noneOf (fun c => Ascii.eqb c sep) s = true ->
  split sep (String.append s (String sep rest)) = s :: split sep rest.
Proof.
  induction s as [|c s IH]; simpl.
  - intros _. by rewrite Ascii.eqb_refl.
  - intros [Hc Hs]%andb_prop. apply negb_true_iff in Hc.
    by rewrite Hc, (IH Hs).
Qed.

(** A string is white-space free as soon as its fields are. *)
Lemma split_clean sep s :
  isWhiteSpace sep = false ->
  forallb (noneOf isWhiteSpace) (split sep s) = true ->
  noneOf isWhiteSpace s = true.
Proof.
  intros Hsep. induction s as [|c s IH]; cbn; [done|].
  destruct (Ascii.eqb_spec c sep) as [->|Hne].
  - cbn. rewrite Hsep. cbn. exact IH.
  - destruct (split_cons sep s) as (x & xs & Hx). rewrite Hx in IH |- *.
    cbn in IH |- *. intros [[Hc Hxw]%andb_prop Hrest]%andb_prop.
    rewrite Hc. cbn. apply IH. by rewrite Hxw, Hrest.
Qed.

Lemma allDigits_parse s :
  allDigits s = true -> exists d, NilEmpty.uint_of_string s = Some d.
Proof.
  induction s as [|c s IH]; cbn; [by eauto|].
  intros [Hc Hs]%andb_prop. destruct (IH Hs) as [d ->].
  destruct c as [[] [] [] [] [] [] [] []]; cbn in Hc; try discriminate; cbn; eauto.
Qed.

Lemma allDigits_render d : allDigits (NilEmpty.string_of_uint d) = true.
Proof. induction d; cbn; auto. Qed.

Lemma to_uint_neq_nil n : N.to_uint n <> Decimal.Nil.
Proof.
  destruct n as [|p]; [done|]. apply DecimalPos.Unsigned.to_uint_nonnil.
Qed.

Lemma toString_nonneg n :
  0 <= n -> toString n = NilEmpty.string_of_uint (N.to_uint (Z.to_N n)).
Proof.
  intros Hn. destruct n as [|p|p]; [done| |lia]. cbn [toString Z.to_N].
  pose proof (to_uint_neq_nil (N.pos p)) as Hnil.
  unfold NilZero.string_of_uint. by destruct (N.to_uint (N.pos p)).
Qed.

Lemma toString_digits n : 0 <= n -> allDigits (toString n) = true.
Proof. intros Hn. rewrite (toString_nonneg _ Hn). apply allDigits_render. Qed.

Lemma toString_nonempty n : toString n <> EmptyString.
Proof.
  assert (forall m, NilZero.string_of_uint (N.to_uint m) <> EmptyString) as Hne.
  { intros m. pose proof (to_uint_neq_nil m) as Hnil.
    unfold NilZero.string_of_uint. destruct (N.to_uint m); cbn; congruence. }
  destruct n as [|p|p]; cbn [toString]; [done|apply Hne|done].
Qed.

Lemma allDigits_repeat k : allDigits (repeatChar k "0") = true.
Proof. induction k; cbn; auto. Qed.

Lemma allDigits_append s1 s2 :
  allDigits (String.append s1 s2) = allDigits s1 && allDigits s2.
Proof.
  induction s1 as [|c s1 IH]; simpl; [done|]. rewrite IH. by rewrite andb_assoc.
Qed.

Lemma padStart_digits k s : allDigits s = true -> allDigits (padStart k "0" s) = true.
Proof.
  intros H. unfold padStart. by rewrite allDigits_append, allDigits_repeat, H.
Qed.

Lemma length_append s1 s2 :
  String.length (String.append s1 s2) = (String.length s1 + String.length s2)%nat.
Proof. induction s1 as [|c s1 IH]; simpl; [done|]. by rewrite IH. Qed.

Lemma length_repeat k c : String.length (repeatChar k c) = k.
Proof. induction k; cbn; auto. Qed.

Lemma padStart_length k c s :
  String.length (padStart k c s) = Nat.max k (String.length s).
Proof. unfold padStart. rewrite length_append, length_repeat. lia. Qed.

Lemma parse_leading_zeros k s d :
  NilEmpty.uint_of_string s = Some d ->
  exists d', NilEmpty.uint_of_string (String.append (repeatChar k "0") s) = Some d'
             /\ N.of_uint d' = N.of_uint d.
Proof.
  intros Hs. induction k as [|k (d' & Hd' & Heq)]; simpl; [by eauto|].
  rewrite Hd'. simpl. exists (Decimal.D0 d'). split; [done|]. exact Heq.
Qed.

End JsStringFacts.

(** ** Timestamps *)

Module TimestampFacts.
Import StringSpec TimestampSpec SplitterSpec ChunkSpec MergeSpec PipelineSpec.
Import JsString JsStringFacts AudioChunks.

Lemma exact_safe z :
  - MAX_SAFE_INTEGER <= z <= MAX_SAFE_INTEGER -> exact z = Some z.
Proof.
  intros Hz. unfold exact, isSafeInteger.
  destruct (Z.leb_spec (- MAX_SAFE_INTEGER) z), (Z.leb_spec z MAX_SAFE_INTEGER);
    cbn; (done || lia).
Qed.

Lemma exact_Some z r : exact z = Some r -> r = z /\ - MAX_SAFE_INTEGER <= z <= MAX_SAFE_INTEGER.
Proof.
  unfold exact, isSafeInteger.
  destruct (Z.leb_spec (- MAX_SAFE_INTEGER) z), (Z.leb_spec z MAX_SAFE_INTEGER);
    cbn; intros [= <-]; lia.
Qed.

Lemma MAX_SAFE_INTEGER_pos : 0 < MAX_SAFE_INTEGER.
Proof. reflexivity. Qed.

(** A number read from text is a non-negative safe integer. *)
Lemma Number_range s n : Number s = Some n -> 0 <= n <= MAX_SAFE_INTEGER.
Proof.
  unfold Number. destruct (NilEmpty.uint_of_string (trim s)) as [d|]; [|done].
  cbn. intros [-> Hsafe]%exact_Some. lia.
Qed.

Lemma Number_toString n :
  0 <= n <= MAX_SAFE_INTEGER -> Number (toString n) = Some n.
Proof.
  intros Hn. unfold Number.
  rewrite (trim_clean _ (allDigits_noneOf_white _ (toString_digits n ltac:(lia)))).
  rewrite (toString_nonneg n ltac:(lia)), NilEmpty.usu. cbn.
  rewrite DecimalN.Unsigned.of_to, Z2N.id by lia. apply exact_safe. lia.
Qed.

(** Zero padding does not change the number read back. *)
Lemma Number_padStart k n :
  0 <= n <= MAX_SAFE_INTEGER -> Number (padStart k "0" (toString n)) = Some n.
Proof.
  intros Hn. pose proof (Number_toString n Hn) as Hnum. unfold Number in *.
  pose proof (toString_digits n ltac:(lia)) as Hdig.
  rewrite (trim_clean _ (allDigits_noneOf_white _ Hdig)) in Hnum.
  rewrite (trim_clean _ (allDigits_noneOf_white _ (padStart_digits k _ Hdig))).
  destruct (NilEmpty.uint_of_string (toString n)) as [d|] eqn:Hd; [|done].
  destruct (parse_leading_zeros (k - String.length (toString n)) _ _ Hd)
    as (d' & Hd' & Heq).
  unfold padStart. rewrite Hd'. cbn in *. by rewrite Heq.
Qed.

Lemma renderSeconds_fields T :
  renderSeconds T =
  colonJoin (twoDigits (T / 3600)) (twoDigits (Z.rem T 3600 / 60))
            (twoDigits (Z.rem T 60)).
Proof. reflexivity. Qed.

Lemma clock_fields T :
  0 <= T ->
  0 <= T / 3600 <= T /\
  0 <= Z.rem T 3600 / 60 < 60 /\
  0 <= Z.rem T 60 < 60 /\
  T / 3600 * 3600 + Z.rem T 3600 / 60 * 60 + Z.rem T 60 = T.
Proof.
  intros HT. rewrite !Z.rem_mod_nonneg by lia.
  Z.div_mod_to_equations. lia.
Qed.

Lemma twoDigits_digits n : 0 <= n -> allDigits (twoDigits n) = true.
Proof. intros Hn. apply padStart_digits, toString_digits, Hn. Qed.

Lemma twoDigits_nonempty n : twoDigits n <> EmptyString.
Proof.
  intros H. apply (f_equal String.length) in H.
  unfold twoDigits in H. rewrite padStart_length in H. cbn in H. lia.
Qed.

Lemma twoDigits_field n : 0 <= n -> isField (twoDigits n) = true.
Proof.
  intros Hn. unfold isField. rewrite (twoDigits_digits _ Hn). cbn.
  apply negb_true_iff, String.eqb_neq, twoDigits_nonempty.
Qed.

Lemma split_colonJoin h m s :
  allDigits h = true -> allDigits m = true -> allDigits s = true ->
  split ":" (colonJoin h m s) = [h; m; s].
Proof.
  intros Hh Hm Hs. unfold colonJoin.
  rewrite (split_field ":" h) by by apply allDigits_noneOf_colon.
  rewrite (split_field ":" m) by by apply allDigits_noneOf_colon.
  by rewrite split_none by by apply allDigits_noneOf_colon.
Qed.

Lemma colonJoin_clean h m s :
  allDigits h = true -> allDigits m = true -> allDigits s = true ->
  trim (colonJoin h m s) = colonJoin h m s.
Proof.
  intros Hh Hm Hs. apply trim_clean, (split_clean ":"); [done|].
  rewrite (split_colonJoin _ _ _ Hh Hm Hs). cbn.
  by rewrite !allDigits_noneOf_white.
Qed.

(** [addOffsetToTimestamp] adds the offset to the seconds the text denotes
    and renders the sum. *)
Lemma addOffset_seconds t off :
  addOffsetToTimestamp t off =
  (total ← timecodeSeconds t;
   offset ← exact off;
   sum ← exact (total + offset);
   Some (renderSeconds sum)).
Proof.
  unfold addOffsetToTimestamp, timecodeSeconds.
  destruct (component _ 0) as [h|]; [|done]. cbn.
  destruct (component _ 1) as [m|]; [|done]. cbn.
  destruct (component _ 2) as [s|]; [|done]. cbn.
  destruct (exact off) as [offset|]; cbn.
  - destruct (exact (h * 3600)) as [hours|]; [|done]. cbn.
    destruct (exact (m * 60)) as [minutes|]; [|done]. cbn.
    destruct (exact (hours + minutes)) as [hm|]; [|done]. cbn.
    by destruct (exact (hm + s)) as [hms|].
  - destruct (exact (h * 3600)) as [hours|]; [|done]. cbn.
    destruct (exact (m * 60)) as [minutes|]; [|done]. cbn.
    destruct (exact (hours + minutes)) as [hm|]; [|done]. cbn.
    by destruct (exact (hm + s)) as [hms|].
Qed.

(** The total of three numbers read as hours, minutes and seconds. *)
Lemma total_exact h m s :
  0 <= h -> 0 <= m -> 0 <= s -> h * 3600 + m * 60 + s <= MAX_SAFE_INTEGER ->
  (hours ← exact (h * 3600);
   minutes ← exact (m * 60);
   hm ← exact (hours + minutes);
   exact (hm + s)) = Some (h * 3600 + m * 60 + s).
Proof.
  intros Hh Hm Hs Hmax. pose proof MAX_SAFE_INTEGER_pos.
  rewrite (exact_safe (h * 3600)) by lia. cbn.
  rewrite (exact_safe (m * 60)) by lia. cbn.
  rewrite (exact_safe (h * 3600 + m * 60)) by lia. cbn.
  apply exact_safe. lia.
Qed.

Lemma timecodeSeconds_colonJoin sh sm ss h m s :
  allDigits sh = true -> allDigits sm = true -> allDigits ss = true ->
  Number sh = Some h -> Number sm = Some m -> Number ss = Some s ->
  h * 3600 + m * 60 + s <= MAX_SAFE_INTEGER ->
  timecodeSeconds (colonJoin sh sm ss) = Some (h * 3600 + m * 60 + s).
Proof.
  intros Hh Hm Hs Nh Nm Ns Hmax. unfold timecodeSeconds.
  rewrite (colonJoin_clean _ _ _ Hh Hm Hs), (split_colonJoin _ _ _ Hh Hm Hs).
  cbn [fmap list_fmap]. unfold component. cbn [lookup list_lookup].
  rewrite Nh, Nm, Ns. cbn [mbind option_bind].
  apply Number_range in Nh, Nm, Ns. apply total_exact; lia.
Qed.

Lemma timecodeSeconds_render T :
  0 <= T <= MAX_SAFE_INTEGER -> timecodeSeconds (renderSeconds T) = Some T.
Proof.
  intros HT. destruct (clock_fields T ltac:(lia)) as (HH & HM & HS & Hsum).
  pose proof MAX_SAFE_INTEGER_pos. assert (60 <= MAX_SAFE_INTEGER) by done.
  rewrite renderSeconds_fields.
  rewrite (timecodeSeconds_colonJoin _ _ _ (T / 3600) (Z.rem T 3600 / 60) (Z.rem T 60));
    try (apply twoDigits_digits; lia); try (apply Number_padStart; lia).
  - by rewrite Hsum.
  - lia.
Qed.

Lemma timecodeSeconds_range t T : timecodeSeconds t = Some T -> 0 <= T <= MAX_SAFE_INTEGER.
Proof.
  unfold timecodeSeconds, component.
  set (parts := Number <$> split ":" (trim t)).
  assert (forall i v, parts !! i = Some (Some v) -> 0 <= v) as Hpos.
  { intros i v Hi. subst parts. rewrite list_lookup_fmap in Hi.
    destruct (split ":" (trim t) !! i) as [x|]; [|done]. cbn in Hi.
    injection Hi as Hi. apply Number_range in Hi. lia. }
  assert (forall i v, match parts !! i with None => Some 0 | Some x => x end = Some v
                      -> 0 <= v) as Hcomp.
  { intros i v. destruct (parts !! i) as [[x|]|] eqn:Hi; try done.
    - intros [= <-]. by eapply Hpos.
    - by intros [= <-]. }
  destruct (match parts !! 0%nat with None => _ | Some x => x end) as [h|] eqn:Eh; [|done].
  destruct (match parts !! 1%nat with None => _ | Some x => x end) as [m|] eqn:Em; [|done].
  destruct (match parts !! 2%nat with None => _ | Some x => x end) as [s|] eqn:Es; [|done].
  cbn. apply Hcomp in Eh, Em, Es.
  destruct (exact (h * 3600)) as [hours|] eqn:E1; [|done]. cbn.
  destruct (exact (m * 60)) as [minutes|] eqn:E2; [|done]. cbn.
  destruct (exact (hours + minutes)) as [hm|] eqn:E3; [|done]. cbn.
  intros [-> ?]%exact_Some. apply exact_Some in E1 as [-> ?], E2 as [-> ?].
  apply exact_Some in E3 as [-> ?]. lia.
Qed.

Lemma isTimecode_render T : 0 <= T -> isTimecode (renderSeconds T) = true.
Proof.
  intros HT. destruct (clock_fields T HT) as (HH & HM & HS & _).
  unfold isTimecode. rewrite renderSeconds_fields.
  rewrite split_colonJoin by (apply twoDigits_digits; lia).
  by rewrite !twoDigits_field by lia.
Qed.

(** Offsetting, once the text is known to denote [T] seconds. *)
Lemma addOffset_total t T off :
  timecodeSeconds t = Some T -> 0 <= off -> T + off <= MAX_SAFE_INTEGER ->
  addOffsetToTimestamp t off = Some (renderSeconds (T + off)).
Proof.
  intros Hsec Hoff Hmax. apply timecodeSeconds_range in Hsec as HT.
  rewrite addOffset_seconds, Hsec. cbn.
  rewrite (exact_safe off) by lia. cbn. by rewrite exact_safe by lia.
Qed.

Lemma join_split sep s : String.concat (String sep EmptyString) (split sep s) = s.
Proof.
  induction s as [|c s IH]; [done|]. cbn [split].
  destruct (Ascii.eqb_spec c sep) as [->|Hne].
  - destruct (split_cons sep s) as (x & xs & Hx). rewrite Hx in IH |- *.
    cbn [String.concat]. cbn [String.concat] in IH. by rewrite IH.
  - destruct (split_cons sep s) as (x & xs & Hx). rewrite Hx in IH |- *.
    destruct xs as [|y ys]; cbn [String.concat] in IH |- *; by rewrite <- IH.
Qed.

Lemma isDigit_cases c :
  isDigit c = true ->
  c ∈ ["0"; "1"; "2"; "3"; "4"; "5"; "6"; "7"; "8"; "9"]%char.
Proof.
  destruct c as [[] [] [] [] [] [] [] []]; cbn; try discriminate; intros _;
    repeat first [apply list_elem_of_here | apply list_elem_of_further].
Qed.

(** A field of exactly two digits reads as a number below 100. *)
Lemma clockField_number s :
  isClockField s = true -> allDigits s = true /\ exists n, Number s = Some n /\ 0 <= n <= 99.
Proof.
  destruct s as [|a [|b [|]]]; try done. cbn [isClockField].
  intros [Ha Hb]%andb_prop. split; [cbn; by rewrite Ha, Hb|].
  apply isDigit_cases in Ha, Hb.
  repeat (apply elem_of_cons in Ha as [->|Ha]); [..|by inversion Ha];
    repeat (apply elem_of_cons in Hb as [->|Hb]); try (by inversion Hb);
    eexists; (split; [vm_compute; reflexivity|lia]).
Qed.

(** A strict [HH:MM:SS] timecode denotes a number of seconds, far below the
    safe-integer limit. *)
Lemma clockTimecode_seconds t :
  isClockTimecode t = true ->
  exists T, timecodeSeconds t = Some T /\ 0 <= T <= 99 * 3600 + 99 * 60 + 99.
Proof.
  unfold isClockTimecode. intros Ht.
  destruct (split ":" t) as [|sh [|sm [|ss [|]]]] eqn:Hsplit; try done.
  apply andb_prop in Ht as [[Fh Fm]%andb_prop Fs].
  destruct (clockField_number _ Fh) as (Dh & h & Nh & Hh).
  destruct (clockField_number _ Fm) as (Dm & m & Nm & Hm).
  destruct (clockField_number _ Fs) as (Ds & s & Ns & Hs).
  exists (h * 3600 + m * 60 + s). split; [|lia].
  assert (t = colonJoin sh sm ss) as ->.
  { rewrite <- (join_split ":" t), Hsplit. reflexivity. }
  apply timecodeSeconds_colonJoin; try done.
  assert (362439 <= MAX_SAFE_INTEGER) by done. lia.
Qed.

End TimestampFacts.

Module TimestampClaims.
Import StringSpec TimestampSpec SplitterSpec ChunkSpec MergeSpec PipelineSpec.
Import JsString JsStringFacts AudioChunks TimestampFacts.

Lemma twoDigits_small n : 0 <= n < 60 -> String.length (twoDigits n) = 2%nat.
Proof.
  intros Hn.
  assert (forallb (fun k => Nat.eqb (String.length (twoDigits (Z.of_nat k))) 2)
            (seq 0 60) = true) as Hall by (vm_compute; reflexivity).
  rewrite forallb_forall in Hall.
  specialize (Hall (Z.to_nat n)). rewrite Z2Nat.id in Hall by lia.
  apply Nat.eqb_eq, Hall, in_seq. lia.
Qed.

(** C5.  For a timecode that denotes [T] seconds (every valid [HH:MM:SS]
    timecode does, see [clockTimecode_seconds]) and non-negative integers [a]
    and [b], with [T + a + b] a safe integer: offsetting by [a] and then by
    [b] gives the same string as offsetting by [a + b].  The result is three
    colon-separated fields of decimal digits; the minute and second fields
    have exactly two digits, the hour field has at least two and holds the
    full quotient by 3600, with no wrap at 24. *)
Theorem offset_composes t T a b :
  timecodeSeconds t = Some T ->
  0 <= a -> 0 <= b -> T + (a + b) <= MAX_SAFE_INTEGER ->
  exists r1 r2,
    addOffsetToTimestamp t a = Some r1 /\
    addOffsetToTimestamp r1 b = Some r2 /\
    addOffsetToTimestamp t (a + b) = Some r2 /\
    let U := T + (a + b) in
    let hh := twoDigits (U / 3600) in
    let mm := twoDigits (U mod 3600 / 60) in
    let ss := twoDigits (U mod 60) in
    r2 = colonJoin hh mm ss /\
    allDigits hh = true /\ allDigits mm = true /\ allDigits ss = true /\
    (2 <= String.length hh)%nat /\
    String.length mm = 2%nat /\ String.length ss = 2%nat /\
    Number hh = Some (U / 3600) /\
    isTimecode r2 = true.
Proof.
  intros Hsec Ha Hb Hmax. pose proof (timecodeSeconds_range _ _ Hsec) as HT.
  exists (renderSeconds (T + a)), (renderSeconds (T + (a + b))).
  split; [apply addOffset_total; (done || lia)|].
  split.
  { rewrite (addOffset_total _ (T + a)); [by rewrite Z.add_assoc| |done|lia].
    apply timecodeSeconds_render. lia. }
  split; [apply addOffset_total; (done || lia)|].
  assert (0 <= T + (a + b)) as HU by lia.
  destruct (clock_fields _ HU) as (HH & HM & HS & _).
  rewrite Z.rem_mod_nonneg in HM, HS by lia.
  split.
  { rewrite renderSeconds_fields. by rewrite !Z.rem_mod_nonneg by lia. }
  repeat split.
  - apply twoDigits_digits; lia.
  - apply twoDigits_digits; lia.
  - apply twoDigits_digits; lia.
  - unfold twoDigits. rewrite padStart_length. lia.
  - by apply twoDigits_small.
  - by apply twoDigits_small.
  - apply Number_padStart. lia.
  - by apply isTimecode_render.
Qed.

Lemma offset_composes_witness :
  timecodeSeconds "23:59:59" = Some 86399 /\ 0 <= 1 /\ 0 <= 3600
  /\ 86399 + (1 + 3600) <= MAX_SAFE_INTEGER /\
  exists r1 r2,
    addOffsetToTimestamp "23:59:59" 1 = Some r1 /\
    addOffsetToTimestamp r1 3600 = Some r2 /\
    addOffsetToTimestamp "23:59:59" (1 + 3600) = Some r2 /\
    let U := 86399 + (1 + 3600) in
    let hh := twoDigits (U / 3600) in
    let mm := twoDigits (U mod 3600 / 60) in
    let ss := twoDigits (U mod 60) in
    r2 = colonJoin hh mm ss /\
    allDigits hh = true /\ allDigits mm = true /\ allDigits ss = true /\
    (2 <= String.length hh)%nat /\
    String.length mm = 2%nat /\ String.length ss = 2%nat /\
    Number hh = Some (U / 3600) /\
    isTimecode r2 = true.
Proof.
  split; [reflexivity|]. split; [lia|]. split; [lia|]. split; [vm_compute; discriminate|].
  apply (offset_composes "23:59:59" 86399 1 3600);
    [reflexivity | lia | lia | vm_compute; discriminate].
Defined.

(** Hours run past 23: one second after [23:59:59] is [24:00:00]. *)
Example offset_past_midnight :
  addOffsetToTimestamp "23:59:59" 1 = Some "24:00:00"
  /\ addOffsetToTimestamp "99:59:59" 1 = Some "100:00:00".
Proof. split; reflexivity. Qed.

(** C10.  A timestamp with fewer than three colon-separated components is
    read from the left as hours, then minutes: ["a"] is [a] hours, ["a:b"]
    is [a] hours and [b] minutes ([a * 3600 + b * 60] seconds).  With three
    components the total is [a * 3600 + b * 60 + c] whatever the sizes of
    [b] and [c]: nothing checks that minutes or seconds are below 60.  (The
    components are runs of digits, the offset is non-negative, and the total
    is a safe integer.) *)
Theorem short_timestamp_is_hours_first sa sb sc a b c off :
  allDigits sa = true -> allDigits sb = true -> allDigits sc = true ->
  Number sa = Some a -> Number sb = Some b -> Number sc = Some c ->
  0 <= off -> a * 3600 + b * 60 + c + off <= MAX_SAFE_INTEGER ->
  addOffsetToTimestamp sa off = Some (renderSeconds (a * 3600 + off))
  /\ addOffsetToTimestamp (String.append sa (String ":" sb)) off
     = Some (renderSeconds (a * 3600 + b * 60 + off))
  /\ addOffsetToTimestamp (colonJoin sa sb sc) off
     = Some (renderSeconds (a * 3600 + b * 60 + c + off)).
Proof.
  intros Ha Hb Hc Na Nb Nc Hoff Hmax.
  pose proof (Number_range _ _ Na) as Ra. pose proof (Number_range _ _ Nb) as Rb.
  pose proof (Number_range _ _ Nc) as Rc.
  pose proof (allDigits_noneOf_colon _ Ha) as Ca.
  pose proof (allDigits_noneOf_colon _ Hb) as Cb.
  pose proof (allDigits_noneOf_white _ Ha) as Wa.
  pose proof (allDigits_noneOf_white _ Hb) as Wb.
  split; [|split].
  - replace (a * 3600 + off) with (a * 3600 + 0 * 60 + 0 + off) by lia.
    apply addOffset_total; [|done|lia].
    unfold timecodeSeconds. rewrite (trim_clean _ Wa), (split_none _ _ Ca).
    cbn [fmap list_fmap]. unfold component. cbn [lookup list_lookup].
    rewrite Na. cbn [mbind option_bind]. apply total_exact; lia.
  - replace (a * 3600 + b * 60 + off) with (a * 3600 + b * 60 + 0 + off) by lia.
    apply addOffset_total; [|done|lia].
    unfold timecodeSeconds. rewrite trim_clean.
    + rewrite (split_field ":" sa sb Ca), (split_none _ _ Cb).
      cbn [fmap list_fmap]. unfold component. cbn [lookup list_lookup].
      rewrite Na, Nb. cbn [mbind option_bind]. apply total_exact; lia.
    + rewrite noneOf_append. cbn. by rewrite Wa, Wb.
  - apply addOffset_total; [|done|lia].
    apply timecodeSeconds_colonJoin; try done. lia.
Qed.

Lemma short_timestamp_is_hours_first_witness :
  allDigits "5" = true /\ allDigits "75" = true /\ allDigits "90" = true
  /\ Number "5" = Some 5 /\ Number "75" = Some 75 /\ Number "90" = Some 90
  /\ 0 <= 0 /\ 5 * 3600 + 75 * 60 + 90 + 0 <= MAX_SAFE_INTEGER
  /\ addOffsetToTimestamp "5" 0 = Some (renderSeconds (5 * 3600 + 0))
  /\ addOffsetToTimestamp (String.append "5" (String ":" "75")) 0
     = Some (renderSeconds (5 * 3600 + 75 * 60 + 0))
  /\ addOffsetToTimestamp (colonJoin "5" "75" "90") 0
     = Some (renderSeconds (5 * 3600 + 75 * 60 + 90 + 0)).
Proof.
  do 6 (split; [reflexivity|]). split; [lia|]. split; [vm_compute; discriminate|].
  apply (short_timestamp_is_hours_first "5" "75" "90" 5 75 90 0);
    first [reflexivity | lia | (vm_compute; discriminate)].
Defined.

(** ["5:7"] is five hours seven minutes, not five minutes seven seconds;
    75 minutes and 90 seconds are carried, not rejected. *)
Example short_timestamp_examples :
  addOffsetToTimestamp "5:7" 0 = Some "05:07:00"
  /\ addOffsetToTimestamp "5" 0 = Some "05:00:00"
  /\ addOffsetToTimestamp "00:75:90" 0 = Some "01:16:30".
Proof. repeat split; reflexivity. Qed.

End TimestampClaims.


(** ** Probing and splitting *)

Module SplitterFacts.
Import StringSpec TimestampSpec SplitterSpec ChunkSpec MergeSpec PipelineSpec.
Import JsString AudioChunks.

Lemma indicesFrom_S i n : indicesFrom i (S n) = i :: indicesFrom (i + 1) n.
Proof.
  unfold indicesFrom. cbn [seq fmap list_fmap]. f_equal; [lia|].
  rewrite <- seq_shift, <- list_fmap_compose. apply list_fmap_ext.
  intros _ k _. cbn. lia.
Qed.

Lemma splitLoop_done host path D n :
  (forall job, ffmpegRun host path job = None) ->
  forall i paths jobs,
    splitLoop host path D n i paths jobs =
    SplitDone (paths ++ (chunkPathAt host path <$> indicesFrom i n))
              (jobs ++ (plannedJob host path D <$> indicesFrom i n)).
Proof.
  intros Hrun. induction n as [|n IH]; intros i paths jobs.
  - cbn. by rewrite !app_nil_r.
  - cbn [splitLoop]. rewrite Hrun, IH, indicesFrom_S. cbn [fmap list_fmap].
    by rewrite <- !app_assoc.
Qed.

Lemma probed_installed host path r :
  getAudioDuration host path = Resolved (Some r) -> getFfmpeg host = true.
Proof. unfold getAudioDuration. by destruct (getFfmpeg host). Qed.

Local Open Scope Q_scope.

Lemma chunk_quotient (D : Q) : (D / chunkQ) * 600 == D.
Proof. unfold chunkQ, CHUNK_DURATION_SEC. field. Qed.

Lemma inject_offset (i : Z) : inject_Z (i * CHUNK_DURATION_SEC) == inject_Z i * 600.
Proof. unfold CHUNK_DURATION_SEC. by rewrite inject_Z_mult. Qed.

(** With more than one chunk's worth of audio there are at least two chunks;
    all but the last are full. *)
Lemma ceiling_bounds (D : Q) :
  chunkQ < D ->
  (2 <= Qceiling (D / chunkQ))%Z
  /\ inject_Z (Qceiling (D / chunkQ) - 1) * 600 < D
  /\ D <= inject_Z (Qceiling (D / chunkQ)) * 600.
Proof.
  intros HD. pose proof (Qle_ceiling (D / chunkQ)) as Hle.
  pose proof (Qceiling_lt (D / chunkQ)) as Hlt.
  pose proof (chunk_quotient D) as Hq. change chunkQ with 600 in HD.
  set (x := D / chunkQ) in *. clearbody x. repeat split; [|lra|lra].
  assert (inject_Z 1 < inject_Z (Qceiling x)) as H1 by (change (inject_Z 1) with 1; lra).
  rewrite <- Zlt_Qlt in H1. lia.
Qed.

Lemma full_chunk (D : Q) (i n : Z) :
  (i + 1 <= n - 1)%Z -> inject_Z (n - 1) * 600 < D ->
  Qmin chunkQ (D - inject_Z (i * CHUNK_DURATION_SEC)) == 600.
Proof.
  intros Hi Hn. change chunkQ with 600. apply Q.min_l.
  rewrite inject_offset. rewrite Zle_Qle, inject_Z_plus in Hi.
  change (inject_Z 1) with 1 in Hi. lra.
Qed.

Lemma last_chunk (D : Q) (n : Z) :
  D <= inject_Z n * 600 ->
  Qmin chunkQ (D - inject_Z ((n - 1) * CHUNK_DURATION_SEC)) == D - inject_Z (n - 1) * 600.
Proof.
  intros Hn. change chunkQ with 600. rewrite inject_offset.
  apply Q.min_r. unfold Z.sub. rewrite inject_Z_plus, inject_Z_opp.
  change (inject_Z 1) with 1. lra.
Qed.

Lemma sumQ_app l1 l2 : sumQ (l1 ++ l2) == sumQ l1 + sumQ l2.
Proof.
  induction l1 as [|x l1 IH].
  - change (sumQ l2 == 0 + sumQ l2). ring.
  - change (x + sumQ (l1 ++ l2) == x + sumQ l1 + sumQ l2). rewrite IH. ring.
Qed.

(** The first [k] chunks are full as long as [k] stays below the chunk count. *)
Lemma sum_full_chunks host path (D : Q) (n : Z) (k : nat) :
  (Z.of_nat k <= n - 1)%Z -> inject_Z (n - 1) * 600 < D ->
  sumQ (durationSec <$> (plannedJob host path D <$> indicesFrom 0 k))
  == inject_Z (Z.of_nat k) * 600.
Proof.
  intros Hk Hn. induction k as [|k IH].
  - vm_compute. reflexivity.
  - unfold indicesFrom in *. rewrite seq_S, !fmap_app, sumQ_app.
    rewrite IH by lia. cbn [fmap list_fmap sumQ foldr plannedJob durationSec].
    rewrite (full_chunk D _ n) by (lia || done).
    rewrite Nat2Z.inj_succ. unfold Z.succ. rewrite inject_Z_plus.
    change (inject_Z 1) with 1. lra.
Qed.

Lemma floor_or_multiple (D : Q) :
  chunkQ < D ->
  let n := Qceiling (D / chunkQ) in
  let f := Qfloor (D / chunkQ) in
  (inject_Z f * chunkQ == D /\ f = n) \/ (~ inject_Z f * chunkQ == D /\ f = (n - 1)%Z).
Proof.
  intros HD n f. pose proof (Qle_ceiling (D / chunkQ)) as Hle.
  pose proof (Qceiling_lt (D / chunkQ)) as Hlt.
  pose proof (Qfloor_le (D / chunkQ)) as Hfl.
  pose proof (Qlt_floor (D / chunkQ)) as Hfu.
  pose proof (chunk_quotient D) as Hq.
  subst n f. change chunkQ with 600 in *.
  set (x := D / 600) in *. clearbody x.
  set (n := Qceiling x) in *. set (f := Qfloor x) in *.
  destruct (Qeq_dec (inject_Z f * 600) D) as [Heq|Hne].
  - left. split; [done|].
    assert (inject_Z f == x) as Hx by lra.
    assert (inject_Z (n - 1) < inject_Z f) as H1 by lra.
    assert (inject_Z f <= inject_Z n) as H2 by lra.
    rewrite <- Zlt_Qlt in H1. rewrite <- Zle_Qle in H2. lia.
  - right. split; [done|].
    assert (inject_Z f < x) as Hx.
    { apply Qle_lteq in Hfl as [Hlt'|Heq']; [done|]. exfalso. apply Hne. lra. }
    assert (inject_Z (n - 1) < inject_Z (f + 1)) as H1 by lra.
    assert (inject_Z f < inject_Z n) as H2 by lra.
    rewrite <- Zlt_Qlt in H1, H2. lia.
Qed.

End SplitterFacts.

Module SplitterClaims.
Import StringSpec TimestampSpec SplitterSpec ChunkSpec MergeSpec PipelineSpec.
Import JsString AudioChunks SplitterFacts.

(** C9.  Probing never rejects.  It resolves to [null] when the [ffmpeg]
    module cannot be loaded and when [ffprobe] reports an error; it also
    resolves to [null] when the probed duration is missing, not a number, or
    not above zero.  A non-null result is the probed number and is strictly
    positive. *)
Theorem probe_fails_soft host path :
  exists r,
    getAudioDuration host path = Resolved r /\
    (ffmpegInstalled host = false -> r = None) /\
    (forall message, ffprobe host path = ProbeError message -> r = None) /\
    (forall metadata, ffprobe host path = ProbeData metadata ->
       match probedValue metadata with
       | VNumber n => isPositive n = false -> r = None
       | _ => r = None
       end) /\
    (forall n, r = Some n ->
       match n with
       | Finite q => (0 < q)%Q
       | PosInfinity => True
       | NegInfinity | NaN => False
       end
       /\ ffmpegInstalled host = true
       /\ exists metadata,
            ffprobe host path = ProbeData metadata
            /\ probedValue metadata = VNumber n).
Proof.
  unfold getAudioDuration, getFfmpeg.
  destruct (ffmpegInstalled host) eqn:Hinst; cbn [negb].
  2:{ exists None. split; [done|]. split; [done|]. split; [done|]. split; [|done].
      intros metadata _. by destruct (probedValue metadata). }
  destruct (ffprobe host path) as [message|metadata] eqn:Hprobe.
  { exists None. split; [done|]. split; [done|]. split; [done|]. by split. }
  destruct (probedValue metadata) as [| |n| | |] eqn:Hval;
    try (exists None; split; [done|]; split; [done|]; split; [done|];
         split; [|done]; intros md [= <-]; by rewrite Hval).
  destruct (isPositive n) eqn:Hpos.
  - exists (Some n). split; [done|]. split; [done|]. split; [done|]. split.
    + intros md [= <-]. rewrite Hval. congruence.
    + intros n' [= <-]. split; [|split; [done|by exists metadata]].
      destruct n as [q| | |]; cbn in Hpos; try done.
      apply negb_true_iff in Hpos.
      destruct (Qlt_le_dec 0 q) as [Hlt|Hle]; [done|].
      apply Qle_bool_iff in Hle. congruence.
  - exists None. split; [done|]. split; [done|]. split; [done|]. split; [|done].
    intros md [= <-]. by rewrite Hval.
Qed.

Lemma indicesFrom_lookup (n i : nat) :
  (i < n)%nat -> indicesFrom 0 n !! i = Some (Z.of_nat i).
Proof.
  intros Hi. unfold indicesFrom. rewrite list_lookup_fmap, lookup_seq_lt by done.
  cbn. f_equal.
Qed.

Lemma length_indicesFrom i n : length (indicesFrom i n) = n.
Proof. unfold indicesFrom. by rewrite length_fmap, length_seq. Qed.

(** C2.  When the duration is unknown, or known and at most one chunk long,
    the splitter returns the source itself as the only chunk and encodes
    nothing.  For a duration [D] above the chunk size [C], and [ffmpeg] runs
    that all end well, it makes [ceil(D / C)] chunks; chunk [i] starts at
    [i * C] and lasts [min(C, D - i * C)]; the durations add up to [D]; the
    last one lasts [C] when [D] is a multiple of [C] and
    [D - floor(D / C) * C] otherwise. *)
Theorem chunk_coverage host path :
  (getAudioDuration host path = Resolved None ->
   splitAudioIntoChunks host path = SplitDone [path] [])
  /\ forall D,
      getAudioDuration host path = Resolved (Some (Finite D)) ->
      ((D <= chunkQ)%Q -> splitAudioIntoChunks host path = SplitDone [path] [])
      /\ ((chunkQ < D)%Q ->
          (forall job, ffmpegRun host path job = None) ->
          exists chunkPaths jobs,
            splitAudioIntoChunks host path = SplitDone chunkPaths jobs /\
            let n := Z.to_nat (Qceiling (D / chunkQ)) in
            length chunkPaths = n /\ length jobs = n /\
            (forall i, (i < n)%nat ->
               exists job,
                 jobs !! i = Some job /\
                 startSec job = Z.of_nat i * CHUNK_DURATION_SEC /\
                 durationSec job
                 = Qmin chunkQ (D - inject_Z (Z.of_nat i * CHUNK_DURATION_SEC)) /\
                 chunkPaths !! i = Some (output job)) /\
            (sumQ (durationSec <$> jobs) == D)%Q /\
            exists lastJob,
              last jobs = Some lastJob /\
              (durationSec lastJob ==
               if Qeq_bool (inject_Z (Qfloor (D / chunkQ)) * chunkQ) D then chunkQ
               else D - inject_Z (Qfloor (D / chunkQ)) * chunkQ)%Q).
Proof.
  split.
  { intros Hnone. unfold splitAudioIntoChunks. rewrite Hnone.
    by destruct (getFfmpeg host). }
  intros D HD. pose proof (probed_installed _ _ _ HD) as Hinst.
  unfold splitAudioIntoChunks. rewrite Hinst, HD. cbn [negb]. split.
  { intros Hle. apply Qle_bool_iff in Hle. by rewrite Hle. }
  intros Hlt Hrun.
  assert (Qle_bool D chunkQ = false) as ->.
  { apply not_true_is_false. intros Hle%Qle_bool_iff.
    by apply (Qlt_not_le _ _ Hlt). }
  destruct (ceiling_bounds D Hlt) as (Hn2 & Hlow & Hup).
  set (c := Qceiling (D / chunkQ)) in *.
  rewrite (splitLoop_done _ _ _ _ Hrun). cbn [app].
  eexists _, _. split; [done|]. cbn zeta.
  split; [by rewrite length_fmap, length_indicesFrom|].
  split; [by rewrite length_fmap, length_indicesFrom|].
  split; [|split].
  - intros i Hi. exists (plannedJob host path D (Z.of_nat i)).
    rewrite !list_lookup_fmap, indicesFrom_lookup by done. done.
  - assert (Z.to_nat c = S (Z.to_nat (c - 1))) as -> by lia.
    unfold indicesFrom. rewrite seq_S, !fmap_app, sumQ_app.
    fold (indicesFrom 0 (Z.to_nat (c - 1))).
    rewrite (sum_full_chunks host path D c) by (lia || done).
    cbn [fmap list_fmap sumQ foldr plannedJob durationSec].
    replace (0 + Z.of_nat (0 + Z.to_nat (c - 1))) with (c - 1) by lia.
    rewrite (last_chunk D c Hup). rewrite Z2Nat.id by lia. ring.
  - exists (plannedJob host path D (c - 1)). split.
    + assert (Z.to_nat c = S (Z.to_nat (c - 1))) as -> by lia.
      unfold indicesFrom. rewrite seq_S, !fmap_app.
      change (plannedJob host path D <$>
                ((fun k : nat => 0 + Z.of_nat k) <$> [(0 + Z.to_nat (c - 1))%nat]))
        with [plannedJob host path D (0 + Z.of_nat (0 + Z.to_nat (c - 1)))].
      rewrite last_snoc. do 2 f_equal. lia.
    + cbn [plannedJob durationSec]. rewrite (last_chunk D c Hup).
      destruct (floor_or_multiple D Hlt) as [[Heq Hf]|[Hne Hf]]; fold c in Hf.
      * apply Qeq_bool_iff in Heq as Hb. rewrite Hb.
        rewrite Hf in Heq. change chunkQ with 600%Q in *.
        unfold Z.sub. rewrite inject_Z_plus, inject_Z_opp.
        change (inject_Z 1) with 1%Q. lra.
      * assert (Qeq_bool (inject_Z (Qfloor (D / chunkQ)) * chunkQ) D = false) as ->.
        { apply not_true_is_false. by intros Hb%Qeq_bool_iff. }
        rewrite Hf. change chunkQ with 600%Q. reflexivity.
Qed.

(** The 25-minute scenario: three chunks of 600, 600 and 300 seconds. *)
Example split_1500_seconds (host : Host) (jobs := plannedJob host "a.mp3" 1500) :
  (fun job => (startSec job, Qred (durationSec job)))
    <$> (jobs <$> indicesFrom 0 (Z.to_nat (Qceiling (1500 / chunkQ))))
  = [(0, 600%Q); (600, 600%Q); (1200, 300%Q)].
Proof. reflexivity. Qed.

End SplitterClaims.

(** ** Parsing and the per-chunk retry loop *)

Module ChunkFacts.
Import StringSpec TimestampSpec SplitterSpec ChunkSpec MergeSpec PipelineSpec.
Import Effect Transcript Directus JsString AudioChunks Gemini.

Ltac in_list :=
  repeat first [ apply list_elem_of_here
               | apply elem_of_app; right
               | apply list_elem_of_further ].

Ltac run_step :=
  unfold mbind, M_bind, bind, mret, M_ret, ret, tryCatch, await, throw, emit,
    setGeminiFileName, deleteRemote, unlinkChunk, modify, Effect.get in *.

Lemma parseGeminiJson_outcome {S} lib raw (s : S) :
  parseGeminiJson lib raw s = (Normal (parseOutcome lib raw), s).
Proof.
  unfold parseGeminiJson, parseOutcome.
  destruct (String.eqb (trim raw) ""); [done|]. run_step.
  destruct (JSON_parse lib raw); [done|].
  destruct (jsonrepair lib raw) as [repaired|]; [|done].
  by destruct (JSON_parse lib repaired).
Qed.

Lemma attemptBody_accepts svc path attempt st :
  match fst (attemptBody svc path attempt st) with
  | Normal r => hasSegments (Some r) = true
  | Throw _ => True
  end.
Proof.
  unfold attemptBody. run_step.
  destruct (upload svc attempt) as [u|]; [|done].
  destruct (getFile svc attempt 0) as [first|]; [|done].
  destruct (waitLoop _ _ _ _ _ _ _) as [[currentFile|] st1]; [|done].
  destruct (negb (isActive currentFile)); [done|].
  destruct (generateContent svc attempt) as [txt|]; [|done].
  rewrite parseGeminiJson_outcome.
  destruct (parseOutcome _ _) as [res|]; [|done].
  by destruct (hasSegments (Some res)) eqn:Hseg.
Qed.

Lemma attemptBody_generated svc path attempt st u txt :
  upload svc attempt = Normal u ->
  getFile svc attempt 0 = Normal ACTIVE ->
  generateContent svc attempt = Normal txt ->
  fst (attemptBody svc path attempt st)
  = accept (parseOutcome (jsonLib svc) (default "" (trim <$> txt))).
Proof.
  intros Hu Hg Ht. unfold attemptBody. run_step. rewrite Hu, Hg. cbn.
  rewrite Ht, parseGeminiJson_outcome. unfold accept.
  destruct (parseOutcome _ _) as [res|]; [|done].
  by destruct (hasSegments (Some res)).
Qed.

Lemma attemptLoop_accepts svc path retries remaining :
  forall attempt st r,
    fst (attemptLoop svc path retries remaining attempt st) = Normal (Some r) ->
    hasSegments (Some r) = true.
Proof.
  induction remaining as [|remaining IH]; intros attempt st r; [done|].
  cbn [attemptLoop]. run_step.
  pose proof (attemptBody_accepts svc path attempt st) as Hacc.
  destruct (attemptBody svc path attempt st) as [[res|err] st1]; cbn in Hacc.
  - cbn. by intros [= <-].
  - unfold attemptCatch. run_step.
    destruct (truthyName _); destruct (Nat.eqb attempt retries); cbn;
      try done; apply IH.
Qed.

Lemma waitLoop_trace svc attempt fileName budget :
  forall k currentFile st,
    exists evs,
      trace (snd (waitLoop svc attempt fileName budget k currentFile st))
      = trace st ++ evs
      /\ geminiFileName (snd (waitLoop svc attempt fileName budget k currentFile st))
         = geminiFileName st
      /\ Forall (fun e => isUpload e = false) evs.
Proof.
  induction budget as [|budget IH]; intros k currentFile st.
  - exists []. cbn. by rewrite app_nil_r.
  - cbn [waitLoop]. destruct (isProcessing currentFile).
    2:{ exists []. cbn. by rewrite app_nil_r. }
    run_step. cbn.
    destruct (getFile svc attempt k) as [next|err].
    + match goal with |- context [waitLoop _ _ _ _ _ _ ?s] =>
        destruct (IH (S k) next s) as (evs & Htr & Hname & Hall) end.
      exists (EvSleep 2000 :: EvGetFile fileName :: evs).
      rewrite Htr, Hname. cbn. rewrite <- !app_assoc. cbn.
      split; [done|]. split; [done|]. by repeat constructor.
    + exists [EvSleep 2000; EvGetFile fileName]. cbn. rewrite <- !app_assoc. cbn.
      split; [done|]. split; [done|]. by repeat constructor.
Qed.

Lemma last_nested {A} (a b c : list A) (x : A) :
  last (a ++ (b ++ (c ++ [x]))) = Some x.
Proof. by rewrite !app_assoc, last_snoc. Qed.

#[local] Arguments waitLoop : simpl never.
#[local] Arguments hasSegments : simpl never.

(** What the [try] block leaves behind. *)
Lemma attemptBody_trace svc path attempt st :
  exists rest,
    trace (snd (attemptBody svc path attempt st)) = trace st ++ EvUpload path :: rest
    /\ Forall (fun e => isUpload e = false) rest
    /\ match fst (attemptBody svc path attempt st) with
       | Normal r =>
           exists u, upload svc attempt = Normal u
                     /\ EvDeleteRemote (name u) ∈ rest
                     /\ last (EvUpload path :: rest) = Some (EvUnlinkChunk path)
       | Throw _ =>
           match upload svc attempt with
           | Normal u =>
               geminiFileName (snd (attemptBody svc path attempt st)) = Some (name u)
               \/ EvDeleteRemote (name u) ∈ rest
                  /\ geminiFileName (snd (attemptBody svc path attempt st)) = None
           | Throw _ => rest = []
           end
       end.
Proof.
  unfold attemptBody. run_step. cbn.
  destruct (upload svc attempt) as [u|err]; cbn.
  2:{ exists []. by repeat split. }
  destruct (getFile svc attempt 0) as [first|err]; cbn.
  2:{ exists [EvGetFile (name u)]. rewrite <- !app_assoc. cbn.
      split; [done|]. split; [by repeat constructor|]. by left. }
  match goal with |- context [waitLoop _ _ _ _ _ _ ?s] =>
    destruct (waitLoop_trace svc attempt (name u) 60 1 first s)
      as (evs & Htr & Hname & Hall);
    destruct (waitLoop svc attempt (name u) 60 1 first s) as [[currentFile|err] st1]
  end; cbn in Htr, Hname; rewrite <- !app_assoc in Htr; cbn in Htr.
  2:{ exists (EvGetFile (name u) :: evs). cbn. split; [done|].
      split; [by constructor|]. by left. }
  destruct (negb (isActive currentFile)); cbn.
  { exists (EvGetFile (name u) :: evs). split; [done|].
    split; [by constructor|]. by left. }
  destruct (generateContent svc attempt) as [txt|err]; cbn.
  2:{ exists (EvGetFile (name u) :: evs ++ [EvGenerate (uri u)]).
      rewrite Htr, <- !app_assoc. cbn. split; [done|].
      split; [constructor; [done|]; apply Forall_app; by repeat constructor|].
      by left. }
  rewrite parseGeminiJson_outcome. cbn.
  assert (Forall (fun e => isUpload e = false)
            (EvGetFile (name u) :: evs ++ [EvGenerate (uri u); EvDeleteRemote (name u)]))
    as Hall2.
  { constructor; [done|]. apply Forall_app. by repeat constructor. }
  assert (EvDeleteRemote (name u)
            ∈ EvGetFile (name u) :: evs ++ [EvGenerate (uri u); EvDeleteRemote (name u)])
    as Hin by in_list.
  destruct (parseOutcome _ _) as [res|]; cbn.
  2:{ eexists. rewrite Htr, <- !app_assoc. cbn. split; [done|].
      split; [exact Hall2|]. by right. }
  destruct (hasSegments (Some res)); cbn.
  - exists (EvGetFile (name u) :: evs
            ++ [EvGenerate (uri u); EvDeleteRemote (name u); EvUnlinkChunk path]).
    rewrite Htr, <- !app_assoc. cbn. split; [done|]. split.
    { constructor; [done|]. apply Forall_app. split; [done|]. by repeat constructor. }
    exists u. split; [done|]. split; [in_list|].
    exact (last_nested [EvGetFile (name u)] evs
             [EvGenerate (uri u); EvDeleteRemote (name u)] (EvUnlinkChunk path)).
  - eexists. rewrite Htr, <- !app_assoc. cbn. split; [done|].
    split; [exact Hall2|]. by right.
Qed.

Lemma failed_iteration svc path retries attempt st err st1 :
  attemptBody svc path attempt st = (Throw err, st1) ->
  exists seg,
    trace (snd (attemptCatch path retries attempt err st1)) = trace st ++ seg
    /\ FailedAttempt svc path retries attempt seg
    /\ fst (attemptCatch path retries attempt err st1)
       = Normal (if Nat.eqb attempt retries then Some None else None).
Proof.
  intros Hbody. destruct (attemptBody_trace svc path attempt st) as (rest & Htr & Hall & Hcase).
  rewrite Hbody in Htr, Hcase. cbn in Htr, Hcase.
  unfold attemptCatch, FailedAttempt. run_step. cbn.
  destruct (truthyName (geminiFileName st1)) as [stale|] eqn:Hstale;
    destruct (Nat.eqb attempt retries); cbn; rewrite Htr, <- !app_assoc; cbn.
  1,2: eexists (EvUpload path :: rest ++ [EvLogFailure (attempt + 1) err;
                                           EvDeleteRemote stale; _]).
  3,4: eexists (EvUpload path :: rest ++ [EvLogFailure (attempt + 1) err; _]).
  all: split; [reflexivity|]; split; [|done].
  all: eexists; split; [reflexivity|]; split;
    [apply Forall_app; split; [done|by repeat constructor]|]; split.
  all: try (intros u Hu Hne; rewrite Hu in Hcase; destruct Hcase as [Hcur|[Hin _]];
            [|apply elem_of_app; by left];
            rewrite Hcur in Hstale; cbn in Hstale;
            destruct (String.eqb_spec (name u) "") as [|_]; [done|]).
  all: try (injection Hstale as <-; in_list).
  all: try discriminate.
  1,2: exact (last_nested [EvUpload path] rest
                [EvLogFailure (attempt + 1) err; EvDeleteRemote stale] _).
  all: exact (last_nested [EvUpload path] rest [EvLogFailure (attempt + 1) err] _).
Qed.

Lemma accepted_iteration svc path attempt st res st1 :
  attemptBody svc path attempt st = (Normal res, st1) ->
  exists seg,
    trace st1 = trace st ++ seg
    /\ AcceptedAttempt svc path attempt seg
    /\ hasSegments (Some res) = true.
Proof.
  intros Hbody. destruct (attemptBody_trace svc path attempt st) as (rest & Htr & Hall & Hcase).
  pose proof (attemptBody_accepts svc path attempt st) as Hacc.
  rewrite Hbody in Htr, Hcase, Hacc. cbn in Htr, Hcase, Hacc.
  destruct Hcase as (u & Hu & Hin & Hlast).
  exists (EvUpload path :: rest). split; [done|]. split; [|done].
  by exists rest, u.
Qed.

(** The run of [attemptLoop], cut into attempts. *)
Lemma attemptLoop_segments svc path retries remaining :
  forall attempt st,
    (attempt + remaining = S retries)%nat ->
    exists segs,
      trace (snd (attemptLoop svc path retries remaining attempt st))
      = trace st ++ concat segs
      /\ match fst (attemptLoop svc path retries remaining attempt st) with
         | Normal None =>
             length segs = remaining
             /\ forall i seg, segs !! i = Some seg ->
                  FailedAttempt svc path retries (attempt + i) seg
         | Normal (Some r) =>
             exists j,
               length segs = S j /\ (j < remaining)%nat
               /\ hasSegments (Some r) = true
               /\ (forall i seg, (i < j)%nat -> segs !! i = Some seg ->
                     FailedAttempt svc path retries (attempt + i) seg)
               /\ exists seg, segs !! j = Some seg
                     /\ AcceptedAttempt svc path (attempt + j) seg
         | Throw _ => False
         end.
Proof.
  induction remaining as [|remaining IH]; intros attempt st Hsum.
  { exists []. cbn. rewrite app_nil_r. split; [done|]. split; [done|]. by intros i seg. }
  cbn [attemptLoop]. run_step.
  destruct (attemptBody svc path attempt st) as [[res|err] st1] eqn:Hbody.
  - destruct (accepted_iteration _ _ _ _ _ _ Hbody) as (seg & Htr & Hacc & Hseg).
    exists [seg]. cbn. rewrite app_nil_r. split; [done|].
    exists 0%nat. split; [done|]. split; [lia|]. split; [done|].
    split; [intros; lia|]. exists seg. split; [done|]. by rewrite Nat.add_0_r.
  - destruct (failed_iteration svc path retries attempt st err st1 Hbody)
      as (seg & Htr & Hfail & Hstep).
    destruct (attemptCatch path retries attempt err st1) as [step st2].
    cbn in Htr, Hstep. subst step.
    destruct (Nat.eqb_spec attempt retries) as [->|Hne].
    + (* the last attempt: the function returns null *)
      assert (remaining = 0%nat) as -> by lia.
      exists [seg]. cbn. rewrite app_nil_r. split; [done|]. split; [done|].
      intros [|i] seg'; [|done]. intros [= <-]. by rewrite Nat.add_0_r.
    + destruct (IH (S attempt) st2 ltac:(lia)) as (segs & Htr' & Hrest).
      exists (seg :: segs). cbn [concat]. rewrite Htr', Htr, <- app_assoc.
      split; [done|].
      destruct (attemptLoop svc path retries remaining (S attempt) st2)
        as [[[r|]|] st3]; cbn in Hrest |- *; [| |done].
      * destruct Hrest as (j & Hlen & Hj & Hseg & Hfails & seg' & Hlook & Hacc).
        exists (S j). cbn. split; [by rewrite Hlen|]. split; [lia|]. split; [done|].
        split.
        -- intros [|i] sg Hi; cbn.
           ++ intros [= <-]. by rewrite Nat.add_0_r.
           ++ intros Hsg. replace (attempt + S i)%nat with (S attempt + i)%nat by lia.
              apply Hfails; [lia|done].
        -- exists seg'. split; [done|].
           by replace (attempt + S j)%nat with (S attempt + j)%nat by lia.
      * destruct Hrest as (Hlen & Hfails). split; [cbn; by rewrite Hlen|].
        intros [|i] sg; cbn.
        -- intros [= <-]. by rewrite Nat.add_0_r.
        -- intros Hsg. replace (attempt + S i)%nat with (S attempt + i)%nat by lia.
           by apply Hfails.
Qed.

End ChunkFacts.

Module ChunkClaims.
Import StringSpec TimestampSpec SplitterSpec ChunkSpec MergeSpec PipelineSpec.
Import Effect Transcript Directus JsString AudioChunks Gemini ChunkFacts.

Lemma attemptLoop_exhausts svc path retries remaining :
  (forall k st, (k <= retries)%nat -> exists e, fst (attemptBody svc path k st) = Throw e) ->
  forall attempt st,
    (attempt + remaining = S retries)%nat ->
    fst (attemptLoop svc path retries remaining attempt st) = Normal None.
Proof.
  intros Hfail. induction remaining as [|remaining IH]; intros attempt st Hsum; [done|].
  cbn [attemptLoop]. unfold mbind, M_bind, bind, tryCatch.
  destruct (Hfail attempt st ltac:(lia)) as [e He].
  destruct (attemptBody svc path attempt st) as [[res|err] st1] eqn:Hbody;
    cbn in He; [done|].
  destruct (failed_iteration svc path retries attempt st err st1 Hbody)
    as (seg & _ & _ & Hstep).
  destruct (attemptCatch path retries attempt err st1) as [step st2].
  cbn in Hstep. subst step.
  destruct (Nat.eqb_spec attempt retries) as [->|Hne]; [done|].
  apply IH. lia.
Qed.

(** C4.  A [runSingleChunk] call never throws, and its calls split into one
    segment per attempt.  Every failed attempt starts with a fresh upload,
    deletes the remote file whose handle that upload returned, and ends with a
    sleep of [2^attempt * 2000] ms when an attempt is left; the attempt that
    exhausts [retries] ends with the deletion of the chunk's local file, and
    the call then returns [null], after [retries + 1] attempts (3 by default).
    If every attempt fails the call returns [null]. *)
Theorem retry_policy svc path retries st0 :
  (exists segs,
     trace (snd (runSingleChunk svc path retries st0)) = trace st0 ++ concat segs
     /\ match fst (runSingleChunk svc path retries st0) with
        | Normal None =>
            length segs = S retries
            /\ forall k seg, segs !! k = Some seg ->
                 FailedAttempt svc path retries k seg
        | Normal (Some r) =>
            exists j,
              (j <= retries)%nat /\ length segs = S j
              /\ (forall k seg, (k < j)%nat -> segs !! k = Some seg ->
                    FailedAttempt svc path retries k seg)
              /\ exists seg, segs !! j = Some seg /\ AcceptedAttempt svc path j seg
        | Throw _ => False
        end)
  /\ ((forall k st, (k <= retries)%nat ->
         exists e, fst (attemptBody svc path k st) = Throw e) ->
      fst (runSingleChunk svc path retries st0) = Normal None)
  /\ S DEFAULT_RETRIES = 3%nat.
Proof.
  unfold runSingleChunk. unfold mbind, M_bind, bind, setGeminiFileName, modify.
  set (st1 := {| geminiFileName := None; trace := trace st0 |}).
  split; [|split; [|done]].
  - destruct (attemptLoop_segments svc path retries (S retries) 0 st1 eq_refl)
      as (segs & Htr & Hcase).
    exists segs. split; [done|].
    destruct (attemptLoop svc path retries (S retries) 0 st1) as [[[r|]|] st2];
      cbn in Hcase |- *; [| |done].
    + destruct Hcase as (j & Hlen & Hj & _ & Hfails & Hacc).
      exists j. split; [lia|]. split; [done|]. split; [exact Hfails|exact Hacc].
    + exact Hcase.
  - intros Hfail. by apply attemptLoop_exhausts.
Qed.

(** C7.  [parseGeminiJson] never throws and leaves the state alone.  Its
    value is the strict parse of the text; only if that throws, the strict
    parse of the repaired text; and [null] if that fails too or the text is
    blank.  An attempt returns a result only if it has a non-empty segment
    list: with an empty or missing list the attempt throws, so a chunk result
    is never a zero-segment success. *)
Theorem parse_never_raises lib rawText :
  (forall S (s : S),
     parseGeminiJson lib rawText s
     = (Normal
          (if String.eqb (trim rawText) "" then None
           else match JSON_parse lib rawText with
                | Normal parsed => parsed
                | Throw _ =>
                    match jsonrepair lib rawText with
                    | Normal repaired =>
                        match JSON_parse lib repaired with
                        | Normal parsed => parsed
                        | Throw _ => None
                        end
                    | Throw _ => None
                    end
                end), s))
  /\ (forall svc path attempt st u txt,
        upload svc attempt = Normal u ->
        getFile svc attempt 0 = Normal ACTIVE ->
        generateContent svc attempt = Normal txt ->
        fst (attemptBody svc path attempt st)
        = accept (parseOutcome (jsonLib svc) (default "" (trim <$> txt))))
  /\ (forall parsed, hasSegments parsed = false -> accept parsed = Throw EMPTY_SEGMENTS)
  /\ (forall svc path attempt st,
        match fst (attemptBody svc path attempt st) with
        | Normal r => hasSegments (Some r) = true
        | Throw _ => True
        end)
  /\ (forall svc path retries st r,
        fst (runSingleChunk svc path retries st) = Normal (Some r) ->
        hasSegments (Some r) = true).
Proof.
  split; [intros S s; apply parseGeminiJson_outcome|].
  split; [apply attemptBody_generated|].
  split; [intros [res|] Hno; unfold accept; [by rewrite Hno|done]|].
  split; [apply attemptBody_accepts|].
  intros svc path retries st r. unfold runSingleChunk.
  unfold mbind, M_bind, bind, setGeminiFileName, modify. apply attemptLoop_accepts.
Qed.

End ChunkClaims.

(** ** Merging *)

Module MergeFacts.
Import StringSpec TimestampSpec SplitterSpec ChunkSpec MergeSpec PipelineSpec.
Import Effect Transcript Directus JsString AudioChunks Gemini TimestampFacts.

Lemma completion_bind_normal {A B} (c : Completion A) (k : A -> Completion B) a :
  c = Normal a -> (c ≫= k) = k a.
Proof. by intros ->. Qed.

Lemma completion_bind_throw {A B} (c : Completion A) (k : A -> Completion B) e :
  c = Throw e -> (c ≫= k) = Throw e.
Proof. by intros ->. Qed.

Lemma mergeLoop_walk fn pre rest acc :
  mergeLoop fn (pre ++ rest) (length rest) (length pre) acc
  = mergeFrom fn (length pre) rest acc.
Proof.
  revert pre acc. induction rest as [|res rest IH]; intros pre acc; [done|].
  cbn [length mergeLoop mergeFrom].
  rewrite lookup_app_r, Nat.sub_diag by lia. cbn [lookup list_lookup mjoin option_join].
  destruct (mergeStep fn (length pre) res acc) as [acc'|e]; [|done].
  change (mergeLoop fn (pre ++ res :: rest) (length rest) (S (length pre)) acc'
          = mergeFrom fn (S (length pre)) rest acc').
  replace (pre ++ res :: rest) with ((pre ++ [res]) ++ rest) by by rewrite <- app_assoc.
  replace (S (length pre)) with (length (pre ++ [res])) by (rewrite length_app; cbn; lia).
  apply IH.
Qed.

Lemma mergeLoop_all fn results :
  mergeLoop fn results (length results) 0 emptyAcc = mergeFrom fn 0 results emptyAcc.
Proof. exact (mergeLoop_walk fn [] results emptyAcc). Qed.

#[local] Arguments hasSegments : simpl never.

Lemma mergeStep_survivor fn i r acc :
  hasSegments (Some r) = true ->
  mergeStep fn i (Some r) acc
  = (segs ← adjustAll fn (Z.of_nat i * CHUNK_DURATION_SEC) (segmentsOf r);
     mret (merging acc [(i, r)] segs)).
Proof.
  intros Hseg. unfold mergeStep, merging, specSummaries, specLanguages, specCounts.
  rewrite Hseg. cbn zeta.
  destruct (adjustAll fn _ (segmentsOf r)) as [segs|e]; [|done]. cbn.
  destruct (truthyString (summary r)), (truthyString (detected_language r)),
    (truthyNumber (speakers_count r)); cbn; by rewrite ?app_nil_r.
Qed.

Lemma mergeStep_dropped fn i res acc :
  hasSegments res = false -> mergeStep fn i res acc = Normal acc.
Proof. intros Hno. unfold mergeStep. destruct res; [by rewrite Hno|done]. Qed.

Lemma last_app_default {A} (d : A) (l1 l2 : list A) :
  default d (last (l1 ++ l2)) = default (default d (last l1)) (last l2).
Proof.
  induction l2 as [|x l2 _] using rev_ind; [by rewrite app_nil_r|].
  by rewrite app_assoc, !last_snoc.
Qed.

Lemma merging_nil acc : merging acc [] [] = acc.
Proof. unfold merging. cbn. rewrite !app_nil_r. by destruct acc. Qed.

Lemma merging_app acc chunks1 chunks2 segs1 segs2 :
  merging (merging acc chunks1 segs1) chunks2 segs2
  = merging acc (chunks1 ++ chunks2) (segs1 ++ segs2).
Proof.
  unfold merging, specSummaries, specLanguages, specCounts.
  cbn [allSegments summaries detectedLanguage speakersCount].
  by rewrite !omap_app, !foldl_app, last_app_default, !app_assoc.
Qed.

Lemma specSegments_app fn l1 l2 :
  specSegments fn (l1 ++ l2)
  = (a ← specSegments fn l1; b ← specSegments fn l2; mret (a ++ b)).
Proof.
  induction l1 as [|c l1 IH]; cbn [app specSegments].
  - destruct (specSegments fn l2); done.
  - destruct (adjustAll fn _ (segmentsOf c.2)) as [here|e]; [|done]. cbn.
    rewrite IH. destruct (specSegments fn l1) as [a|e]; [|done]. cbn.
    destruct (specSegments fn l2) as [b|e]; [|done]. cbn. by rewrite app_assoc.
Qed.

(** The merge loop from index [i] on: the segments of the surviving chunks,
    moved, and the other fields gathered; or the first error. *)
Lemma mergeFrom_spec fn results :
  forall i acc,
    mergeFrom fn i results acc
    = (segs ← specSegments fn (survivorsFrom i results);
       mret (merging acc (survivorsFrom i results) segs)).
Proof.
  induction results as [|res rest IH]; intros i acc.
  - cbn. by rewrite merging_nil.
  - cbn [mergeFrom survivorsFrom].
    destruct res as [r|]; [destruct (hasSegments (Some r)) eqn:Hseg|].
    + rewrite (mergeStep_survivor _ _ _ _ Hseg). cbn [app specSegments fst snd].
      destruct (adjustAll fn _ (segmentsOf r)) as [here|e]; [|done]. cbn.
      rewrite IH. destruct (specSegments fn (survivorsFrom (S i) rest)) as [later|e];
        [|done].
      cbn. by rewrite merging_app.
    + rewrite (mergeStep_dropped _ _ _ _ Hseg). cbn. apply IH.
    + cbn. apply IH.
Qed.

Lemma foldl_max_ge (counts : list Z) (m : Z) : m <= foldl Z.max m counts.
Proof.
  revert m. induction counts as [|c counts IH]; intros m; cbn; [lia|].
  specialize (IH (Z.max m c)). lia.
Qed.



(** The merge loop over the whole array. *)
Lemma merge_aggregation_segments fn results :
  mergeLoop fn results (length results) 0 emptyAcc
  = (segs ← specSegments fn (survivors results);
     mret (merging emptyAcc (survivors results) segs)).
Proof. by rewrite mergeLoop_all, mergeFrom_spec. Qed.

(** If the merge returns, its segments are the specification's. *)
Lemma merge_returns fn results acc :
  mergeLoop fn results (length results) 0 emptyAcc = Normal acc ->
  specSegments fn (survivors results) = Normal (allSegments acc)
  /\ acc = merging emptyAcc (survivors results) (allSegments acc).
Proof.
  rewrite merge_aggregation_segments.
  destruct (specSegments fn (survivors results)) as [segs|e]; [|done].
  cbn. by intros [= <-].
Qed.

Lemma merge_throws fn results e :
  mergeLoop fn results (length results) 0 emptyAcc = Throw e ->
  specSegments fn (survivors results) = Throw e.
Proof.
  rewrite merge_aggregation_segments.
  destruct (specSegments fn (survivors results)) as [segs|e']; cbn; [done|].
  by intros [= ->].
Qed.

(** *** What moving a segment does *)




Lemma adjustSegment_timed fn off seg :
  Timed seg <-> exists merged, adjustSegment fn off seg = Normal merged.
Proof.
  unfold Timed, adjustSegment. split.
  - intros (s & e & -> & ->). cbn. by eexists.
  - intros [merged Hrun].
    destruct (seg_start seg) as [s|]; [|done].
    destruct (seg_end seg) as [e|]; [|done]. by eauto.
Qed.





End MergeFacts.

Module MergeClaims.
Import StringSpec TimestampSpec SplitterSpec ChunkSpec MergeSpec PipelineSpec.
Import Effect Transcript Directus JsString AudioChunks Gemini MergeFacts Scenarios.





End MergeClaims.

(** ** The pipeline *)

Module PipelineFacts.
Import StringSpec TimestampSpec SplitterSpec ChunkSpec MergeSpec PipelineSpec RunSpec.
Import Effect Transcript Directus JsString AudioChunks Gemini ChunkFacts MergeFacts.

Lemma Progressed_refl w : Progressed w w.
Proof. by repeat split. Qed.

Lemma Progressed_trans w1 w2 w3 : Progressed w1 w2 -> Progressed w2 w3 -> Progressed w1 w3.
Proof.
  intros (?&?&?&?&?&?) (?&?&?&?&?&?). repeat split; congruence.
Qed.

Lemma bind_run {S A B} (m : M S A) (k : A -> M S B) (s : S) :
  (m ≫= k) s = match m s with
               | (Normal a, s') => k a s'
               | (Throw e, s') => (Throw e, s')
               end.
Proof. reflexivity. Qed.

Lemma leaving_run {A} later (m : M World A) w :
  leaving later m w = match m w with
                      | (Normal a, w') => (Normal a, w')
                      | (Throw e, w') => (Throw e, leave later w')
                      end.
Proof. reflexivity. Qed.

Lemma updateTask_run patch w :
  updateTask patch w = (replyCompletion (storeReply w (requests w)), issue w patch).
Proof. reflexivity. Qed.

Lemma chunkResult_settled run chunkPaths i :
  chunkResult run chunkPaths i = Normal (settled run chunkPaths i).
Proof.
  unfold settled, chunkResult, runSingleChunk.
  unfold mbind, M_bind, bind, setGeminiFileName, modify.
  match goal with |- context [attemptLoop ?svc ?p ?r ?n ?a ?s] =>
    destruct (attemptLoop_segments svc p r n a s eq_refl) as (segs & _ & Hcase);
    destruct (attemptLoop svc p r n a s) as [[res|err] st]
  end; [done|]. by cbn in Hcase.
Qed.

Lemma issue_progress w message : Progressed w (issue w (progress message)).
Proof.
  unfold Progressed, issue. cbn. destruct (storeReply w (requests w)); by repeat split.
Qed.

Lemma updateTask_accepted w patch :
  Accepting w ->
  updateTask patch w = (Normal tt, issue w patch) /\ Accepting (issue w patch).
Proof. intros Hacc. unfold updateTask. by rewrite Hacc. Qed.

Lemma updateTaskAll_accepted messages :
  forall w, Accepting w ->
    exists w', updateTaskAll (progress <$> messages) w = (Normal tt, w')
               /\ Accepting w' /\ Progressed w w'.
Proof.
  induction messages as [|m messages IH]; intros w Hacc.
  - exists w. split; [done|]. split; [done|apply Progressed_refl].
  - cbn [fmap list_fmap updateTaskAll].
    destruct (IH (issue w (progress m))) as (w' & Hrun & Hacc' & Hprog); [done|].
    fold (@fmap list _ _ _ progress messages). rewrite Hrun, Hacc. cbn.
    exists w'. split; [done|]. split; [done|].
    eapply Progressed_trans; [apply issue_progress|done].
Qed.

Lemma stored_length run chunkPaths order :
  forall results, length (stored run chunkPaths order results) = length results.
Proof.
  induction order as [|i order IH]; intros results; [done|].
  cbn. unfold stored in IH. by rewrite IH, length_insert.
Qed.

Lemma stored_lookup run chunkPaths order :
  forall results j,
    stored run chunkPaths order results !! j =
    if bool_decide (j ∈ order /\ (j < length results)%nat)
    then Some (settled run chunkPaths j) else results !! j.
Proof.
  induction order as [|i order IH]; intros results j.
  - cbn. rewrite bool_decide_eq_false_2; [done|]. intros [Hin _]. by inversion Hin.
  - cbn. unfold stored in IH. rewrite IH, length_insert.
    destruct (decide (j < length results)%nat) as [Hlt|Hge].
    2:{ rewrite !bool_decide_eq_false_2 by (intros [_ ?]; lia).
        rewrite !lookup_ge_None_2; [done|lia|rewrite length_insert; lia]. }
    destruct (decide (j ∈ order)) as [Hin|Hnin].
    { rewrite !bool_decide_eq_true_2; [done|split; [by right|done]|done]. }
    rewrite (bool_decide_eq_false_2 (j ∈ order /\ _)) by (intros [? _]; done).
    destruct (decide (i = j)) as [->|Hne].
    + rewrite list_lookup_insert_eq by done.
      rewrite bool_decide_eq_true_2; [done|]. split; [by left|done].
    + rewrite list_lookup_insert_ne by done.
      rewrite bool_decide_eq_false_2; [done|].
      intros [Hin _]. apply elem_of_cons in Hin as [->|Hin]; done.
Qed.

Lemma completeAll_cons run chunkPaths totalChunks i rest st w :
  completeAll run chunkPaths totalChunks (i :: rest) st w =
  let st' := storeResult i (settled run chunkPaths i) st in
  match updateTask (progress (doneMessage i totalChunks (completedChunks st'))) w with
  | (Normal _, w') => completeAll run chunkPaths totalChunks rest st' w'
  | (Throw e, w') =>
      (Throw e, leave (laterWrites run chunkPaths totalChunks rest st') w')
  end.
Proof.
  cbn [completeAll]. rewrite bind_run. unfold completeChunk.
  rewrite bind_run. unfold await at 1. rewrite chunkResult_settled. cbn zeta.
  rewrite bind_run, leaving_run.
  by destruct (updateTask _ w) as [[[]|e] w'].
Qed.

Lemma processBatch_run run chunkPaths totalChunks indices st w :
  processBatch run chunkPaths totalChunks indices st w =
  match updateTaskAll ((fun i => progress (dispatchMessage i totalChunks)) <$> indices) w with
  | (Normal _, w') =>
      completeAll run chunkPaths totalChunks (completionOrder run indices) st w'
  | (Throw e, w') =>
      (Throw e,
       leave (laterWrites run chunkPaths totalChunks
                (filter (fun i => i ∈ started w 0 indices) (completionOrder run indices))
                st) w')
  end.
Proof.
  unfold processBatch. cbn zeta. rewrite bind_run, leaving_run.
  by destruct (updateTaskAll _ w) as [[[]|e] w'].
Qed.

Lemma completeAll_accepted run chunkPaths totalChunks order :
  forall st w, Accepting w ->
    exists w',
      completeAll run chunkPaths totalChunks order st w
      = (Normal {| results := stored run chunkPaths order (results st);
                   completedChunks := completedChunks st + length order |}, w')
      /\ Accepting w' /\ Progressed w w'.
Proof.
  induction order as [|i order IH]; intros st w Hacc.
  - exists w. cbn. rewrite Nat.add_0_r. destruct st.
    split; [done|]. split; [done|apply Progressed_refl].
  - rewrite completeAll_cons. cbn zeta.
    match goal with |- context [updateTask ?p w] =>
      destruct (updateTask_accepted w p Hacc) as [-> Hacc'] end.
    match goal with |- context [completeAll _ _ _ order ?s ?w1] =>
      destruct (IH s w1 Hacc') as (w' & -> & Hacc'' & Hprog) end.
    exists w'. cbn. split; [do 3 f_equal; lia|]. split; [done|].
    eapply Progressed_trans; [apply issue_progress|done].
Qed.

Lemma processBatch_accepted run chunkPaths totalChunks indices st w :
  Accepting w ->
  exists w',
    processBatch run chunkPaths totalChunks indices st w
    = (Normal {| results := stored run chunkPaths (completionOrder run indices) (results st);
                 completedChunks :=
                   completedChunks st + length (completionOrder run indices) |}, w')
    /\ Accepting w' /\ Progressed w w'.
Proof.
  intros Hacc. rewrite processBatch_run.
  replace ((fun i => progress (dispatchMessage i totalChunks)) <$> indices)
    with (progress <$> ((fun i => dispatchMessage i totalChunks) <$> indices))
    by by rewrite <- list_fmap_compose.
  destruct (updateTaskAll_accepted
              ((fun i => dispatchMessage i totalChunks) <$> indices) w Hacc)
    as (w1 & -> & Hacc1 & Hprog1).
  destruct (completeAll_accepted run chunkPaths totalChunks
              (completionOrder run indices) st w1 Hacc1) as (w2 & -> & Hacc2 & Hprog2).
  exists w2. split; [done|]. split; [done|]. by eapply Progressed_trans.
Qed.

Lemma elem_of_window i totalChunks j :
  j ∈ windowIndices i totalChunks
  <-> (i <= j < i + CONCURRENCY)%nat /\ (j < totalChunks)%nat.
Proof. unfold windowIndices, CONCURRENCY. rewrite elem_of_seq. lia. Qed.

(** With a store that accepts every write, the window loop ends normally
    and has stored every chunk's result at the chunk's own index. *)
Lemma windowLoop_accepted run chunkPaths totalChunks :
  ValidOrder (completionOrder run) ->
  forall budget i st w,
    Accepting w ->
    length (results st) = totalChunks ->
    (totalChunks <= i + CONCURRENCY * budget)%nat ->
    exists st' w',
      windowLoop run chunkPaths totalChunks budget i st w = (Normal st', w')
      /\ Accepting w' /\ Progressed w w'
      /\ length (results st') = totalChunks
      /\ forall j, results st' !! j =
                   if bool_decide (i <= j < totalChunks)%nat
                   then Some (settled run chunkPaths j) else results st !! j.
Proof.
  intros Hvalid. unfold CONCURRENCY.
  induction budget as [|budget IH]; intros i st w Hacc Hlen Hbudget.
  - exists st, w. cbn. split; [done|]. split; [done|]. split; [apply Progressed_refl|].
    split; [done|]. intros j. rewrite bool_decide_eq_false_2; [done|lia].
  - cbn [windowLoop]. destruct (Nat.ltb_spec i totalChunks) as [Hlt|Hge].
    2:{ exists st, w. split; [done|]. split; [done|]. split; [apply Progressed_refl|].
        split; [done|]. intros j. rewrite bool_decide_eq_false_2; [done|lia]. }
    rewrite bind_run.
    destruct (processBatch_accepted run chunkPaths totalChunks
                (windowIndices i totalChunks) st w Hacc) as (w1 & -> & Hacc1 & Hprog1).
    match goal with |- context [windowLoop _ _ _ budget _ ?s w1] =>
      destruct (IH (i + CONCURRENCY)%nat s w1 Hacc1) as (st' & w' & Hrun & Hacc' & Hprog' & Hlen' & Hlook)
    end.
    { cbn. by rewrite stored_length. }
    { unfold CONCURRENCY. lia. }
    exists st', w'. split; [done|]. split; [done|].
    split; [by eapply Progressed_trans|]. split; [done|].
    intros j. rewrite Hlook. cbn [results]. rewrite stored_lookup, Hlen.
    unfold CONCURRENCY.
    destruct (decide (i + 2 <= j < totalChunks)%nat) as [Hhigh|Hlow].
    { rewrite !bool_decide_eq_true_2; [done|lia|done]. }
    rewrite (bool_decide_eq_false_2 (i + 2 <= j < totalChunks)%nat) by done.
    destruct (decide (i <= j < totalChunks)%nat) as [Hin|Hout].
    + rewrite !bool_decide_eq_true_2; [done|done|]. split; [|lia].
      rewrite (Hvalid (windowIndices i totalChunks)).
      apply elem_of_window. unfold CONCURRENCY. lia.
    + rewrite !bool_decide_eq_false_2; [done|done|].
      intros [Hin _]. rewrite (Hvalid (windowIndices i totalChunks)) in Hin.
      apply elem_of_window in Hin. lia.
Qed.

Lemma windowLoop_sequential run chunkPaths w :
  ValidOrder (completionOrder run) ->
  Accepting w ->
  let totalChunks := length chunkPaths in
  exists st' w',
    windowLoop run chunkPaths totalChunks totalChunks 0
      {| results := replicate totalChunks None; completedChunks := 0 |} w
    = (Normal st', w')
    /\ results st' = sequentialResults run chunkPaths
    /\ Accepting w' /\ Progressed w w'.
Proof.
  intros Hvalid Hacc n.
  destruct (windowLoop_accepted run chunkPaths n Hvalid n 0
              {| results := replicate n None; completedChunks := 0 |} w Hacc)
    as (st' & w' & Hrun & Hacc' & Hprog & Hlen & Hlook).
  { cbn. by rewrite length_replicate. }
  { unfold CONCURRENCY. lia. }
  exists st', w'. split; [done|]. split; [|done].
  apply list_eq. intros j. rewrite Hlook. unfold sequentialResults. fold n.
  rewrite list_lookup_fmap. cbn [results].
  destruct (decide (j < n)%nat) as [Hlt|Hge].
  - rewrite bool_decide_eq_true_2 by lia. by rewrite lookup_seq_lt.
  - rewrite bool_decide_eq_false_2 by lia.
    rewrite lookup_seq_ge by lia. cbn. apply lookup_replicate_None. lia.
Qed.

Lemma unlink_run path w :
  unlink path w = (Normal tt, {| storeReply := storeReply w; requests := requests w;
                                 events := events w ++ [EvUnlink path];
                                 task := task w; pending := pending w |}).
Proof. reflexivity. Qed.

Lemma sequentialResults_length run chunkPaths :
  length (sequentialResults run chunkPaths) = length chunkPaths.
Proof. unfold sequentialResults. by rewrite length_fmap, length_seq. Qed.

(** The whole run against a store that accepts every write. *)
Lemma pipeline_accepted run tempFilePath chunkPaths w :
  apiKey run = true ->
  splitResult run = Normal chunkPaths ->
  ValidOrder (completionOrder run) ->
  Accepting w ->
  exists w',
    runGeminiTranscription run tempFilePath w = (Normal tt, w')
    /\ match mergeLoop (offsetFn run) (sequentialResults run chunkPaths)
               (length chunkPaths) 0 emptyAcc with
       | Throw e =>
           status (task w') = failed
           /\ error_message (task w') = Some e
           /\ result (task w') = result (task w)
       | Normal acc =>
           match allSegments acc with
           | [] => status (task w') = failed
                   /\ error_message (task w') = Some NO_SEGMENTS_MESSAGE
                   /\ result (task w') = result (task w)
           | _ :: _ => task w' = completedTask run acc
           end
       end.
Proof.
  intros Hkey Hsplit Hvalid Hacc.
  unfold runGeminiTranscription. rewrite Hkey. cbn [negb].
  unfold tryCatch, pipelineBody. rewrite !bind_run.
  destruct (updateTask_accepted w (progress "Анализ аудиофайла...") Hacc) as [-> Hacc1].
  set (w1 := issue w _) in *.
  rewrite !bind_run.
  destruct (updateTask_accepted w1 (progress "Подготовка фрагментов...") Hacc1)
    as [-> Hacc2].
  set (w2 := issue w1 _) in *.
  rewrite !bind_run. unfold await at 1. rewrite Hsplit. rewrite !bind_run.
  destruct (windowLoop_sequential run chunkPaths w2 Hvalid Hacc2)
    as (st' & w3 & -> & Hres & Hacc3 & Hprog3).
  rewrite !bind_run.
  destruct (updateTask_accepted w3 (progress ASSEMBLING) Hacc3) as [Hrun4 Hacc4].
  unfold ASSEMBLING in Hrun4. rewrite Hrun4. clear Hrun4.
  set (w4 := issue w3 _) in *.
  rewrite Hres.
  assert (Progressed w w4) as Hprog.
  { eapply Progressed_trans; [apply issue_progress|].
    eapply Progressed_trans; [apply issue_progress|].
    eapply Progressed_trans; [exact Hprog3|apply issue_progress]. }
  assert (error_message (task w4) = Some ASSEMBLING) as Hmsg.
  { subst w4. unfold issue. cbn. by rewrite Hacc3. }
  clearbody w4. clear w1 w2 Hacc1 Hacc2 Hprog3.
  assert (forall e,
            exists w',
              (updateTask (failure e);; unlink tempFilePath) w4 = (Normal tt, w')
              /\ status (task w') = failed
              /\ error_message (task w') = Some e
              /\ result (task w') = result (task w)) as Hcatch.
  { intros e. rewrite bind_run.
    destruct (updateTask_accepted w4 (failure e) Hacc4) as [-> _].
    rewrite unlink_run. eexists. split; [done|]. cbn [task].
    unfold issue. rewrite Hacc4. cbn.
    destruct Hprog as (_ & _ & Hresult & _). by rewrite Hresult. }
  rewrite bind_run. unfold await at 1.
  destruct (mergeLoop _ _ _ _ _) as [acc|e]; [|apply Hcatch].
  destruct (allSegments acc) as [|seg segs] eqn:Hsegs; [apply Hcatch|].
  rewrite bind_run.
  match goal with |- context [(if ?c then unlink tempFilePath else mret tt) w4] =>
    assert (exists w5, (if c then unlink tempFilePath else mret tt) w4 = (Normal tt, w5)
                       /\ Accepting w5 /\ task w5 = task w4) as (w5 & -> & Hacc5 & Htask5)
  end.
  { match goal with |- context [if ?c then _ else _] => destruct c end.
    - rewrite unlink_run. by eexists.
    - by exists w4. }
  destruct (updateTask_accepted w5 (completion run acc) Hacc5) as [-> _].
  eexists. split; [done|]. unfold issue. rewrite Hacc5. cbn [task].
  rewrite Htask5. unfold applyPatch, completion, completedTask. cbn.
  by rewrite Hmsg.
Qed.

Lemma elem_of_survivorsFrom results :
  forall j i r,
    (i, r) ∈ survivorsFrom j results
    <-> (j <= i)%nat /\ results !! (i - j)%nat = Some (Some r)
        /\ hasSegments (Some r) = true.
Proof.
  induction results as [|res rest IH]; intros j i r; cbn [survivorsFrom].
  - split; [by intros H; inversion H|]. by intros (_ & H & _).
  - rewrite elem_of_app, IH. split.
    + intros [Hhead|(Hle & Hlook & Hseg)].
      * destruct res as [r'|]; [|by inversion Hhead].
        destruct (hasSegments (Some r')) eqn:Hseg; [|by inversion Hhead].
        apply list_elem_of_singleton in Hhead. injection Hhead as -> ->.
        by rewrite Nat.sub_diag.
      * split; [lia|]. split; [|done].
        replace (i - j)%nat with (S (i - S j)) by lia. done.
    + intros (Hle & Hlook & Hseg).
      destruct (decide (i = j)) as [->|Hne].
      * left. rewrite Nat.sub_diag in Hlook. cbn in Hlook. injection Hlook as ->.
        rewrite Hseg. apply list_elem_of_here.
      * right. split; [lia|]. split; [|done].
        replace (i - j)%nat with (S (i - S j)) in Hlook by lia. done.
Qed.




Lemma Quiet_refl w : Quiet w w.
Proof. split; [done|]. split; [done|]. intros k Hk. lia. Qed.

Lemma Quiet_trans w1 w2 w3 : Quiet w1 w2 -> Quiet w2 w3 -> Quiet w1 w3.
Proof.
  intros (Hs1 & Hle1 & Hq1) (Hs2 & Hle2 & Hq2).
  split; [congruence|]. split; [lia|]. intros k Hk.
  destruct (decide (k < requests w2)%nat); [apply Hq1; lia|].
  rewrite <- Hs1. apply Hq2. lia.
Qed.

Lemma updateTask_quiet patch w w1 :
  updateTask patch w = (Normal tt, w1) -> Quiet w w1.
Proof.
  unfold updateTask. intros [= Hreply <-]. split; [done|]. cbn. split; [lia|].
  intros k Hk. assert (k = requests w) as -> by lia.
  by destruct (storeReply w (requests w)).
Qed.

Lemma updateTaskAll_quiet patches :
  forall w w1, updateTaskAll patches w = (Normal tt, w1) -> Quiet w w1.
Proof.
  induction patches as [|patch rest IH]; intros w w1; cbn [updateTaskAll].
  - intros [= <-]. apply Quiet_refl.
  - destruct (updateTaskAll rest (issue w patch)) as [later w'] eqn:Hrest.
    destruct (replyCompletion (storeReply w (requests w))) as [[]|e] eqn:Hreply; [|done].
    intros [= -> ->]. eapply Quiet_trans; [|by apply IH].
    apply (updateTask_quiet patch). unfold updateTask. by rewrite Hreply.
Qed.

Lemma completeAll_quiet run chunkPaths totalChunks order :
  forall st w st1 w1,
    completeAll run chunkPaths totalChunks order st w = (Normal st1, w1) -> Quiet w w1.
Proof.
  induction order as [|i order IH]; intros st w st1 w1.
  - cbn [completeAll]. intros [= _ <-]. apply Quiet_refl.
  - rewrite completeAll_cons. cbn zeta.
    match goal with |- context [updateTask ?p w] =>
      destruct (updateTask p w) as [[[]|e] w'] eqn:Hup end; [|done].
    intros Hrest.
    eapply Quiet_trans; [by eapply updateTask_quiet|by eapply IH].
Qed.

Lemma windowLoop_quiet run chunkPaths totalChunks budget :
  forall i st w st1 w1,
    windowLoop run chunkPaths totalChunks budget i st w = (Normal st1, w1) -> Quiet w w1.
Proof.
  induction budget as [|budget IH]; intros i st w st1 w1; cbn [windowLoop].
  - intros [= _ <-]. apply Quiet_refl.
  - destruct (Nat.ltb i totalChunks); [|intros [= _ <-]; apply Quiet_refl].
    rewrite bind_run, processBatch_run.
    destruct (updateTaskAll _ w) as [[[]|e] w'] eqn:Hall; [|done].
    destruct (completeAll _ _ _ _ st w') as [[st'|e] w''] eqn:Hcomp; [|done].
    intros Hrest. eapply Quiet_trans; [by eapply updateTaskAll_quiet|].
    eapply Quiet_trans; [by eapply completeAll_quiet|by eapply IH].
Qed.

(** If the [try] block ends normally, the store accepted every write. *)
Lemma pipelineBody_quiet run tempFilePath w w1 :
  pipelineBody run tempFilePath w = (Normal tt, w1) -> Quiet w w1.
Proof.
  unfold pipelineBody. rewrite !bind_run.
  destruct (updateTask _ w) as [[[]|e] wa] eqn:H1; [|done]. rewrite !bind_run.
  destruct (updateTask _ wa) as [[[]|e] wb] eqn:H2; [|done]. rewrite !bind_run.
  unfold await at 1. destruct (splitResult run) as [chunkPaths|e]; [|done].
  rewrite !bind_run.
  destruct (windowLoop _ _ _ _ _ _ wb) as [[st|e] wc] eqn:H3; [|done].
  rewrite !bind_run.
  destruct (updateTask _ wc) as [[[]|e] wd] eqn:H4; [|done].
  rewrite bind_run. unfold await at 1.
  destruct (mergeLoop _ _ _ _ _) as [acc|e]; [|done].
  destruct (allSegments _) as [|seg segs]; [done|]. rewrite bind_run.
  match goal with |- context [(if ?c then unlink tempFilePath else mret tt) wd] =>
    assert (exists we, (if c then unlink tempFilePath else mret tt) wd = (Normal tt, we)
                       /\ Quiet wd we) as (we & -> & H5)
  end.
  { match goal with |- context [if ?c then _ else _] => destruct c end.
    - rewrite unlink_run. eexists. split; [done|]. split; [done|]. split; [done|].
      cbn. intros k Hk. lia.
    - exists wd. split; [done|apply Quiet_refl]. }
  intros H6. apply updateTask_quiet in H1, H2, H4, H6. apply windowLoop_quiet in H3.
  eapply Quiet_trans; [exact H1|]. eapply Quiet_trans; [exact H2|].
  eapply Quiet_trans; [exact H3|]. eapply Quiet_trans; [exact H4|].
  eapply Quiet_trans; [exact H5|exact H6].
Qed.

Lemma SameStore_refl w : SameStore w w.
Proof. by repeat split. Qed.

Lemma SameStore_leave later1 later2 w1 w2 :
  SameStore w1 w2 -> SameStore (leave later1 w1) (leave later2 w2).
Proof. done. Qed.

Lemma updateTask_same patch1 patch2 w1 w2 :
  SameStore w1 w2 ->
  p_status patch1 = p_status patch2 -> p_result patch1 = p_result patch2 ->
  p_language patch1 = p_language patch2 ->
  p_speakers_count patch1 = p_speakers_count patch2 ->
  p_processed_at patch1 = p_processed_at patch2 ->
  fst (updateTask patch1 w1) = fst (updateTask patch2 w2)
  /\ SameStore (snd (updateTask patch1 w1)) (snd (updateTask patch2 w2)).
Proof.
  intros (Hs & Hr & Hst & Hres & Hl & Hsp & Hp) E1 E2 E3 E4 E5.
  unfold updateTask, issue. cbn. rewrite Hs, Hr. split; [done|].
  repeat split; cbn; try done;
    destruct (storeReply w2 (requests w2)); cbn; congruence.
Qed.

Lemma updateTaskAll_same messages1 :
  forall messages2 w1 w2,
    length messages1 = length messages2 ->
    SameStore w1 w2 ->
    fst (updateTaskAll (progress <$> messages1) w1)
    = fst (updateTaskAll (progress <$> messages2) w2)
    /\ SameStore (snd (updateTaskAll (progress <$> messages1) w1))
                 (snd (updateTaskAll (progress <$> messages2) w2)).
Proof.
  induction messages1 as [|m1 rest1 IH]; intros [|m2 rest2] w1 w2 Hlen Hsame;
    try done.
  cbn [fmap list_fmap updateTaskAll].
  fold (@fmap list _ _ _ progress rest1). fold (@fmap list _ _ _ progress rest2).
  destruct (updateTask_same (progress m1) (progress m2) w1 w2 Hsame)
    as [Hfst Hsnd]; try done.
  unfold updateTask in Hfst, Hsnd. cbn in Hfst, Hsnd.
  destruct (IH rest2 (issue w1 (progress m1)) (issue w2 (progress m2))) as [Hc Hw];
    [by injection Hlen|done|].
  destruct (updateTaskAll (progress <$> rest1) (issue w1 (progress m1))) as [c1 w1'].
  destruct (updateTaskAll (progress <$> rest2) (issue w2 (progress m2))) as [c2 w2'].
  cbn in Hc, Hw |- *. rewrite Hfst, Hc. done.
Qed.

Lemma completeAll_same run order' chunkPaths totalChunks order1 :
  forall order2 st1 st2 w1 w2,
    length order1 = length order2 ->
    SameStore w1 w2 ->
    let out1 := completeAll run chunkPaths totalChunks order1 st1 w1 in
    let out2 := completeAll (withOrder run order') chunkPaths totalChunks order2 st2 w2 in
    SameStore (snd out1) (snd out2)
    /\ match fst out1, fst out2 with
       | Normal s1, Normal s2 =>
           results s1 = stored run chunkPaths order1 (results st1)
           /\ results s2 = stored run chunkPaths order2 (results st2)
       | Throw e1, Throw e2 => e1 = e2
       | _, _ => False
       end.
Proof.
  induction order1 as [|i1 rest1 IH]; intros [|i2 rest2] st1 st2 w1 w2 Hlen Hsame;
    try done.
  cbn zeta. rewrite !completeAll_cons. cbn zeta.
  change (settled (withOrder run order') chunkPaths) with (settled run chunkPaths).
  match goal with |- context [updateTask ?p1 w1] =>
    match goal with |- context [updateTask ?p2 w2] =>
      destruct (updateTask_same p1 p2 w1 w2 Hsame) as [Hfst Hsnd]; try done;
      destruct (updateTask p1 w1) as [[[]|e1] w1'];
      destruct (updateTask p2 w2) as [[[]|e2] w2']
    end
  end; cbn in Hfst, Hsnd; try done.
  2:{ cbn [fst snd]. split; [by apply SameStore_leave|congruence]. }
  match goal with |- context [completeAll run _ _ rest1 ?s1 w1'] =>
    match goal with |- context [completeAll (withOrder run order') _ _ rest2 ?s2 w2'] =>
      specialize (IH rest2 s1 s2 w1' w2' ltac:(by injection Hlen) Hsnd)
    end
  end.
  cbn zeta in IH. exact IH.
Qed.

Lemma stored_permutation run chunkPaths order1 order2 results :
  order1 ≡ₚ order2 ->
  stored run chunkPaths order1 results = stored run chunkPaths order2 results.
Proof.
  intros Hperm. apply list_eq. intros j. rewrite !stored_lookup.
  destruct (decide (j ∈ order1 /\ (j < length results)%nat)) as [[Hin Hlt]|Hno].
  - rewrite !bool_decide_eq_true_2; [done| |done]. split; [by rewrite <- Hperm|done].
  - rewrite !bool_decide_eq_false_2; [done| |done]. by rewrite <- Hperm.
Qed.

Lemma windowLoop_same run order' chunkPaths totalChunks :
  ValidOrder (completionOrder run) -> ValidOrder order' ->
  forall budget i st1 st2 w1 w2,
    results st1 = results st2 ->
    SameStore w1 w2 ->
    let out1 := windowLoop run chunkPaths totalChunks budget i st1 w1 in
    let out2 := windowLoop (withOrder run order') chunkPaths totalChunks budget i st2 w2 in
    SameStore (snd out1) (snd out2) /\ SameOutcome (fst out1) (fst out2).
Proof.
  intros Hvalid1 Hvalid2. induction budget as [|budget IH];
    intros i st1 st2 w1 w2 Hres Hsame; cbn zeta; cbn [windowLoop]; [done|].
  destruct (Nat.ltb i totalChunks); [|done].
  rewrite !bind_run, !processBatch_run.
  set (indices := windowIndices i totalChunks).
  replace ((fun j => progress (dispatchMessage j totalChunks)) <$> indices)
    with (progress <$> ((fun j => dispatchMessage j totalChunks) <$> indices))
    by by rewrite <- list_fmap_compose.
  destruct (updateTaskAll_same ((fun j => dispatchMessage j totalChunks) <$> indices)
              ((fun j => dispatchMessage j totalChunks) <$> indices) w1 w2 eq_refl Hsame)
    as [Hfst Hsnd].
  destruct (updateTaskAll _ w1) as [[[]|e1] w1'];
    destruct (updateTaskAll _ w2) as [[[]|e2] w2']; cbn in Hfst, Hsnd; try done.
  2:{ cbn [fst snd]. split; [by apply SameStore_leave|]. cbn. congruence. }
  cbn [completionOrder withOrder].
  assert (length (completionOrder run indices) = length (order' indices)) as Hlen.
  { apply Permutation_length. by rewrite (Hvalid1 indices), (Hvalid2 indices). }
  pose proof (completeAll_same run order' chunkPaths totalChunks
                (completionOrder run indices) (order' indices) st1 st2 w1' w2'
                Hlen Hsnd) as Hcomp.
  cbn zeta in Hcomp.
  destruct (completeAll run _ _ _ st1 w1') as [[s1|e1] w1''];
    destruct (completeAll (withOrder run order') _ _ _ st2 w2') as [[s2|e2] w2''];
    cbn in Hcomp; destruct Hcomp as [Hsame' Hout]; try done.
  destruct Hout as [Hr1 Hr2]. apply IH; [|done].
  rewrite Hr1, Hr2, Hres. apply stored_permutation.
  etrans; [apply Hvalid1|symmetry; apply Hvalid2].
Qed.

Lemma Sim_bind {A B} (R : A -> A -> Prop) (Q : B -> B -> Prop)
    (m1 m2 : M World A) (k1 k2 : A -> M World B) w1 w2 :
  Sim R (m1 w1) (m2 w2) ->
  (forall a1 a2 w1' w2', R a1 a2 -> SameStore w1' w2' -> Sim Q (k1 a1 w1') (k2 a2 w2')) ->
  Sim Q ((m1 ≫= k1) w1) ((m2 ≫= k2) w2).
Proof.
  intros [Hsame Hout] Hk. rewrite !bind_run.
  destruct (m1 w1) as [[a1|e1] w1'], (m2 w2) as [[a2|e2] w2']; cbn in Hsame, Hout;
    try done.
  by apply Hk.
Qed.

Lemma Sim_updateTask patch w1 w2 :
  SameStore w1 w2 -> Sim eq (updateTask patch w1) (updateTask patch w2).
Proof.
  intros Hsame. destruct (updateTask_same patch patch w1 w2 Hsame) as [Hfst Hsnd];
    try done.
  split; [done|]. rewrite Hfst. by destruct (fst (updateTask patch w2)) as [[]|].
Qed.

Lemma Sim_unlink path w1 w2 :
  SameStore w1 w2 -> Sim eq (unlink path w1) (unlink path w2).
Proof. intros Hsame. by rewrite !unlink_run. Qed.

Lemma pipelineBody_same run order' tempFilePath w1 w2 :
  ValidOrder (completionOrder run) -> ValidOrder order' ->
  SameStore w1 w2 ->
  Sim eq (pipelineBody run tempFilePath w1)
         (pipelineBody (withOrder run order') tempFilePath w2).
Proof.
  intros Hvalid1 Hvalid2 Hsame. unfold pipelineBody.
  eapply Sim_bind; [by apply Sim_updateTask|]. intros _ _ wa1 wa2 _ Ha.
  eapply Sim_bind; [by apply Sim_updateTask|]. intros _ _ wb1 wb2 _ Hb.
  cbn [splitResult withOrder].
  eapply (Sim_bind eq); [by split; [|destruct (splitResult run)]|].
  intros chunkPaths ? wc1 wc2 <- Hc.
  eapply (Sim_bind (fun s1 s2 => results s1 = results s2)).
  { apply (windowLoop_same run order' chunkPaths (length chunkPaths) Hvalid1 Hvalid2);
      done. }
  intros st1 st2 wd1 wd2 Hres Hd.
  eapply Sim_bind; [by apply Sim_updateTask|]. intros _ _ we1 we2 _ He.
  cbn [offsetFn withOrder]. rewrite Hres.
  eapply (Sim_bind eq); [by split; [|destruct (mergeLoop _ _ _ _ _)]|].
  intros acc ? wf1 wf2 <- Hf.
  destruct (allSegments _) as [|seg segs]; [by split|].
  eapply (Sim_bind eq).
  { match goal with |- context [if ?c then _ else _] => destruct c end;
      [by apply Sim_unlink|by split]. }
  intros _ _ wg1 wg2 _ Hg. by apply Sim_updateTask.
Qed.

(** The whole run does not depend on the completion order: same outcome,
    same stored status, result, language, speaker count and duration. *)
Lemma run_same run order' tempFilePath w :
  ValidOrder (completionOrder run) -> ValidOrder order' ->
  Sim eq (runGeminiTranscription run tempFilePath w)
         (runGeminiTranscription (withOrder run order') tempFilePath w).
Proof.
  intros Hvalid1 Hvalid2. unfold runGeminiTranscription. cbn [apiKey withOrder].
  destruct (apiKey run); cbn [negb]; [|apply Sim_updateTask, SameStore_refl].
  unfold tryCatch.
  destruct (pipelineBody_same run order' tempFilePath w w Hvalid1 Hvalid2
              (SameStore_refl w)) as [Hsame Hout].
  destruct (pipelineBody run tempFilePath w) as [[[]|e1] w1],
    (pipelineBody (withOrder run order') tempFilePath w) as [[[]|e2] w2];
    cbn in Hsame, Hout; try done.
  subst e2. eapply Sim_bind; [by apply Sim_updateTask|].
  intros _ _ wa wb _ Hab. by apply Sim_unlink.
Qed.

(** *** Progress messages *)








(** *** The first refusal *)

















(** *** What is left running *)












End PipelineFacts.

Module PipelineClaims.
Import StringSpec TimestampSpec SplitterSpec ChunkSpec MergeSpec PipelineSpec RunSpec.
Import Effect Transcript Directus JsString AudioChunks Gemini ChunkFacts MergeFacts.
Import PipelineFacts Scenarios.



(** The lossy run ends completed with the segments of chunks 0 and 2, the
    latter moved by 1200 seconds. *)
Example lossy_run_result :
  let w' := snd (runGeminiTranscription lossyRun "in.mp3" (startWorld alwaysAccepted)) in
  status (task w') = completed
  /\ (segmentsOf <$> result (task w'))
     = Some [{| seg_start := TimeText "00:00:01"; seg_end := TimeText "00:00:05";
                speaker := Some "Speaker A"; text := Some "hello" |};
             {| seg_start := TimeText "00:20:01"; seg_end := TimeText "00:20:05";
                speaker := Some "Speaker A"; text := Some "hello" |}].
Proof. vm_compute. split; reflexivity. Qed.





(** C6.  Whatever the order in which the chunks of a window resolve, the
    run has the same outcome and leaves the same status, merged result,
    language and speaker count in the store.  With a store that accepts the
    writes, the merged result is the merge of the array a strictly
    sequential pass over the chunks fills in, index by index. *)
Theorem merge_order_independent run order' tempFilePath w :
  ValidOrder (completionOrder run) -> ValidOrder order' ->
  let out1 := runGeminiTranscription run tempFilePath w in
  let out2 := runGeminiTranscription (withOrder run order') tempFilePath w in
  fst out1 = fst out2
  /\ result (task (snd out1)) = result (task (snd out2))
  /\ status (task (snd out1)) = status (task (snd out2))
  /\ language (task (snd out1)) = language (task (snd out2))
  /\ task_speakers_count (task (snd out1)) = task_speakers_count (task (snd out2))
  /\ (forall chunkPaths acc,
        apiKey run = true -> splitResult run = Normal chunkPaths -> Accepting w ->
        mergeLoop (offsetFn run) (sequentialResults run chunkPaths)
          (length chunkPaths) 0 emptyAcc = Normal acc ->
        allSegments acc <> [] ->
        result (task (snd out1)) = Some (mergedResult acc)
        /\ specSegments (offsetFn run) (survivors (sequentialResults run chunkPaths))
           = Normal (allSegments acc)).
Proof.
  intros Hvalid1 Hvalid2 out1 out2.
  destruct (run_same run order' tempFilePath w Hvalid1 Hvalid2)
    as [(_ & _ & Hstatus & Hresult & Hlang & Hcount & _) Hout].
  fold out1 out2 in Hstatus, Hresult, Hlang, Hcount, Hout.
  split.
  { destruct (fst out1) as [[]|e1], (fst out2) as [[]|e2]; try done. by subst. }
  do 4 (split; [done|]).
  intros chunkPaths acc Hkey Hsplit Hacc Hmerge Hne.
  destruct (pipeline_accepted run tempFilePath chunkPaths w Hkey Hsplit Hvalid1 Hacc)
    as (w' & Hrun & Hcase).
  rewrite Hmerge in Hcase. subst out1. rewrite Hrun. cbn [snd].
  rewrite <- (sequentialResults_length run chunkPaths) in Hmerge.
  destruct (merge_returns _ _ _ Hmerge) as [Hsegs _].
  split; [|done].
  destruct (allSegments acc); [done|]. by rewrite Hcase.
Qed.

Lemma merge_order_independent_witness :
  let out1 := runGeminiTranscription lossyRun "in.mp3" (startWorld alwaysAccepted) in
  let out2 := runGeminiTranscription (withOrder lossyRun (fun indices => indices))
                "in.mp3" (startWorld alwaysAccepted) in
  ValidOrder (completionOrder lossyRun)
  /\ ValidOrder (fun indices => indices)
  /\ fst out1 = fst out2
  /\ result (task (snd out1)) = result (task (snd out2))
  /\ status (task (snd out1)) = status (task (snd out2)).
Proof.
  cbv zeta.
  split; [intros indices; apply reverse_Permutation|].
  split; [intros indices; reflexivity|].
  destruct (merge_order_independent lossyRun (fun indices => indices) "in.mp3"
              (startWorld alwaysAccepted))
    as (Hout & Hresult & Hstatus & _).
  - intros indices. apply reverse_Permutation.
  - intros indices. reflexivity.
  - split; [exact Hout|]. split; [exact Hresult|exact Hstatus].
Defined.

(** The two orders differ in what they write on the way: the progress
    messages name the chunks in the order of completion. *)
Example completion_order_shows_in_events :
  events (snd (runGeminiTranscription lossyRun "in.mp3" (startWorld alwaysAccepted)))
  <> events (snd (runGeminiTranscription (withOrder lossyRun (fun indices => indices))
                    "in.mp3" (startWorld alwaysAccepted))).
Proof. vm_compute. discriminate. Qed.

End PipelineClaims.

(** * Further properties *)

(** ** The calls of [runSingleChunk] *)

Module TraceFacts.
Import StringSpec TimestampSpec SplitterSpec ChunkSpec MergeSpec PipelineSpec.
Import Effect Transcript Directus JsString AudioChunks Gemini.
Import ChunkFacts TraceSpec.

Lemma sleepTotal_app evs1 evs2 :
  sleepTotal (evs1 ++ evs2) = sleepTotal evs1 + sleepTotal evs2.
Proof.
  induction evs1 as [|e evs1 IH]; [done|].
  cbn. fold (sleepTotal (evs1 ++ evs2)) (sleepTotal evs1). destruct e; lia.
Qed.

Lemma pollRounds_S j fileName :
  pollRounds (S j) fileName = EvSleep 2000 :: EvGetFile fileName :: pollRounds j fileName.
Proof. done. Qed.

Lemma sleepTotal_pollRounds j fileName :
  sleepTotal (pollRounds j fileName) = Z.of_nat j * 2000.
Proof.
  induction j as [|j IH]; [done|].
  rewrite pollRounds_S. cbn. fold (sleepTotal (pollRounds j fileName)). lia.
Qed.

Lemma sleeps_pollRounds j fileName : sleeps (pollRounds j fileName) = replicate j 2000.
Proof.
  induction j as [|j IH]; [done|].
  rewrite pollRounds_S. cbn. fold (sleeps (pollRounds j fileName)). by rewrite IH.
Qed.

Lemma polled_pollRounds j fileName :
  polled (pollRounds j fileName) = replicate j fileName.
Proof.
  induction j as [|j IH]; [done|].
  rewrite pollRounds_S. cbn. fold (polled (pollRounds j fileName)). by rewrite IH.
Qed.

Lemma unlinkedPaths_pollRounds j fileName : unlinkedPaths (pollRounds j fileName) = [].
Proof.
  induction j as [|j IH]; [done|].
  rewrite pollRounds_S. cbn. by fold (unlinkedPaths (pollRounds j fileName)).
Qed.

Lemma deletedNames_pollRounds j fileName : deletedNames (pollRounds j fileName) = [].
Proof.
  induction j as [|j IH]; [done|].
  rewrite pollRounds_S. cbn. by fold (deletedNames (pollRounds j fileName)).
Qed.

(** The polling loop makes at most [budget] rounds and nothing else. *)
Lemma waitLoop_rounds svc attempt fileName budget :
  forall k currentFile st,
    exists j,
      (j <= budget)%nat
      /\ trace (snd (waitLoop svc attempt fileName budget k currentFile st))
         = trace st ++ pollRounds j fileName
      /\ geminiFileName (snd (waitLoop svc attempt fileName budget k currentFile st))
         = geminiFileName st.
Proof.
  induction budget as [|budget IH]; intros k currentFile st.
  - exists 0%nat. cbn. by rewrite app_nil_r.
  - cbn [waitLoop]. destruct (isProcessing currentFile).
    2:{ exists 0%nat. cbn. rewrite app_nil_r. split; [lia|done]. }
    run_step. cbn.
    destruct (getFile svc attempt k) as [next|err].
    + match goal with |- context [waitLoop _ _ _ _ _ _ ?s] =>
        destruct (IH (S k) next s) as (j & Hj & Htr & Hname) end.
      exists (S j). rewrite Htr, Hname, pollRounds_S. cbn. rewrite <- !app_assoc.
      split; [lia|done].
    + exists 1%nat. cbn. rewrite <- !app_assoc. split; [lia|done].
Qed.

(** A file that stays in processing uses up the whole budget. *)
Lemma waitLoop_timeout svc attempt fileName budget :
  forall k st,
    (forall i, (i < budget)%nat -> getFile svc attempt (k + i) = Normal PROCESSING) ->
    waitLoop svc attempt fileName budget k PROCESSING st
    = (Normal PROCESSING,
       {| geminiFileName := geminiFileName st;
          trace := trace st ++ pollRounds budget fileName |}).
Proof.
  induction budget as [|budget IH]; intros k st Hbusy.
  - cbn. rewrite app_nil_r. by destruct st.
  - rewrite pollRounds_S. cbn [waitLoop isProcessing]. run_step. cbn.
    rewrite <- (Nat.add_0_r k) at 1. rewrite (Hbusy 0%nat) by lia.
    rewrite IH.
    + cbn. by rewrite <- !app_assoc.
    + intros i Hi. replace (S k + i)%nat with (k + S i)%nat by lia. apply Hbusy. lia.
Qed.

#[local] Arguments waitLoop : simpl never.
#[local] Arguments hasSegments : simpl never.

(** The calls of the [try] block, case by case. *)
Lemma attemptBody_calls svc path attempt st :
  let out := attemptBody svc path attempt st in
  match upload svc attempt with
  | Throw _ =>
      trace (snd out) = trace st ++ [EvUpload path]
      /\ geminiFileName (snd out) = geminiFileName st
      /\ exists e, fst out = Throw e
  | Normal u =>
      exists j tail,
        (j <= 60)%nat
        /\ trace (snd out) = trace st ++ bodyCalls path u j tail
        /\ match fst out with
           | Normal _ => tail = accepted path u /\ geminiFileName (snd out) = None
           | Throw _ =>
               (tail = [] \/ tail = generated u)
               /\ geminiFileName (snd out) = Some (name u)
               \/ tail = rejected u /\ geminiFileName (snd out) = None
           end
  end.
Proof.
  unfold attemptBody, bodyCalls. run_step. cbn.
  destruct (upload svc attempt) as [u|err]; cbn.
  2:{ split; [done|]. split; [done|]. by eexists. }
  destruct (getFile svc attempt 0) as [first|err]; cbn.
  2:{ exists 0%nat, []. rewrite <- !app_assoc. cbn. split; [lia|]. split; [done|].
      left. split; [by left|done]. }
  match goal with |- context [waitLoop _ _ _ _ _ _ ?s] =>
    destruct (waitLoop_rounds svc attempt (name u) 60 1 first s)
      as (j & Hj & Htr & Hname);
    destruct (waitLoop svc attempt (name u) 60 1 first s) as [[currentFile|err] st1]
  end; cbn in Htr, Hname; rewrite <- !app_assoc in Htr; cbn in Htr.
  2:{ exists j, []. rewrite app_nil_r. split; [done|]. split; [done|].
      left. split; [by left|done]. }
  destruct (negb (isActive currentFile)); cbn.
  { exists j, []. rewrite app_nil_r. split; [done|]. split; [done|].
    left. split; [by left|done]. }
  destruct (generateContent svc attempt) as [txt|err]; cbn.
  2:{ exists j, (generated u). rewrite Htr, <- !app_assoc. cbn.
      split; [done|]. split; [done|]. left. split; [by right|done]. }
  rewrite parseGeminiJson_outcome. cbn.
  destruct (parseOutcome _ _) as [res|]; cbn.
  2:{ exists j, (rejected u). rewrite Htr, <- !app_assoc. cbn.
      split; [done|]. split; [done|]. by right. }
  destruct (hasSegments (Some res)); cbn.
  - exists j, (accepted path u). rewrite Htr, <- !app_assoc. cbn. done.
  - exists j, (rejected u). rewrite Htr, <- !app_assoc. cbn.
    split; [done|]. split; [done|]. by right.
Qed.

Lemma attemptCatch_calls path retries attempt err st1 :
  let out := attemptCatch path retries attempt err st1 in
  trace (snd out) = trace st1 ++ catchCalls path retries attempt err (geminiFileName st1)
  /\ geminiFileName (snd out) = geminiFileName st1
  /\ fst out = Normal (if Nat.eqb attempt retries then Some None else None).
Proof.
  unfold attemptCatch, catchCalls. run_step. cbn.
  destruct (truthyName (geminiFileName st1)); destruct (Nat.eqb attempt retries);
    cbn; by rewrite <- !app_assoc.
Qed.

Lemma omap_bodyCalls {B} (f : ChunkEvent -> option B) path u j tail :
  omap f (bodyCalls path u j tail)
  = omap f [EvUpload path; EvGetFile (name u)]
    ++ omap f (pollRounds j (name u)) ++ omap f tail.
Proof.
  unfold bodyCalls.
  change (EvUpload path :: EvGetFile (name u) :: pollRounds j (name u) ++ tail)
    with ([EvUpload path; EvGetFile (name u)] ++ pollRounds j (name u) ++ tail).
  by rewrite !omap_app.
Qed.

Lemma sleepTotal_bodyCalls path u j tail :
  sleepTotal (bodyCalls path u j tail) = Z.of_nat j * 2000 + sleepTotal tail.
Proof.
  unfold bodyCalls.
  change (EvUpload path :: EvGetFile (name u) :: pollRounds j (name u) ++ tail)
    with ([EvUpload path; EvGetFile (name u)] ++ pollRounds j (name u) ++ tail).
  rewrite !sleepTotal_app, sleepTotal_pollRounds. cbn. lia.
Qed.

Lemma truthyName_Some v n : truthyName v = Some n -> v = Some n.
Proof.
  destruct v as [m|]; [|done]. cbn. by destruct (String.eqb m ""); intros [= <-].
Qed.

Lemma Uploaded_mono svc a b n : (a <= b)%nat -> Uploaded svc a n -> Uploaded svc b n.
Proof. intros Hab (k & u & Hk & Hu & Hn). exists k, u. split; [lia|done]. Qed.

(** One iteration of the retry loop: its calls, what it sleeps, what it
    deletes, and the handle it leaves in [geminiFileName]. *)
Lemma iteration_calls svc path retries attempt st :
  (forall n, geminiFileName st = Some n -> Uploaded svc attempt n) ->
  let out := tryCatch (res ← attemptBody svc path attempt; mret (Some (Some res)))
               (attemptCatch path retries attempt) st in
  exists evs,
    trace (snd out) = trace st ++ evs
    /\ (forall n, geminiFileName (snd out) = Some n -> Uploaded svc (S attempt) n)
    /\ Forall (Uploaded svc (S attempt)) (deletedNames evs)
    /\ match fst out with
       | Normal (Some (Some _)) =>
           sleepTotal evs <= POLL_BUDGET_MS
           /\ unlinkedPaths evs = [path] /\ last evs = Some (EvUnlinkChunk path)
       | Normal (Some None) =>
           attempt = retries
           /\ sleepTotal evs <= POLL_BUDGET_MS
           /\ unlinkedPaths evs = [path] /\ last evs = Some (EvUnlinkChunk path)
       | Normal None =>
           attempt <> retries
           /\ sleepTotal evs <= POLL_BUDGET_MS + 2 ^ Z.of_nat attempt * 2000
           /\ unlinkedPaths evs = []
       | Throw _ => False
       end.
Proof.
  intros Hown out. subst out. unfold tryCatch.
  change ((res ← attemptBody svc path attempt; mret (Some (Some res))) st)
    with (match attemptBody svc path attempt st with
          | (Normal a, s') => (Normal (Some (Some a)), s')
          | (Throw e, s') => (Throw e, s')
          end).
  pose proof (attemptBody_calls svc path attempt st) as Hbody. cbn zeta in Hbody.
  destruct (attemptBody svc path attempt st) as [[res|err] st1]; cbn [fst snd] in Hbody.
  - (* the attempt returns *)
    destruct (upload svc attempt) as [u|] eqn:Hu; [|by destruct Hbody as (_ & _ & ? & ?)].
    destruct Hbody as (j & tail & Hj & Htr & -> & Hname).
    exists (bodyCalls path u j (accepted path u)). cbn [fst snd].
    split; [done|]. split; [by rewrite Hname|]. split.
    { unfold deletedNames. rewrite omap_bodyCalls.
      fold (deletedNames (pollRounds j (name u))). rewrite deletedNames_pollRounds.
      cbn. repeat constructor. exists attempt, u. split; [lia|done]. }
    split; [rewrite sleepTotal_bodyCalls; unfold POLL_BUDGET_MS; cbn; lia|].
    split.
    { unfold unlinkedPaths. rewrite omap_bodyCalls.
      fold (unlinkedPaths (pollRounds j (name u))). by rewrite unlinkedPaths_pollRounds. }
    unfold bodyCalls, accepted.
    exact (last_nested [EvUpload path; EvGetFile (name u)] (pollRounds j (name u))
             [EvGenerate (uri u); EvDeleteRemote (name u)] (EvUnlinkChunk path)).
  - (* the attempt throws: the catch block runs *)
    destruct (attemptCatch_calls path retries attempt err st1) as (Hctr & Hcname & Hstep).
    destruct (attemptCatch path retries attempt err st1) as [step st2].
    cbn [fst snd] in Hctr, Hcname, Hstep |- *. subst step.
    assert (exists body,
               trace st1 = trace st ++ body
               /\ sleepTotal body <= POLL_BUDGET_MS
               /\ unlinkedPaths body = []
               /\ Forall (Uploaded svc (S attempt)) (deletedNames body)
               /\ (forall n, geminiFileName st1 = Some n -> Uploaded svc (S attempt) n))
      as (body & Htr & Hsleep & Hunl & Hdel & Hown1).
    { destruct (upload svc attempt) as [u|] eqn:Hu.
      - destruct Hbody as (j & tail & Hj & Htr & Htail).
        assert (Uploaded svc (S attempt) (name u)) as Hme.
        { exists attempt, u. split; [lia|done]. }
        exists (bodyCalls path u j tail). split; [done|].
        rewrite sleepTotal_bodyCalls. unfold unlinkedPaths, deletedNames.
        rewrite !omap_bodyCalls.
        fold (unlinkedPaths (pollRounds j (name u))).
        fold (deletedNames (pollRounds j (name u))).
        rewrite unlinkedPaths_pollRounds, deletedNames_pollRounds.
        unfold POLL_BUDGET_MS.
        destruct Htail as [[[->| ->] Hname]|[-> Hname]]; cbn;
          (split; [lia|]); (split; [done|]); rewrite Hname;
          (split; [by repeat constructor|]); by intros n [= <-].
      - destruct Hbody as (Htr & Hname & _). exists [EvUpload path].
        split; [done|]. split; [done|]. split; [done|]. split; [constructor|].
        intros n Hn. rewrite Hname in Hn.
        apply (Uploaded_mono svc attempt); [lia|by apply Hown]. }
    eexists (body ++ catchCalls path retries attempt err (geminiFileName st1)).
    rewrite Hctr, Htr, <- app_assoc. split; [done|].
    rewrite Hcname. split; [done|]. split.
    { unfold deletedNames. rewrite omap_app. apply Forall_app. split; [done|].
      unfold catchCalls. cbn.
      destruct (truthyName (geminiFileName st1)) as [stale|] eqn:Hstale; cbn;
        destruct (Nat.eqb attempt retries); cbn; repeat constructor;
        apply Hown1; by apply truthyName_Some. }
    unfold unlinkedPaths. rewrite sleepTotal_app, omap_app.
    fold (unlinkedPaths body). rewrite Hunl. unfold catchCalls.
    assert (0 < 2 ^ Z.of_nat attempt) as Hpow by (apply Z.pow_pos_nonneg; lia).
    destruct (Nat.eqb_spec attempt retries) as [Heq|Hne];
      destruct (truthyName (geminiFileName st1)) as [stale|]; cbn.
    + split; [done|]. split; [lia|]. split; [done|]. by rewrite last_app.
    + split; [done|]. split; [lia|]. split; [done|]. by rewrite last_app.
    + split; [done|]. split; [lia|done].
    + split; [done|]. split; [lia|done].
Qed.

Lemma attemptLoop_S svc path retries remaining attempt st :
  attemptLoop svc path retries (S remaining) attempt st
  = match tryCatch (res ← attemptBody svc path attempt; mret (Some (Some res)))
            (attemptCatch path retries attempt) st with
    | (Normal (Some r), st') => (Normal r, st')
    | (Normal None, st') => attemptLoop svc path retries remaining (S attempt) st'
    | (Throw e, st') => (Throw e, st')
    end.
Proof.
  cbn [attemptLoop]. unfold mbind at 1. unfold M_bind, bind.
  by destruct (tryCatch _ _ st) as [[[r|]|] st'].
Qed.

(** The whole retry loop, from attempt [attempt] on. *)
Lemma attemptLoop_calls svc path retries remaining :
  forall attempt st,
    (attempt + remaining = S retries)%nat -> (0 < remaining)%nat ->
    (forall n, geminiFileName st = Some n -> Uploaded svc attempt n) ->
    exists evs,
      trace (snd (attemptLoop svc path retries remaining attempt st)) = trace st ++ evs
      /\ sleepTotal evs
         <= Z.of_nat remaining * POLL_BUDGET_MS
            + (2 ^ Z.of_nat retries - 2 ^ Z.of_nat attempt) * 2000
      /\ unlinkedPaths evs = [path]
      /\ last evs = Some (EvUnlinkChunk path)
      /\ Forall (Uploaded svc (S retries)) (deletedNames evs).
Proof.
  induction remaining as [|remaining IH]; intros attempt st Hsum Hpos Hown; [lia|].
  rewrite attemptLoop_S.
  destruct (iteration_calls svc path retries attempt st Hown)
    as (evs & Htr & Hown1 & Hdel & Hcase).
  assert (2 ^ Z.of_nat attempt <= 2 ^ Z.of_nat retries) as Hpow
    by (apply Z.pow_le_mono_r; lia).
  assert (Forall (Uploaded svc (S retries)) (deletedNames evs)) as Hdel'.
  { eapply Forall_impl; [exact Hdel|]. intros n. apply Uploaded_mono. lia. }
  destruct (tryCatch _ _ st) as [[[[r|]|]|] st1]; cbn [fst snd] in Htr, Hown1, Hcase |- *;
    [| | |done].
  - destruct Hcase as (Hsleep & Hunl & Hlast). exists evs.
    unfold POLL_BUDGET_MS in *. repeat split; try done. nia.
  - destruct Hcase as (-> & Hsleep & Hunl & Hlast). exists evs.
    unfold POLL_BUDGET_MS in *. repeat split; try done. nia.
  - destruct Hcase as (Hne & Hsleep & Hunl).
    destruct (IH (S attempt) st1 ltac:(lia) ltac:(lia) Hown1)
      as (evs' & Htr' & Hsleep' & Hunl' & Hlast' & Hdel'').
    exists (evs ++ evs'). rewrite Htr', Htr, <- app_assoc. split; [done|].
    unfold unlinkedPaths, deletedNames in *.
    rewrite sleepTotal_app, !omap_app, Hunl, Hunl'. split.
    { replace (Z.of_nat (S attempt)) with (Z.of_nat attempt + 1) in Hsleep' by lia.
      rewrite Z.pow_add_r in Hsleep' by lia. unfold POLL_BUDGET_MS in *. lia. }
    split; [done|]. split.
    { rewrite last_app, Hlast'. done. }
    apply Forall_app. done.
Qed.

(** An attempt whose upload stays in processing. *)
Lemma attemptBody_timeout svc path attempt st u :
  upload svc attempt = Normal u ->
  (forall k, (k <= 60)%nat -> getFile svc attempt k = Normal PROCESSING) ->
  attemptBody svc path attempt st
  = (Throw "File state: PROCESSING",
     {| geminiFileName := Some (name u);
        trace := trace st ++ bodyCalls path u 60 [] |}).
Proof.
  intros Hu Hbusy. unfold attemptBody. run_step. cbn. rewrite Hu. cbn.
  rewrite (Hbusy 0%nat) by lia. cbn.
  rewrite waitLoop_timeout by (intros i Hi; apply Hbusy; lia).
  cbn. unfold bodyCalls. by rewrite <- !app_assoc, app_nil_r.
Qed.

(** The loop against a service on which no upload ever leaves processing. *)
Lemma attemptLoop_stuck svc path retries remaining :
  (forall k, (k <= retries)%nat -> exists u, upload svc k = Normal u) ->
  (forall a k, getFile svc a k = Normal PROCESSING) ->
  forall attempt st,
    (attempt + remaining = S retries)%nat -> (0 < remaining)%nat ->
    exists evs,
      attemptLoop svc path retries remaining attempt st
      = (Normal None,
         {| geminiFileName := geminiFileName (snd (attemptLoop svc path retries remaining
                                                     attempt st));
            trace := trace st ++ evs |})
      /\ sleepTotal evs
         = Z.of_nat remaining * POLL_BUDGET_MS
           + (2 ^ Z.of_nat retries - 2 ^ Z.of_nat attempt) * 2000.
Proof.
  intros Hup Hbusy.
  induction remaining as [|remaining IH]; intros attempt st Hsum Hpos; [lia|].
  rewrite attemptLoop_S. unfold tryCatch.
  change ((res ← attemptBody svc path attempt; mret (Some (Some res))) st)
    with (match attemptBody svc path attempt st with
          | (Normal a, s') => (Normal (Some (Some a)), s')
          | (Throw e, s') => (Throw e, s')
          end).
  destruct (Hup attempt ltac:(lia)) as [u Hu].
  rewrite (attemptBody_timeout svc path attempt st u Hu) by (intros; apply Hbusy).
  match goal with |- context [attemptCatch ?p ?r ?a ?e ?s] =>
    destruct (attemptCatch_calls p r a e s) as (Hctr & Hcname & Hstep);
    destruct (attemptCatch p r a e s) as [step st2]
  end.
  cbn [fst snd trace geminiFileName] in Hctr, Hcname, Hstep. subst step.
  destruct (Nat.eqb_spec attempt retries) as [->|Hne].
  - assert (remaining = 0%nat) as -> by lia.
    eexists. cbn [fst snd]. split.
    { destruct st2 as [g t]. cbn in Hctr |- *. rewrite Hctr, <- app_assoc. done. }
    rewrite sleepTotal_app, sleepTotal_bodyCalls. unfold catchCalls, POLL_BUDGET_MS.
    rewrite Nat.eqb_refl.
    destruct (truthyName (Some (name u))); cbn; lia.
  - destruct (IH (S attempt) st2 ltac:(lia) ltac:(lia)) as (evs' & Hrun & Hsleep).
    eexists. split.
    { rewrite Hrun at 1. cbn [snd geminiFileName]. rewrite Hctr, <- !app_assoc. done. }
    rewrite !sleepTotal_app, sleepTotal_bodyCalls, Hsleep.
    unfold catchCalls, POLL_BUDGET_MS.
    destruct (Nat.eqb_spec attempt retries) as [|_]; [done|].
    replace (Z.of_nat (S attempt)) with (Z.of_nat attempt + 1) by lia.
    rewrite Z.pow_add_r by lia.
    destruct (truthyName (Some (name u))); cbn; lia.
Qed.

End TraceFacts.

Module ChunkProperties.
Import StringSpec TimestampSpec SplitterSpec ChunkSpec MergeSpec PipelineSpec.
Import Effect Transcript Directus JsString AudioChunks Gemini.
Import ChunkFacts TraceSpec TraceFacts.

#[local] Arguments waitLoop : simpl never.

(** X1.  Polling is bounded.  One attempt sleeps at most 60 times while it
    waits for the uploaded file, 2000 ms each time, and asks for the file's
    state at most once more than it sleeps: at most 120 s of waiting.  An
    upload that is still in processing at the 61st answer makes the attempt
    throw [File state: PROCESSING], after exactly 60 sleeps and without a
    generation request. *)
Theorem polling_is_bounded svc path attempt st :
  let out := attemptBody svc path attempt st in
  exists evs j,
    trace (snd out) = trace st ++ evs
    /\ (j <= 60)%nat
    /\ sleeps evs = replicate j 2000
    /\ (length (polled evs) <= S j)%nat
    /\ sleepTotal evs <= POLL_BUDGET_MS
    /\ (forall u,
          upload svc attempt = Normal u ->
          (forall k, (k <= 60)%nat -> getFile svc attempt k = Normal PROCESSING) ->
          fst out = Throw "File state: PROCESSING"
          /\ j = 60%nat
          /\ evs = bodyCalls path u 60 []).
Proof.
  intros out. subst out.
  pose proof (attemptBody_calls svc path attempt st) as Hbody. cbn zeta in Hbody.
  destruct (upload svc attempt) as [u|err] eqn:Hu.
  - destruct Hbody as (j & tail & Hj & Htr & Htail).
    assert (sleeps tail = [] /\ polled tail = [] /\ sleepTotal tail = 0) as (Hs & Hp & Ht).
    { destruct (fst (attemptBody svc path attempt st)).
      - by destruct Htail as [-> _].
      - by destruct Htail as [[[->| ->] _]|[-> _]]. }
    exists (bodyCalls path u j tail), j. split; [done|]. split; [done|].
    unfold sleeps, polled. rewrite !omap_bodyCalls, sleepTotal_bodyCalls.
    fold (sleeps (pollRounds j (name u))) (polled (pollRounds j (name u))).
    fold (sleeps tail) (polled tail).
    rewrite sleeps_pollRounds, polled_pollRounds, Hs, Hp, Ht. cbn.
    rewrite !app_nil_r. split; [done|].
    split; [by rewrite length_replicate|].
    split; [unfold POLL_BUDGET_MS; lia|].
    intros u' [= <-] Hbusy.
    (* the run against a file that stays in processing *)
    assert (attemptBody svc path attempt st
            = (Throw "File state: PROCESSING",
               {| geminiFileName := Some (name u);
                  trace := trace st ++ bodyCalls path u 60 [] |})) as Hrun.
    { unfold attemptBody. run_step. cbn. rewrite Hu. cbn.
      rewrite (Hbusy 0%nat) by lia. cbn.
      rewrite waitLoop_timeout by (intros i Hi; apply Hbusy; lia).
      cbn. unfold bodyCalls. by rewrite <- !app_assoc, app_nil_r. }
    rewrite Hrun in Htr |- *. cbn [fst snd trace] in Htr |- *.
    apply app_inv_head in Htr. split; [done|].
    assert (j = 60%nat) as ->.
    { apply (f_equal sleeps) in Htr. unfold sleeps in Htr.
      rewrite !omap_bodyCalls in Htr.
      fold (sleeps (pollRounds 60 (name u))) (sleeps (pollRounds j (name u))) in Htr.
      fold (sleeps tail) in Htr.
      rewrite !sleeps_pollRounds, Hs in Htr. cbn [omap app] in Htr.
      apply (f_equal length) in Htr.
      rewrite !length_app, !length_replicate in Htr. cbn in Htr. lia. }
    split; [done|]. by symmetry.
  - destruct Hbody as (Htr & _ & _). exists [EvUpload path], 0%nat.
    split; [done|]. split; [lia|]. split; [done|]. split; [cbn; lia|].
    split; [done|]. by intros u.
Qed.

(** X2.  The time a chunk can spend asleep is bounded.  Over all its
    attempts a [runSingleChunk] call sleeps at most
    [(retries + 1) * 120000 + (2^retries - 1) * 2000] ms, polling and
    back-off together: 366 s with the default of two retries.  The bound is
    reached: against a service whose uploads never leave [PROCESSING] the
    call sleeps for exactly that long and then returns [null]. *)
Theorem chunk_sleep_budget svc path retries st :
  exists evs,
    trace (snd (runSingleChunk svc path retries st)) = trace st ++ evs
    /\ sleepTotal evs <= sleepBudget retries
    /\ sleepBudget DEFAULT_RETRIES = 366000
    /\ ((forall k, (k <= retries)%nat -> exists u, upload svc k = Normal u) ->
        (forall a k, getFile svc a k = Normal PROCESSING) ->
        sleepTotal evs = sleepBudget retries
        /\ fst (runSingleChunk svc path retries st) = Normal None).
Proof.
  unfold runSingleChunk. unfold mbind, M_bind, bind, setGeminiFileName, modify.
  set (st1 := {| geminiFileName := None; trace := trace st |}).
  destruct (attemptLoop_calls svc path retries (S retries) 0 st1 eq_refl ltac:(lia))
    as (evs & Htr & Hsleep & _); [done|].
  exists evs. split; [done|].
  change (2 ^ Z.of_nat 0) with 1 in Hsleep.
  split; [unfold sleepBudget; lia|]. split; [done|].
  intros Hup Hbusy.
  destruct (attemptLoop_stuck svc path retries (S retries) Hup Hbusy 0 st1 eq_refl
              ltac:(lia)) as (evs' & Hrun & Hsleep').
  rewrite Hrun in Htr |- *. cbn [fst snd trace] in Htr |- *.
  apply app_inv_head in Htr. subst evs'. split; [|done].
  rewrite Hsleep'. unfold sleepBudget. change (2 ^ Z.of_nat 0) with 1. lia.
Qed.

(** X3.  The chunk's local file is deleted exactly once.  Whatever the
    service does, a [runSingleChunk] call unlinks [filePath] once and no
    other file, and the unlink is the last call it makes. *)
Theorem chunk_file_deleted_once svc path retries st :
  exists evs,
    trace (snd (runSingleChunk svc path retries st)) = trace st ++ evs
    /\ unlinkedPaths evs = [path]
    /\ last evs = Some (EvUnlinkChunk path).
Proof.
  unfold runSingleChunk. unfold mbind, M_bind, bind, setGeminiFileName, modify.
  set (st1 := {| geminiFileName := None; trace := trace st |}).
  destruct (attemptLoop_calls svc path retries (S retries) 0 st1 eq_refl ltac:(lia))
    as (evs & Htr & _ & Hunl & Hlast & _); [done|].
  by exists evs.
Qed.

(** X4.  Only the call's own uploads are deleted.  Every remote file a
    [runSingleChunk] call deletes carries a name that one of its own uploads
    returned; the value of [geminiFileName] left by an earlier call or
    attempt is never deleted unless this call uploaded it. *)
Theorem deletes_only_own_uploads svc path retries st :
  exists evs,
    trace (snd (runSingleChunk svc path retries st)) = trace st ++ evs
    /\ forall fileName,
         fileName ∈ deletedNames evs ->
         exists k u, (k <= retries)%nat /\ upload svc k = Normal u /\ name u = fileName.
Proof.
  unfold runSingleChunk. unfold mbind, M_bind, bind, setGeminiFileName, modify.
  set (st1 := {| geminiFileName := None; trace := trace st |}).
  destruct (attemptLoop_calls svc path retries (S retries) 0 st1 eq_refl ltac:(lia))
    as (evs & Htr & _ & _ & _ & Hdel); [done|].
  exists evs. split; [done|]. intros fileName Hin.
  rewrite Forall_forall in Hdel. destruct (Hdel fileName Hin) as (k & u & Hk & Hu & Hn).
  exists k, u. split; [lia|done].
Qed.

End ChunkProperties.

(** ** The writes of [runGeminiTranscription] *)

Module RunFacts.
Import StringSpec TimestampSpec SplitterSpec ChunkSpec MergeSpec PipelineSpec.
Import Effect Transcript Directus JsString AudioChunks Gemini.
Import ChunkFacts MergeFacts PipelineFacts RunSpec.






Lemma windowLoop_windows run chunkPaths totalChunks budget :
  forall i st w,
    windowLoop run chunkPaths totalChunks budget i st w
    = runWindows run chunkPaths totalChunks (windowsFrom totalChunks budget i) st w.
Proof.
  induction budget as [|budget IH]; intros i st w; [done|].
  cbn [windowLoop windowsFrom]. destruct (Nat.ltb i totalChunks); [|done].
  cbn [runWindows]. rewrite !bind_run.
  destruct (processBatch _ _ _ _ st w) as [[st1|e] w1]; [apply IH|done].
Qed.

Lemma windowsFrom_concat totalChunks budget :
  forall i,
    (i <= totalChunks)%nat ->
    (totalChunks <= i + CONCURRENCY * budget)%nat ->
    concat (windowsFrom totalChunks budget i) = seq i (totalChunks - i)
    /\ Forall (fun indices => (1 <= length indices <= CONCURRENCY)%nat)
         (windowsFrom totalChunks budget i)
    /\ length (windowsFrom totalChunks budget i) = ((totalChunks - i + 1) / 2)%nat.
Proof.
  unfold CONCURRENCY.
  induction budget as [|budget IH]; intros i Hi Hbudget.
  - replace (totalChunks - i)%nat with 0%nat by lia. done.
  - cbn [windowsFrom]. destruct (Nat.ltb_spec i totalChunks) as [Hlt|Hge].
    2:{ replace (totalChunks - i)%nat with 0%nat by lia. done. }
    unfold windowIndices at 1 2 3, CONCURRENCY.
    destruct (decide (i + 2 <= totalChunks)%nat) as [Htwo|Hone].
    + destruct (IH (i + 2)%nat ltac:(lia) ltac:(unfold CONCURRENCY; lia))
        as (Hcat & Hall & Hlen).
      cbn [concat length]. rewrite Hcat, Hlen.
      replace (Nat.min 2 (totalChunks - i)) with 2%nat by lia.
      split.
      { replace (totalChunks - i)%nat with (2 + (totalChunks - (i + 2)))%nat by lia.
        by rewrite seq_app. }
      split; [constructor; [rewrite length_seq; lia|done]|].
      replace (totalChunks - i + 1)%nat with ((totalChunks - (i + 2) + 1) + 1 * 2)%nat
        by lia.
      rewrite Nat.div_add by lia. lia.
    + assert (totalChunks = S i) as -> by lia.
      replace (S i - i)%nat with 1%nat by lia. cbn [Nat.min seq].
      assert (windowsFrom (S i) budget (i + 2) = []) as ->.
      { destruct budget as [|budget]; cbn [windowsFrom]; [done|].
        destruct (Nat.ltb_spec (i + 2) (S i)) as [Hbad|_]; [lia|done]. }
      split; [done|]. split; [repeat constructor; cbn; lia|done].
Qed.

End RunFacts.

Module RunProperties.
Import StringSpec TimestampSpec SplitterSpec ChunkSpec MergeSpec PipelineSpec.
Import Effect Transcript Directus JsString AudioChunks Gemini.
Import ChunkFacts MergeFacts PipelineFacts RunSpec RunFacts Scenarios.




(** X7.  A failure while splitting ends the run as failed.  If
    [splitAudioIntoChunks] throws and the store accepts the three writes the
    run then makes, the run returns with the task [failed] under the thrown
    message; it has written the two opening progress messages and the
    [failed] status, has dispatched no chunk, and has unlinked the source
    file as its last action. *)
Theorem split_failure_marks_failed run tempFilePath w e :
  apiKey run = true ->
  splitResult run = Throw e ->
  (forall k, (k < 3)%nat -> storeReply w (requests w + k) = Accepted) ->
  let out := runGeminiTranscription run tempFilePath w in
  fst out = Normal tt
  /\ status (task (snd out)) = failed
  /\ error_message (task (snd out)) = Some e
  /\ result (task (snd out)) = result (task w)
  /\ requests (snd out) = (requests w + 3)%nat
  /\ events (snd out)
     = events w ++ [message "Анализ аудиофайла..."; message "Подготовка фрагментов...";
                    EvUpdateTask (failure e); EvUnlink tempFilePath].
Proof.
  intros Hkey Hsplit Hacc. cbn zeta.
  assert (storeReply w (requests w) = Accepted) as H0
    by (rewrite <- (Hacc 0%nat) by lia; f_equal; lia).
  assert (storeReply w (S (requests w)) = Accepted) as H1
    by (rewrite <- (Hacc 1%nat) by lia; f_equal; lia).
  assert (storeReply w (S (S (requests w))) = Accepted) as H2
    by (rewrite <- (Hacc 2%nat) by lia; f_equal; lia).
  assert (runGeminiTranscription run tempFilePath w
          = (Normal tt,
             snd (unlink tempFilePath
                    (issue (issue (issue w (progress "Анализ аудиофайла..."))
                              (progress "Подготовка фрагментов..."))
                       (failure e))))) as ->.
  { unfold runGeminiTranscription. rewrite Hkey. cbn [negb].
    unfold tryCatch, pipelineBody. cbn zeta. rewrite !bind_run, updateTask_run, H0.
    cbn [replyCompletion]. rewrite !bind_run, updateTask_run.
    cbn [storeReply requests issue]. rewrite H1. cbn [replyCompletion].
    rewrite !bind_run. unfold await. rewrite Hsplit. cbn beta iota.
    rewrite bind_run, updateTask_run. cbn [storeReply requests issue].
    rewrite H2. cbn [replyCompletion]. by rewrite unlink_run. }
  rewrite unlink_run. cbn [fst snd task requests events issue storeReply].
  rewrite H0, H1, H2. cbn. rewrite <- !app_assoc.
  destruct (task w). cbn. repeat split; try done. lia.
Qed.

Lemma split_failure_marks_failed_witness :
  let out := runGeminiTranscription brokenSplitRun "in.mp3" (startWorld alwaysAccepted) in
  status (task (snd out)) = failed
  /\ error_message (task (snd out)) = Some "ffmpeg exited with code 1"
  /\ last (events (snd out)) = Some (EvUnlink "in.mp3").
Proof.
  intros out.
  destruct (split_failure_marks_failed brokenSplitRun "in.mp3" (startWorld alwaysAccepted)
              "ffmpeg exited with code 1")
    as (_ & Hstatus & Hmsg & _ & _ & Hev); [reflexivity|reflexivity|done|].
  split; [exact Hstatus|]. split; [exact Hmsg|]. subst out. by rewrite Hev.
Defined.

(** X8.  Every chunk is processed in exactly one window.  The loop of
    [runGeminiTranscription] is a walk over a list of windows; taken together
    the windows list the chunk indices [0 .. n-1] once each, in increasing
    order; a window holds one or two indices, so at most [CONCURRENCY] = 2
    chunks are in flight; and there are [ceil(n / 2)] windows. *)
Theorem windows_partition run chunkPaths st :
  let n := length chunkPaths in
  let windows := windowsFrom n n 0 in
  (forall w, windowLoop run chunkPaths n n 0 st w = runWindows run chunkPaths n windows st w)
  /\ concat windows = seq 0 n
  /\ Forall (fun indices => (1 <= length indices <= CONCURRENCY)%nat) windows
  /\ length windows = ((n + 1) / 2)%nat.
Proof.
  intros n windows. split; [intros w; apply windowLoop_windows|].
  destruct (windowsFrom_concat n n 0) as (Hcat & Hall & Hlen).
  - lia.
  - unfold CONCURRENCY. lia.
  - rewrite Nat.sub_0_r in Hcat, Hlen. done.
Qed.

(** X9.  The percentage in a progress message, computed in doubles as the
    code computes it.  In a run over at most 64 chunks, the message after
    the [c]-th completion reports a percentage between 15 and 90; the
    percentage does not fall as chunks complete; and the last one is 90: a
    run never reports more than 90 percent before it writes its final
    status. *)
Theorem percent_range completedChunks totalChunks :
  (0 < totalChunks <= 64)%nat ->
  (completedChunks <= totalChunks)%nat ->
  exists pct,
    percent completedChunks totalChunks = Some pct
    /\ 15 <= pct <= 90
    /\ percent totalChunks totalChunks = Some 90
    /\ forall earlier, (earlier <= completedChunks)%nat ->
         exists before, percent earlier totalChunks = Some before /\ before <= pct.
Proof.
  intros Ht Hc.
  assert (forallb steadyPercent (seq 1 64) = true) as Hall by (vm_compute; reflexivity).
  rewrite forallb_forall in Hall.
  specialize (Hall totalChunks ltac:(apply in_seq; lia)).
  unfold steadyPercent in Hall.
  apply andb_prop in Hall as [Hall Hlast]. apply andb_prop in Hall as [Hsteps Hfirst].
  apply bool_decide_eq_true in Hlast, Hfirst. rewrite forallb_forall in Hsteps.
  assert (forall c, (c < totalChunks)%nat ->
            exists a b, percent c totalChunks = Some a
                        /\ percent (S c) totalChunks = Some b
                        /\ 15 <= a /\ a <= b /\ b <= 90) as Hstep.
  { intros c Hlt. specialize (Hsteps c ltac:(apply in_seq; lia)).
    destruct (percent c totalChunks) as [a|]; [|done].
    destruct (percent (S c) totalChunks) as [b|]; [|done].
    exists a, b. rewrite !andb_true_iff, !Z.leb_le in Hsteps. by intuition. }
  cut (exists pct,
         percent completedChunks totalChunks = Some pct
         /\ 15 <= pct <= 90
         /\ forall earlier, (earlier <= completedChunks)%nat ->
              exists before, percent earlier totalChunks = Some before /\ before <= pct).
  { intros (pct & Hpct & Hrange & Hmono). by exists pct. }
  induction completedChunks as [|c IH].
  - exists 15. split; [done|]. split; [lia|]. intros earlier Hle.
    assert (earlier = 0%nat) as -> by lia. by exists 15.
  - destruct (IH ltac:(lia)) as (a' & Ha' & Hrange & Hmono).
    destruct (Hstep c ltac:(lia)) as (a & b & Ha & Hb & Hlow & Hab & Hhigh).
    assert (a' = a) as -> by congruence.
    exists b. split; [done|]. split; [lia|]. intros earlier Hle.
    destruct (decide (earlier = S c)) as [->|Hne]; [by exists b|].
    destruct (Hmono earlier ltac:(lia)) as (before & Hbefore & Hba).
    exists before. split; [done|lia].
Qed.

Lemma percent_range_witness :
  (0 < 3 <= 64)%nat /\ (2 <= 3)%nat
  /\ (exists pct, percent 2 3 = Some pct /\ 15 <= pct <= 90)
  /\ percent 1 3 = Some 40 /\ percent 2 3 = Some 65 /\ percent 3 3 = Some 90
  /\ percent 11 30 = Some 42.
Proof.
  split; [lia|]. split; [lia|].
  destruct (percent_range 2 3) as (pct & Hpct & Hrange & _); [lia|lia|].
  split; [exists pct; split; [exact Hpct|exact Hrange]|].
  repeat split; vm_compute; reflexivity.
Defined.

End RunProperties.

(** ** The order of the merged segments *)

Module ChronologyFacts.
Import StringSpec TimestampSpec SplitterSpec ChunkSpec MergeSpec PipelineSpec.
Import Effect Transcript Directus JsString AudioChunks Gemini.
Import JsStringFacts TimestampFacts MergeFacts PipelineFacts ChronologySpec.

Lemma adjusted_start fn off seg T merged :
  startSeconds seg = Some T ->
  0 <= off -> T + off <= MAX_SAFE_INTEGER ->
  adjustSegment fn off seg = Normal merged ->
  startSeconds merged = Some (T + off) /\ Timed merged.
Proof.
  intros Hsec Hoff Hmax. unfold startSeconds in *. unfold adjustSegment.
  destruct (seg_start seg) as [t|]; [|done]. cbn.
  destruct (seg_end seg) as [t'|]; [|done]. cbn. intros [= <-]. cbn.
  rewrite (applyOffset_model fn _ _ _ (addOffset_total _ _ _ Hsec Hoff Hmax)).
  split; [|by eexists _, _].
  apply timecodeSeconds_range in Hsec. apply timecodeSeconds_render. lia.
Qed.

Lemma adjusted_starts fn off segs starts :
  StartsAt segs starts ->
  Forall (fun T => T < CHUNK_DURATION_SEC) starts ->
  0 <= off -> off + CHUNK_DURATION_SEC <= MAX_SAFE_INTEGER ->
  exists out,
    adjustAll fn off segs = Normal out
    /\ StartsAt out ((fun T => T + off) <$> starts).
Proof.
  intros Hstarts Hin Hoff Hmax. unfold StartsAt in *.
  induction Hstarts as [|seg T segs starts [Hseg Htimed] _ IH].
  { exists []. split; [done|constructor]. }
  apply Forall_cons in Hin as [HT Hin]. cbn [adjustAll fmap list_fmap].
  destruct (proj1 (adjustSegment_timed fn off seg) Htimed) as [merged Hmerged].
  destruct (IH Hin) as (out & Hout & Hall). rewrite Hmerged, Hout. cbn.
  eexists. split; [done|]. constructor; [|done].
  eapply adjusted_start; [done|done|lia|done].
Qed.

Lemma shifted_sorted off starts :
  StronglySorted Z.le starts -> StronglySorted Z.le ((fun T => T + off) <$> starts).
Proof.
  induction 1 as [|T starts _ IH Hall]; cbn [fmap list_fmap]; constructor; [done|].
  apply Forall_fmap. eapply Forall_impl; [exact Hall|]. intros T' HT'. cbn. lia.
Qed.

Lemma StartsAt_nonnegative segs starts :
  StartsAt segs starts -> Forall (fun T => 0 <= T) starts.
Proof.
  induction 1 as [|seg T segs starts [Hseg _] _ IH]; constructor; [|done].
  unfold startSeconds in Hseg. destruct (seg_start seg) as [t|]; [|done].
  apply timecodeSeconds_range in Hseg. lia.
Qed.

(** The merged segments of the results from index [j] on: the merge
    returns them, in order, and none before the start of chunk [j]. *)
Lemma survivors_chronological fn results :
  forall j,
    Z.of_nat (j + length results) * CHUNK_DURATION_SEC <= MAX_SAFE_INTEGER ->
    (forall i r,
       results !! i = Some (Some r) -> hasSegments (Some r) = true ->
       WithinChunk (segmentsOf r)) ->
    exists out starts,
      specSegments fn (survivorsFrom j results) = Normal out
      /\ StartsAt out starts
      /\ StronglySorted Z.le starts
      /\ Forall (fun T => Z.of_nat j * CHUNK_DURATION_SEC <= T) starts.
Proof.
  unfold CHUNK_DURATION_SEC.
  induction results as [|res rest IH]; intros j Hmax Hchunks.
  { exists [], []. split; [done|]. split; [constructor|]. split; constructor. }
  cbn [survivorsFrom length] in *. rewrite specSegments_app.
  destruct (IH (S j)) as (out2 & starts2 & Hrun2 & Hat2 & Hsorted2 & Hlow2).
  { rewrite <- Hmax. f_equal. lia. }
  { intros i r Hi. apply (Hchunks (S i) r Hi). }
  assert (Forall (fun T => Z.of_nat j * 600 <= T) starts2) as Hlow2'.
  { eapply Forall_impl; [exact Hlow2|]. intros T HT. cbn in HT. lia. }
  assert (exists out1 starts1,
            specSegments fn match res with
                            | Some r => if hasSegments res then [(j, r)] else []
                            | None => []
                            end = Normal out1
            /\ StartsAt out1 starts1
            /\ StronglySorted Z.le starts1
            /\ Forall (fun T => Z.of_nat j * 600 <= T < Z.of_nat (S j) * 600) starts1)
    as (out1 & starts1 & Hrun1 & Hat1 & Hsorted1 & Hin1).
  { destruct res as [r|];
      [|exists [], []; split; [done|]; split; [constructor|split; constructor]].
    destruct (hasSegments (Some r)) eqn:Hseg;
      [|exists [], []; split; [done|]; split; [constructor|split; constructor]].
    destruct (Hchunks 0%nat r eq_refl Hseg) as (starts & Hat & Hsorted & Hin).
    destruct (adjusted_starts fn (Z.of_nat j * 600) (segmentsOf r) starts Hat Hin)
      as (out & Hout & Hshift); [lia|unfold CHUNK_DURATION_SEC; lia|].
    exists out, ((fun T => T + Z.of_nat j * 600) <$> starts).
    cbn [specSegments fst snd]. unfold CHUNK_DURATION_SEC. rewrite Hout. cbn.
    rewrite app_nil_r. split; [done|]. split; [done|].
    split; [by apply shifted_sorted|].
    apply Forall_fmap.
    pose proof (StartsAt_nonnegative _ _ Hat) as Hpos.
    unfold CHUNK_DURATION_SEC in Hin. rewrite Forall_forall in Hpos, Hin.
    apply Forall_forall. intros T HT. specialize (Hpos T HT). specialize (Hin T HT).
    cbn. lia. }
  rewrite Hrun1, Hrun2. cbn.
  exists (out1 ++ out2), (starts1 ++ starts2). split; [done|].
  split; [by apply Forall2_app|]. split.
  - apply StronglySorted_app_2; [|done|done].
    intros x1 x2 Hx1 Hx2. rewrite Forall_forall in Hin1, Hlow2.
    specialize (Hin1 x1 Hx1). specialize (Hlow2 x2 Hx2). cbn in Hlow2. lia.
  - apply Forall_app. split; [|done].
    eapply Forall_impl; [exact Hin1|]. intros T HT. cbn in HT. lia.
Qed.

(** The encoding runs of the splitting loop start at multiples of the chunk
    duration, and there is one chunk path for each. *)
Lemma splitLoop_starts host path D n :
  forall i paths jobs paths' jobs',
    Z.of_nat (length jobs) = i ->
    length paths = length jobs ->
    (forall k job, jobs !! k = Some job -> startSec job = Z.of_nat k * CHUNK_DURATION_SEC) ->
    splitLoop host path D n i paths jobs = SplitDone paths' jobs' ->
    length paths' = length jobs'
    /\ forall k job, jobs' !! k = Some job -> startSec job = Z.of_nat k * CHUNK_DURATION_SEC.
Proof.
  induction n as [|n IH]; intros i paths jobs paths' jobs' Hlen Hpaths Hinv.
  - cbn. by intros [= <- <-].
  - cbn [splitLoop]. cbn zeta.
    destruct (ffmpegRun host path _); [done|].
    apply IH.
    + rewrite length_app. cbn. lia.
    + rewrite !length_app. cbn. lia.
    + intros k job Hk. apply lookup_app_Some in Hk as [Hk|[Hge Hk]]; [by apply Hinv|].
      apply list_lookup_singleton_Some in Hk as [Hk <-]. cbn [startSec].
      f_equal. lia.
Qed.

Lemma split_starts host path chunkPaths jobs :
  splitAudioIntoChunks host path = SplitDone chunkPaths jobs ->
  (jobs = [] /\ (length chunkPaths <= 1)%nat \/ length chunkPaths = length jobs)
  /\ forall k job, jobs !! k = Some job -> startSec job = Z.of_nat k * CHUNK_DURATION_SEC.
Proof.
  unfold splitAudioIntoChunks.
  assert (forall paths : list string,
            (length paths <= 1)%nat ->
            SplitDone paths [] = SplitDone chunkPaths jobs ->
            (jobs = [] /\ (length chunkPaths <= 1)%nat \/ length chunkPaths = length jobs)
            /\ forall k job, jobs !! k = Some job ->
                 startSec job = Z.of_nat k * CHUNK_DURATION_SEC) as Hwhole.
  { intros paths Hlen [= <- <-]. split; [by left|]. by intros k job. }
  destruct (negb (getFfmpeg host)); [apply Hwhole; cbn; lia|].
  destruct (getAudioDuration host path) as [[[D| | |]|]|]; try done;
    try (apply Hwhole; cbn; lia).
  destruct (Qle_bool D chunkQ); [apply Hwhole; cbn; lia|].
  intros Hsplit.
  destruct (splitLoop_starts host path D _ 0 [] [] chunkPaths jobs eq_refl eq_refl
              ltac:(by intros k job) Hsplit) as [Hlen Hstarts].
  split; [by right|done].
Qed.

(** Moving by the chunk's index times the chunk duration is moving by the
    start of the chunk's encoding run. *)
Lemma specSegments_movedByStart fn jobs chunks :
  Forall (fun c => Z.of_nat c.1 * CHUNK_DURATION_SEC = chunkStart jobs c.1) chunks ->
  specSegments fn chunks = movedByStart fn jobs chunks.
Proof.
  induction 1 as [|c chunks Hc _ IH]; [done|]. cbn [specSegments movedByStart].
  by rewrite Hc, IH.
Qed.

End ChronologyFacts.

Module MergeProperties.
Import StringSpec TimestampSpec SplitterSpec ChunkSpec MergeSpec PipelineSpec.
Import Effect Transcript Directus JsString AudioChunks Gemini.
Import JsStringFacts TimestampFacts MergeFacts PipelineFacts ChronologySpec ChronologyFacts Scenarios.

(** X10.  The merged transcript is in chronological order.  If in every
    surviving chunk the segments start in chronological order and within the
    chunk's ten minutes, and the offsets stay safe integers, then the merge
    returns, and the segments of the merged result start in chronological
    order too: the merge neither reorders segments nor lets chunks overlap. *)
Theorem merged_is_chronological fn results :
  Z.of_nat (length results) * CHUNK_DURATION_SEC <= MAX_SAFE_INTEGER ->
  (forall i r,
     results !! i = Some (Some r) -> hasSegments (Some r) = true ->
     WithinChunk (segmentsOf r)) ->
  exists acc,
    mergeLoop fn results (length results) 0 emptyAcc = Normal acc
    /\ Chronological (allSegments acc)
    /\ segments (mergedResult acc) = Some (allSegments acc).
Proof.
  intros Hmax Hchunks. rewrite merge_aggregation_segments.
  destruct (survivors_chronological fn results 0 Hmax Hchunks)
    as (out & starts & Hrun & Hat & Hsorted & _).
  unfold survivors. rewrite Hrun. cbn. eexists. split; [done|].
  split; [by exists starts|done].
Qed.

Lemma merged_is_chronological_witness :
  exists acc,
    mergeLoop modelOffset languageExample 3 0 emptyAcc = Normal acc
    /\ Chronological (allSegments acc)
    /\ (startSeconds <$> allSegments acc) = [Some 1; Some 601; Some 1201].
Proof.
  destruct (merged_is_chronological modelOffset languageExample)
    as (acc & Hrun & Hchron & _).
  - vm_compute. discriminate.
  - intros i r Hi _. exists [1].
    assert (segmentsOf r = oneSegment) as ->.
    { destruct i as [|[|[|i]]]; cbn in Hi; try done; by injection Hi as <-. }
    split; [repeat constructor; by eexists _, _|]. split; repeat constructor.
  - exists acc. split; [exact Hrun|]. split; [exact Hchron|].
    vm_compute in Hrun. injection Hrun as <-. reflexivity.
Defined.

(** X11.  Segments are shifted by where their chunk was cut.  For the
    chunks [splitAudioIntoChunks] returned, the offset the merge adds to the
    timestamps of chunk [i] is the start position of the encoding run that
    wrote chunk [i], and 0 for a source returned unsplit: splitter and merge
    agree on where each chunk begins.  What the merge returns, or throws, is
    what moving each surviving chunk by its start returns or throws. *)
Theorem merge_offsets_match_split host path chunkPaths jobs fn results :
  splitAudioIntoChunks host path = SplitDone chunkPaths jobs ->
  length results = length chunkPaths ->
  (allSegments <$> mergeLoop fn results (length results) 0 emptyAcc)
  = movedByStart fn jobs (survivors results).
Proof.
  intros Hsplit Hlen. rewrite merge_aggregation_segments.
  destruct (split_starts host path chunkPaths jobs Hsplit) as [Hshape Hstarts].
  rewrite <- (specSegments_movedByStart fn jobs).
  { by destruct (specSegments fn (survivors results)). }
  apply Forall_forall. intros [i r] Hin. cbn [fst snd].
  apply elem_of_survivorsFrom in Hin as (_ & Hlook & _). rewrite Nat.sub_0_r in Hlook.
  apply lookup_lt_Some in Hlook. rewrite Hlen in Hlook.
  unfold chunkStart.
  destruct Hshape as [[-> Hone]|Hsame].
  - assert (i = 0%nat) as -> by lia. done.
  - destruct (lookup_lt_is_Some_2 jobs i ltac:(lia)) as [job Hjob].
    rewrite Hjob. cbn. by rewrite (Hstarts i job Hjob).
Qed.

Lemma merge_offsets_match_split_witness :
  exists chunkPaths jobs,
    splitAudioIntoChunks steadyHost "/tmp/a.mp3" = SplitDone chunkPaths jobs
    /\ (chunkStart jobs <$> [0; 1; 2]%nat) = [0; 600; 1200]
    /\ (allSegments <$> mergeLoop modelOffset languageExample 3 0 emptyAcc)
       = movedByStart modelOffset jobs (survivors languageExample).
Proof.
  destruct (splitAudioIntoChunks steadyHost "/tmp/a.mp3") as [chunkPaths jobs| |] eqn:Hsplit;
    try (vm_compute in Hsplit; discriminate).
  exists chunkPaths, jobs. split; [reflexivity|].
  assert (length chunkPaths = 3%nat /\ (chunkStart jobs <$> [0; 1; 2]%nat) = [0; 600; 1200])
    as [Hlen Hstarts].
  { vm_compute in Hsplit. injection Hsplit as <- <-. split; reflexivity. }
  split; [exact Hstarts|].
  apply (merge_offsets_match_split steadyHost "/tmp/a.mp3" chunkPaths jobs modelOffset
           languageExample Hsplit).
  by rewrite Hlen.
Defined.

End MergeProperties.

(** ** Splitting that fails, and cleaning up *)

Module CleanupFacts.
Import StringSpec TimestampSpec SplitterSpec ChunkSpec MergeSpec PipelineSpec.
Import Effect Transcript Directus JsString AudioChunks Gemini.
Import JsStringFacts TimestampFacts SplitterFacts AudioCleanup CleanupSpec.

Lemma removed_app log1 log2 : removed (log1 ++ log2) = removed log1 ++ removed log2.
Proof. apply omap_app. Qed.

Lemma deleteChunkFiles_removed fs chunkPaths originalPath :
  forall log,
    fst (deleteChunkFiles fs chunkPaths originalPath log) = Normal tt
    /\ removed (snd (deleteChunkFiles fs chunkPaths originalPath log))
       = removed log ++ others originalPath chunkPaths.
Proof.
  induction chunkPaths as [|p rest IH]; intros log.
  - cbn. by rewrite app_nil_r.
  - cbn [deleteChunkFiles]. unfold others. rewrite filter_cons.
    unfold mbind, M_bind, bind.
    destruct (String.eqb_spec p originalPath) as [->|Hne].
    + cbn. rewrite decide_False by (intros H; by apply H). apply IH.
    + rewrite decide_True by done.
      unfold tryCatch, unlinkFile, warn, modify.
      destruct (fs (length log)) as [[]|e].
      * destruct (IH (log ++ [FsUnlink p])) as [Hfst Hrem].
        split; [exact Hfst|]. rewrite Hrem, removed_app. cbn.
        by rewrite <- app_assoc.
      * destruct (IH ((log ++ [FsUnlink p]) ++ [FsWarn p e])) as [Hfst Hrem].
        split; [exact Hfst|]. rewrite Hrem, !removed_app. cbn.
        by rewrite app_nil_r, <- app_assoc.
Qed.

(** The chunk paths a finished splitting loop returns are the outputs of
    the encoding runs it made. *)
Lemma splitLoop_outputs host path D n :
  forall i paths jobs paths' jobs',
    paths = output <$> jobs ->
    splitLoop host path D n i paths jobs = SplitDone paths' jobs' ->
    paths' = output <$> jobs'.
Proof.
  induction n as [|n IH]; intros i paths jobs paths' jobs' Hinv.
  - cbn. by intros [= <- <-].
  - cbn [splitLoop]. cbn zeta.
    destruct (ffmpegRun host path _); [done|].
    apply IH. rewrite Hinv, fmap_app. done.
Qed.

(** The loop up to its first failing run. *)
Lemma splitLoop_fails host path D err :
  forall k n i paths jobs,
    (k < n)%nat ->
    (forall j, (j < k)%nat ->
       ffmpegRun host path (plannedJob host path D (i + Z.of_nat j)) = None) ->
    ffmpegRun host path (plannedJob host path D (i + Z.of_nat k)) = Some err ->
    splitLoop host path D n i paths jobs
    = SplitThrows err (jobs ++ (plannedJob host path D <$> indicesFrom i (S k))).
Proof.
  induction k as [|k IH]; intros n i paths jobs Hk Hok Hfail;
    (destruct n as [|n]; [lia|]); cbn [splitLoop]; cbn zeta.
  - rewrite Z.add_0_r in Hfail. unfold plannedJob, chunkPathAt in Hfail.
    cbn zeta in Hfail. rewrite Hfail. cbn. by rewrite Z.add_0_r.
  - pose proof (Hok 0%nat ltac:(lia)) as H0. rewrite Z.add_0_r in H0.
    unfold plannedJob, chunkPathAt in H0. cbn zeta in H0. rewrite H0.
    rewrite (IH n (i + 1) _ _ ltac:(lia)).
    + rewrite (indicesFrom_S i (S k)), fmap_cons, <- app_assoc. done.
    + intros j Hj. replace (i + 1 + Z.of_nat j) with (i + Z.of_nat (S j)) by lia.
      apply Hok. lia.
    + by replace (i + 1 + Z.of_nat k) with (i + Z.of_nat (S k)) by lia.
Qed.

End CleanupFacts.

Module CleanupProperties.
Import StringSpec TimestampSpec SplitterSpec ChunkSpec MergeSpec PipelineSpec.
Import Effect Transcript Directus JsString AudioChunks Gemini.
Import JsStringFacts TimestampFacts SplitterFacts AudioCleanup CleanupSpec CleanupFacts.
Import Scenarios.

(** X12.  Cleaning up spares the source.  [deleteChunkFiles] never throws,
    whatever [unlink] does; it unlinks the listed paths other than
    [originalPath], each as often as it is listed and in list order, and never
    [originalPath].  Called on what [splitAudioIntoChunks] returned it unlinks
    only outputs of the encoding runs that call made: nothing at all when
    the source was returned unsplit. *)
Theorem cleanup_spares_source fs chunkPaths originalPath log :
  let out := deleteChunkFiles fs chunkPaths originalPath log in
  fst out = Normal tt
  /\ removed (snd out) = removed log ++ others originalPath chunkPaths
  /\ (originalPath ∉ others originalPath chunkPaths)
  /\ (forall host jobs,
        splitAudioIntoChunks host originalPath = SplitDone chunkPaths jobs ->
        others originalPath chunkPaths = others originalPath (output <$> jobs)).
Proof.
  cbn zeta. destruct (deleteChunkFiles_removed fs chunkPaths originalPath log) as [Hfst Hrem].
  split; [exact Hfst|]. split; [exact Hrem|]. split.
  { unfold others. rewrite list_elem_of_filter. by intros [Hne _]. }
  intros host jobs. unfold splitAudioIntoChunks.
  assert (others originalPath [originalPath] = []) as Hself.
  { unfold others. rewrite filter_cons, decide_False by (intros H; by apply H). done. }
  destruct (negb (getFfmpeg host)); [by intros [= <- <-]|].
  destruct (getAudioDuration host originalPath) as [[[D| | |]|]|]; try done;
    try (by intros [= <- <-]).
  destruct (Qle_bool D chunkQ); [by intros [= <- <-]|].
  intros Hsplit.
  by rewrite (splitLoop_outputs host originalPath D _ 0 [] [] chunkPaths jobs eq_refl Hsplit).
Qed.

(** X13.  Splitting stops at the first encoding run that fails.  For a
    source longer than one chunk, if the runs for chunks [0 .. k-1] end well
    and the run for chunk [k] ends with an error, [splitAudioIntoChunks]
    throws that error; it has started the runs [0 .. k] and no later one, and
    it returns no chunk path, so the files of the chunks already written are
    left to the caller. *)
Theorem split_stops_at_first_failure host path D k err :
  getAudioDuration host path = Resolved (Some (Finite D)) ->
  (chunkQ < D)%Q ->
  (k < Z.to_nat (Qceiling (D / chunkQ)))%nat ->
  (forall j, (j < k)%nat ->
     ffmpegRun host path (plannedJob host path D (Z.of_nat j)) = None) ->
  ffmpegRun host path (plannedJob host path D (Z.of_nat k)) = Some err ->
  splitAudioIntoChunks host path
  = SplitThrows err (plannedJob host path D <$> indicesFrom 0 (S k)).
Proof.
  intros Hprobe Hlong Hk Hok Hfail. unfold splitAudioIntoChunks.
  rewrite (probed_installed host path _ Hprobe), Hprobe. cbn [negb].
  destruct (Qle_bool D chunkQ) eqn:Hle.
  { apply Qle_bool_iff in Hle. by apply Qle_not_lt in Hle. }
  by rewrite (splitLoop_fails host path D err k _ 0 [] [] Hk Hok Hfail).
Qed.

Lemma split_stops_at_first_failure_witness :
  splitAudioIntoChunks flakyHost "/tmp/a.mp3"
  = SplitThrows "ffmpeg exited with code 1"
      (plannedJob flakyHost "/tmp/a.mp3" 1500 <$> indicesFrom 0 2).
Proof.
  apply (split_stops_at_first_failure flakyHost "/tmp/a.mp3" 1500 1).
  - reflexivity.
  - reflexivity.
  - vm_compute. lia.
  - intros [|j] Hj; [reflexivity|lia].
  - reflexivity.
Defined.

End CleanupProperties.

(** ** Timestamps at the edges *)

Module TimestampEdges.
Import StringSpec TimestampSpec SplitterSpec ChunkSpec MergeSpec PipelineSpec.
Import Effect Transcript Directus JsString AudioChunks Gemini.
Import JsStringFacts TimestampFacts FieldSpec.

Lemma toString_colon_free n : noneOf isColon (toString n) = true.
Proof.
  destruct n as [|p|p].
  - done.
  - apply allDigits_noneOf_colon, (toString_digits (Zpos p)). lia.
  - cbn [toString noneOf]. change (isColon "-") with false. cbn [negb andb].
    apply allDigits_noneOf_colon, (toString_digits (Zpos p)). lia.
Qed.

Lemma twoDigits_colon_free n : noneOf isColon (twoDigits n) = true.
Proof.
  unfold twoDigits, padStart. rewrite noneOf_append, toString_colon_free, andb_true_r.
  apply allDigits_noneOf_colon, allDigits_repeat.
Qed.

Lemma split_fields h m s :
  noneOf isColon h = true -> noneOf isColon m = true -> noneOf isColon s = true ->
  split ":" (colonJoin h m s) = [h; m; s].
Proof.
  intros Hh Hm Hs. unfold colonJoin.
  rewrite (split_field ":" h) by done. rewrite (split_field ":" m) by done.
  by rewrite split_none.
Qed.

(** A negative number is printed with its sign and is never padded. *)
Lemma twoDigits_negative n : n < 0 -> exists digits, twoDigits n = String "-" digits.
Proof.
  destruct n as [|p|p]; [lia|lia|]. intros _.
  unfold twoDigits, padStart. cbn [toString].
  pose proof (toString_nonempty (Zpos p)) as Hne. cbn [toString] in Hne.
  destruct (NilZero.string_of_uint (N.to_uint (N.pos p))) as [|c digits]; [done|].
  by exists (String c digits).
Qed.

Lemma renderSeconds_negative U : U < 0 -> isTimecode (renderSeconds U) = false.
Proof.
  intros HU. unfold isTimecode. rewrite renderSeconds_fields.
  rewrite split_fields by apply twoDigits_colon_free.
  destruct (twoDigits_negative (U / 3600)) as [digits ->]; [|done].
  apply Z.div_lt_upper_bound; lia.
Qed.

(** Text after a third colon does not reach the first three fields. *)
Lemma trimEnd_field p rest :
  noneOf isWhiteSpace p = true ->
  trimEnd (String.append p (String ":" rest)) = String.append p (String ":" (trimEnd rest)).
Proof.
  intros Hp. induction p as [|c p IH]; simpl.
  - destruct (trimEnd rest); reflexivity.
  - simpl in Hp. apply andb_true_iff in Hp as [_ Hp]. rewrite (IH Hp).
    by destruct p.
Qed.

Lemma trimStart_field p rest :
  noneOf isWhiteSpace p = true ->
  trimStart (String.append p (String ":" rest)) = String.append p (String ":" rest).
Proof.
  intros Hp. destruct p as [|c p]; [done|]. simpl.
  simpl in Hp. apply andb_true_iff in Hp as [Hc _].
  by destruct (isWhiteSpace c).
Qed.

Lemma append_field a x y :
  String.append (String.append a (String ":" x)) y
  = String.append a (String ":" (String.append x y)).
Proof.
  induction a as [|c a IH]; [done|].
  change (String c (String.append (String.append a (String ":" x)) y)
          = String c (String.append a (String ":" (String.append x y)))).
  by rewrite IH.
Qed.

End TimestampEdges.

Module TimestampProperties.
Import StringSpec TimestampSpec SplitterSpec ChunkSpec MergeSpec PipelineSpec.
Import Effect Transcript Directus JsString AudioChunks Gemini.
Import JsStringFacts TimestampFacts FieldSpec TimestampEdges.

(** X14.  The offset is added exactly, forwards and backwards.  For a
    timestamp that denotes [T] seconds and an offset of either sign, while
    the numbers stay safe integers: if [T + offsetSec] is not negative the
    result is a timecode that reads back as [T + offsetSec] seconds, so two
    timestamps that differ are still different after the same offset; if
    [T + offsetSec] is negative the function still returns a text, with
    minus signs in it, which is not a timecode: nothing is clamped at zero. *)
Theorem offset_is_exact t T off :
  timecodeSeconds t = Some T ->
  - MAX_SAFE_INTEGER <= off ->
  T + off <= MAX_SAFE_INTEGER ->
  exists r,
    addOffsetToTimestamp t off = Some r
    /\ (0 <= T + off ->
        timecodeSeconds r = Some (T + off)
        /\ isTimecode r = true
        /\ forall t2 T2,
             timecodeSeconds t2 = Some T2 ->
             addOffsetToTimestamp t2 off = Some r -> T2 = T)
    /\ (T + off < 0 -> isTimecode r = false).
Proof.
  intros Hsec Hlow Hhigh. apply timecodeSeconds_range in Hsec as HT.
  assert (forall t' T', timecodeSeconds t' = Some T' ->
            addOffsetToTimestamp t' off
            = (sum ← exact (T' + off); Some (renderSeconds sum))) as Hadd.
  { intros t' T' Hsec'. rewrite addOffset_seconds, Hsec'. cbn.
    rewrite (exact_safe off) by lia. done. }
  exists (renderSeconds (T + off)). split.
  { rewrite (Hadd t T Hsec), exact_safe by lia. done. }
  split.
  - intros Hpos. split; [apply timecodeSeconds_render; lia|].
    split; [by apply isTimecode_render|].
    intros t2 T2 Hsec2 Hadd2. rewrite (Hadd t2 T2 Hsec2) in Hadd2.
    destruct (exact (T2 + off)) as [sum|] eqn:Hsum; [|done].
    apply exact_Some in Hsum as [-> Hrange]. cbn [mbind option_bind] in Hadd2.
    injection Hadd2 as Hrender.
    destruct (Z.lt_ge_cases (T2 + off) 0) as [Hneg|Hnn].
    + pose proof (renderSeconds_negative _ Hneg) as Hno.
      rewrite Hrender, isTimecode_render in Hno by done. done.
    + pose proof (timecodeSeconds_render (T2 + off) ltac:(lia)) as Hback.
      rewrite Hrender, timecodeSeconds_render in Hback by lia.
      injection Hback as Hback. lia.
  - apply renderSeconds_negative.
Qed.

Lemma offset_is_exact_witness :
  timecodeSeconds "00:00:10" = Some 10
  /\ addOffsetToTimestamp "00:00:10" (-5) = Some "00:00:05"
  /\ addOffsetToTimestamp "00:00:10" (-11) = Some "-1:-1:-1"
  /\ exists r,
       addOffsetToTimestamp "00:00:10" (-11) = Some r /\ isTimecode r = false.
Proof.
  split; [reflexivity|]. split; [reflexivity|]. split; [reflexivity|].
  destruct (offset_is_exact "00:00:10" 10 (-11)) as (r & Hr & _ & Hneg).
  - reflexivity.
  - vm_compute. discriminate.
  - vm_compute. discriminate.
  - exists r. split; [exact Hr|]. apply Hneg. lia.
Defined.

(** X15.  Timestamps are read leniently.  A blank timestamp counts as
    [00:00:00], so the result is the offset itself; and whatever follows a
    third colon is ignored, be it more fields or text that is no number. *)
Theorem lenient_timestamps off :
  (forall t,
     trim t = EmptyString -> 0 <= off <= MAX_SAFE_INTEGER ->
     addOffsetToTimestamp t off = Some (renderSeconds off))
  /\ (forall sa sb sc rest,
        allDigits sa = true -> allDigits sb = true -> allDigits sc = true ->
        addOffsetToTimestamp (String.append (colonJoin sa sb sc) (String ":" rest)) off
        = addOffsetToTimestamp (colonJoin sa sb sc) off).
Proof.
  split.
  - intros t Hblank Hoff.
    assert (timecodeSeconds t = Some 0) as Hzero.
    { unfold timecodeSeconds. rewrite Hblank. reflexivity. }
    rewrite addOffset_seconds, Hzero. cbn [mbind option_bind].
    rewrite (exact_safe off) by lia. cbn [mbind option_bind].
    change (0 + off) with off. by rewrite (exact_safe off) by lia.
  - intros sa sb sc rest Ha Hb Hc. unfold addOffsetToTimestamp.
    assert (noneOf isWhiteSpace (colonJoin sa sb sc) = true) as Hclean.
    { apply (split_clean ":"); [done|].
      rewrite (split_colonJoin _ _ _ Ha Hb Hc). cbn.
      by rewrite !allDigits_noneOf_white. }
    rewrite (trim_clean _ Hclean). unfold trim.
    rewrite trimStart_field, trimEnd_field by done.
    assert (split ":" (String.append (colonJoin sa sb sc) (String ":" (trimEnd rest)))
            = sa :: sb :: sc :: split ":" (trimEnd rest)) as ->.
    { unfold colonJoin.
      rewrite !append_field.
      rewrite (split_field ":" sa) by by apply allDigits_noneOf_colon.
      rewrite (split_field ":" sb) by by apply allDigits_noneOf_colon.
      by rewrite (split_field ":" sc) by by apply allDigits_noneOf_colon. }
    rewrite (split_colonJoin _ _ _ Ha Hb Hc). done.
Qed.

End TimestampProperties.

(** ** Timestamps in the SRT export *)

Module ExportFacts.
Import StringSpec TimestampSpec SplitterSpec ChunkSpec MergeSpec PipelineSpec.
Import Effect Transcript Directus JsString AudioChunks Gemini.
Import JsStringFacts TimestampFacts SrtExport.

Lemma list_ascii_append s1 s2 :
  list_ascii_of_string (String.append s1 s2)
  = list_ascii_of_string s1 ++ list_ascii_of_string s2.
Proof.
  induction s1 as [|c s1 IH]; [done|].
  change (c :: list_ascii_of_string (String.append s1 s2)
          = c :: (list_ascii_of_string s1 ++ list_ascii_of_string s2)).
  by rewrite IH.
Qed.

Lemma length_list_ascii s : length (list_ascii_of_string s) = String.length s.
Proof. induction s as [|c s IH]; cbn; [done|by rewrite IH]. Qed.

Lemma isSrtTime_length s : isSrtTime s = true -> String.length s = 12%nat.
Proof.
  unfold isSrtTime. rewrite <- length_list_ascii.
  destruct (list_ascii_of_string s) as [|? [|? [|? [|? [|? [|? [|? [|? [|? [|? [|? [|? [|? ?]]]]]]]]]]]]];
    done.
Qed.

Lemma isDigit_not_dot c : isDigit c = true -> Ascii.eqb c "." = false.
Proof. destruct c as [[] [] [] [] [] [] [] []]; cbn; congruence. Qed.

Lemma allDigits_no_dot s : allDigits s = true -> includesDot s = false.
Proof.
  induction s as [|c s IH]; [done|]. cbn.
  intros [Hc Hs]%andb_prop. by rewrite (isDigit_not_dot c Hc), (IH Hs).
Qed.

Lemma includesDot_append s1 s2 :
  includesDot (String.append s1 s2) = includesDot s1 || includesDot s2.
Proof.
  induction s1 as [|c s1 IH]; [done|].
  change (Ascii.eqb c "." || includesDot (String.append s1 s2)
          = Ascii.eqb c "." || includesDot s1 || includesDot s2).
  by rewrite IH, orb_assoc.
Qed.

Lemma colonJoin_no_dot h m s :
  allDigits h = true -> allDigits m = true -> allDigits s = true ->
  includesDot (colonJoin h m s) = false.
Proof.
  intros Hh Hm Hs. unfold colonJoin.
  rewrite includesDot_append. cbn [includesDot]. rewrite includesDot_append.
  cbn [includesDot]. by rewrite !allDigits_no_dot.
Qed.

(** A field of two digits, as a pair of characters. *)
Lemma clockField_chars s :
  isClockField s = true ->
  exists a b, s = String a (String b EmptyString) /\ isDigit a = true /\ isDigit b = true.
Proof.
  destruct s as [|a [|b [|c s]]]; try done. cbn.
  intros [Ha Hb]%andb_prop. by exists a, b.
Qed.

Lemma twoDigits_clock n : 0 <= n < 100 -> isClockField (twoDigits n) = true.
Proof.
  intros Hn.
  assert (forallb (fun k => isClockField (twoDigits (Z.of_nat k))) (seq 0 100) = true)
    as Hall by (vm_compute; reflexivity).
  rewrite forallb_forall in Hall.
  rewrite <- (Z2Nat.id n) by lia. apply Hall, in_seq. lia.
Qed.

Lemma twoDigits_long n :
  100 <= n <= MAX_SAFE_INTEGER -> (2 < String.length (twoDigits n))%nat.
Proof.
  intros Hn.
  pose proof (padStart_length 2 "0" (toString n)) as Hlen. fold (twoDigits n) in Hlen.
  destruct (twoDigits n) as [|a [|b [|c s]]] eqn:Htwo; cbn in Hlen |- *; try lia.
  (* two characters: the field would read as a number below 100 *)
  assert (isClockField (twoDigits n) = true) as Hclock.
  { pose proof (twoDigits_digits n ltac:(lia)) as Hdig. rewrite Htwo in Hdig |- *.
    cbn in Hdig |- *. by rewrite andb_true_r in Hdig. }
  destruct (clockField_number _ Hclock) as (_ & m & Hm & Hrange).
  unfold twoDigits in Hm. rewrite Number_padStart in Hm by lia.
  injection Hm as <-. lia.
Qed.

End ExportFacts.

Module ExportProperties.
Import StringSpec TimestampSpec SplitterSpec ChunkSpec MergeSpec PipelineSpec.
Import Effect Transcript Directus JsString AudioChunks Gemini.
Import JsStringFacts TimestampFacts SrtExport ExportFacts.

(** X16.  Pipeline timestamps in the SRT export.  A timestamp written by
    [addOffsetToTimestamp] has neither a comma nor a dot, so [toSrtTime]
    appends [,000] to it.  The outcome is a well-formed SRT time, which
    [toSrtTime] then leaves alone, exactly when the timestamp is below 100
    hours; from 100 hours on the hour field has three digits and the text
    exported is not of the form the function itself tests for. *)
Theorem srt_time_of_offset t T off :
  timecodeSeconds t = Some T ->
  0 <= off ->
  T + off <= MAX_SAFE_INTEGER ->
  exists r,
    addOffsetToTimestamp t off = Some r
    /\ toSrtTime r = String.append r ",000"
    /\ (isSrtTime (toSrtTime r) = true <-> T + off < 360000)
    /\ (T + off < 360000 -> toSrtTime (toSrtTime r) = toSrtTime r).
Proof.
  intros Hsec Hoff Hmax. apply timecodeSeconds_range in Hsec as HT.
  exists (renderSeconds (T + off)). split; [by apply addOffset_total|].
  set (U := T + off). assert (0 <= U <= MAX_SAFE_INTEGER) as HU by (unfold U; lia).
  destruct (clock_fields U ltac:(lia)) as (HH & HM & HS & _).
  rewrite renderSeconds_fields.
  set (hh := twoDigits (U / 3600)).
  destruct (clockField_chars _ (twoDigits_clock (Z.rem U 3600 / 60) ltac:(lia)))
    as (m1 & m2 & -> & Hm1 & Hm2).
  destruct (clockField_chars _ (twoDigits_clock (Z.rem U 60) ltac:(lia)))
    as (s1 & s2 & -> & Hs1 & Hs2).
  assert (allDigits hh = true) as Hdig by (apply twoDigits_digits; lia).
  set (r := colonJoin hh (String m1 (String m2 "")) (String s1 (String s2 ""))).
  assert (String.length r = (String.length hh + 6)%nat) as Hlen.
  { unfold r, colonJoin. rewrite length_append. cbn [String.length].
    rewrite length_append. cbn [String.length]. lia. }
  assert (2 <= String.length hh)%nat as Hhh.
  { unfold hh, twoDigits. rewrite padStart_length. lia. }
  assert (isSrtTime r = false) as Hnot.
  { destruct (isSrtTime r) eqn:Hyes; [|done].
    pose proof (isSrtTime_length _ Hyes) as Hl. rewrite Hlen in Hl.
    (* twelve characters: six in the hour field, so the third is a digit *)
    unfold isSrtTime, r, colonJoin in Hyes.
    destruct hh as [|a [|b [|c [|d [|e [|f [|g hh]]]]]]]; cbn in Hl; try lia.
    cbn in Hdig. rewrite !andb_true_iff in Hdig. destruct Hdig as (_ & _ & Hc & _).
    rewrite list_ascii_append in Hyes. cbn [list_ascii_of_string app] in Hyes.
    rewrite (isDigit_not_colon c Hc) in Hyes. by rewrite !andb_false_r in Hyes. }
  assert (includesDot r = false) as Hdot.
  { apply colonJoin_no_dot; [done| |]; cbn; by rewrite ?Hm1, ?Hm2, ?Hs1, ?Hs2. }
  assert (toSrtTime r = String.append r ",000") as Hsrt.
  { unfold toSrtTime. by rewrite Hnot, Hdot. }
  split; [exact Hsrt|]. rewrite Hsrt.
  assert (isSrtTime (String.append r ",000") = true <-> U < 360000) as Hiff.
  { split.
    - intros Hyes. apply isSrtTime_length in Hyes.
      rewrite length_append, Hlen in Hyes. cbn in Hyes.
      destruct (Z.lt_ge_cases U 360000) as [Hsmall|Hbig]; [done|].
      assert (100 <= U / 3600) as Hhours by (apply Z.div_le_lower_bound; lia).
      pose proof (twoDigits_long (U / 3600) ltac:(lia)) as Hlong. fold hh in Hlong. lia.
    - intros Hsmall.
      assert (0 <= U / 3600 < 100) as Hrange.
      { split; [lia|]. apply Z.div_lt_upper_bound; lia. }
      destruct (clockField_chars _ (twoDigits_clock _ Hrange)) as (h1 & h2 & Hh & Hh1 & Hh2).
      unfold r, colonJoin. fold hh in Hh. rewrite Hh. unfold isSrtTime.
      repeat (rewrite list_ascii_append; cbn [list_ascii_of_string app]).
      by rewrite Hh1, Hh2, Hm1, Hm2, Hs1, Hs2. }
  split; [exact Hiff|].
  intros Hsmall. apply Hiff in Hsmall. unfold toSrtTime at 1. by rewrite Hsmall.
Qed.

Lemma srt_time_of_offset_witness :
  timecodeSeconds "00:09:58" = Some 598
  /\ exists r,
       addOffsetToTimestamp "00:09:58" 600 = Some r
       /\ toSrtTime r = "00:19:58,000"
       /\ isSrtTime (toSrtTime r) = true.
Proof.
  split; [reflexivity|].
  destruct (srt_time_of_offset "00:09:58" 598 600) as (r & Hr & Hsrt & Hiff & _).
  - reflexivity.
  - lia.
  - vm_compute. discriminate.
  - exists r. split; [exact Hr|]. split; [|apply Hiff; lia].
    rewrite Hsrt. replace r with "00:19:58"; [reflexivity|].
    assert (addOffsetToTimestamp "00:09:58" 600 = Some "00:19:58") as Hval by reflexivity.
    rewrite Hval in Hr. by injection Hr.
Defined.

End ExportProperties.

(** ** Uploads *)

Module UploadFacts.
Import JsString JsStringFacts UploadRoute.

Lemma toLowerChar_dot c : Ascii.eqb (toLowerChar c) "." = Ascii.eqb c ".".
Proof. destruct c as [[] [] [] [] [] [] [] []]; reflexivity. Qed.

Lemma toLowerChar_idem c : toLowerChar (toLowerChar c) = toLowerChar c.
Proof. destruct c as [[] [] [] [] [] [] [] []]; reflexivity. Qed.

Lemma toLowerCase_idem s : toLowerCase (toLowerCase s) = toLowerCase s.
Proof. induction s as [|c s IH]; cbn; [done|]. by rewrite toLowerChar_idem, IH. Qed.

(** Lower-casing goes through [split] on a dot. *)
Lemma split_toLowerCase s :
  split "." (toLowerCase s) = toLowerCase <$> split "." s.
Proof.
  induction s as [|c s IH]; [done|]. cbn [toLowerCase split].
  rewrite toLowerChar_dot, IH. destruct (Ascii.eqb c "."); [done|].
  destruct (split_cons "." s) as (x & xs & ->). done.
Qed.

Lemma pop_fmap (f : string -> string) parts : pop (f <$> parts) = f <$> pop parts.
Proof. unfold pop. apply fmap_last. Qed.

(** The two ways the route computes the extension agree. *)
Lemma extension_agrees fileName :
  pop (split "." (toLowerCase fileName)) = toLowerCase <$> pop (split "." fileName).
Proof. by rewrite split_toLowerCase, pop_fmap. Qed.

(** What [mimeMap[key]] can be. *)
Lemma getProperty_cases key :
  (exists v, ownProperty mimeMap key = Some v /\ getProperty key = Own v)
  \/ (In key OBJECT_PROTOTYPE /\ getProperty key = Inherited key)
  \/ getProperty key = Undefined.
Proof.
  unfold getProperty. destruct (ownProperty mimeMap key) as [v|]; [left; by exists v|].
  destruct (existsb (String.eqb key) OBJECT_PROTOTYPE) eqn:Hproto; [|by right; right].
  right; left. split; [|done].
  apply existsb_exists in Hproto as (k & Hin & Heq). apply String.eqb_eq in Heq. by subst.
Qed.

(** An own key of the table, behind a dot, is an allowed extension. *)
Lemma own_key_allowed key v :
  ownProperty mimeMap key = Some v ->
  existsb (String.eqb (String "." key)) ALLOWED_EXTENSIONS = true.
Proof.
  unfold mimeMap. cbn [ownProperty].
  repeat match goal with
         | |- context [String.eqb ?k key] =>
             destruct (String.eqb_spec k key) as [<-|_]; [intros _; reflexivity|]
         end.
  done.
Qed.

End UploadFacts.

Module UploadProperties.
Import JsString JsStringFacts UploadRoute UploadFacts.

(** X17.  An accepted upload gets the MIME type of its extension.  [POST]
    and [getMimeType] compute the extension in two different ways; the two
    agree.  So for a file name that passes the extension check,
    [getMimeType] finds the extension among the own keys of its table and
    returns that entry: it neither falls back to the default nor picks up a
    property inherited from [Object.prototype], which it does for a name
    such as [x.constructor].  Neither the check nor the type depends on the
    case of the letters.  A name the check turns down, on the other hand,
    never gets an entry of the table: its type is the default or an
    inherited property. *)
Theorem accepted_upload_mime fileName :
  isAllowed fileName = true ->
  (exists ext mime,
     (ext, mime) ∈ mimeMap
     /\ uploadExtension fileName = String "." ext
     /\ getMimeType fileName = MimeString mime)
  /\ isAllowed (toLowerCase fileName) = true
  /\ getMimeType (toLowerCase fileName) = getMimeType fileName
  /\ getMimeType "x.constructor" = NotAString "constructor"
  /\ (forall other,
        isAllowed other = false ->
        getMimeType other = MimeString "audio/mpeg"
        \/ exists key, In key OBJECT_PROTOTYPE /\ getMimeType other = NotAString key).
Proof.
  intros Hallowed.
  assert (forall other,
            isAllowed other = false ->
            getMimeType other = MimeString "audio/mpeg"
            \/ exists key, In key OBJECT_PROTOTYPE /\ getMimeType other = NotAString key)
    as Hrefused.
  { intros other Hno. unfold getMimeType. cbn zeta.
    destruct (getProperty_cases (default "" (pop (split "." (toLowerCase other)))))
      as [(v & Hown & Hget)|[(Hin & Hget)|Hget]]; rewrite Hget.
    - exfalso. rewrite extension_agrees in Hown.
      assert (isAllowed other = true) as Hyes; [|congruence].
      unfold isAllowed, uploadExtension. by apply own_key_allowed with v.
    - right. eexists. split; [exact Hin|done].
    - by left. }
  cut ((exists ext mime,
          (ext, mime) ∈ mimeMap
          /\ uploadExtension fileName = String "." ext
          /\ getMimeType fileName = MimeString mime)
       /\ isAllowed (toLowerCase fileName) = true
       /\ getMimeType (toLowerCase fileName) = getMimeType fileName
       /\ getMimeType "x.constructor" = NotAString "constructor").
  { intros (H1 & H2 & H3 & H4). done. }
  assert (getMimeType (toLowerCase fileName) = getMimeType fileName) as Hcase.
  { unfold getMimeType. by rewrite toLowerCase_idem. }
  assert (uploadExtension (toLowerCase fileName) = uploadExtension fileName) as Hext.
  { unfold uploadExtension. rewrite <- !extension_agrees. by rewrite toLowerCase_idem. }
  split; [|split; [unfold isAllowed; by rewrite Hext|split; [exact Hcase|reflexivity]]].
  unfold isAllowed in Hallowed. apply existsb_exists in Hallowed as (allowed & Hin & Heq).
  apply String.eqb_eq in Heq. unfold getMimeType. rewrite extension_agrees.
  unfold uploadExtension in *.
  set (ext := default "" (toLowerCase <$> pop (split "." fileName))) in *.
  cbn in Hin. destruct Hin as [<-|[<-|[<-|[<-|[<-|[]]]]]]; injection Heq as ->.
  - exists "mp3", "audio/mpeg". split; [apply list_elem_of_here|done].
  - exists "wav", "audio/wav". split; [do 1 apply list_elem_of_further; apply list_elem_of_here|done].
  - exists "m4a", "audio/mp4". split; [do 2 apply list_elem_of_further; apply list_elem_of_here|done].
  - exists "ogg", "audio/ogg". split; [do 3 apply list_elem_of_further; apply list_elem_of_here|done].
  - exists "webm", "audio/webm". split; [do 4 apply list_elem_of_further; apply list_elem_of_here|done].
Qed.

Lemma accepted_upload_mime_witness :
  isAllowed "Interview.2024.M4A" = true
  /\ getMimeType "Interview.2024.M4A" = MimeString "audio/mp4"
  /\ exists ext mime,
       (ext, mime) ∈ mimeMap
       /\ uploadExtension "Interview.2024.M4A" = String "." ext
       /\ getMimeType "Interview.2024.M4A" = MimeString mime.
Proof.
  split; [reflexivity|]. split; [reflexivity|].
  exact (proj1 (accepted_upload_mime "Interview.2024.M4A" eq_refl)).
Defined.

End UploadProperties.

(** ** The task route and the store's address *)

Module RouteFacts.
Import Effect JsString TaskRoute DirectusUrl UrlSpec.

Lemma getField_setField key value fields :
  getField key (setField key value fields) = Some value.
Proof.
  induction fields as [|[k v] rest IH]; cbn.
  - by rewrite String.eqb_refl.
  - destruct (String.eqb k key) eqn:Hk; cbn; by rewrite Hk.
Qed.

Lemma getField_setField_ne key other value fields :
  other <> key -> getField other (setField key value fields) = getField other fields.
Proof.
  intros Hne. induction fields as [|[k v] rest IH]; cbn.
  - destruct (String.eqb_spec key other) as [->|_]; done.
  - destruct (String.eqb_spec k key) as [->|Hk]; cbn.
    + destruct (String.eqb_spec key other) as [->|_]; done.
    + by rewrite IH.
Qed.

Lemma stripSlash_append url : stripSlash (String.append url "/") = url.
Proof.
  induction url as [|c url IH]; [done|].
  change (String.append (String c url) "/") with (String c (String.append url "/")).
  cbn [stripSlash]. rewrite IH. by destruct url.
Qed.

Lemma stripSlash_clean url : endsWithSlash url = false -> stripSlash url = url.
Proof.
  induction url as [|c url IH]; [done|]. cbn.
  destruct url as [|d url]; [by intros ->|].
  intros Hend. by rewrite (IH Hend).
Qed.

End RouteFacts.

Module RouteProperties.
Import Effect JsString TaskRoute DirectusUrl UrlSpec RouteFacts.

(** X18.  The task handed out never carries its result as text.  Whatever
    [JSON.parse] does, [normalizeTaskResult] returns an object whose [result]
    is absent, [null], or a value that is not a string; if the stored result
    was a string, the result returned is an object with an array under
    [segments], the parsed one or the empty stand-in.  Every other property
    is returned as stored, and normalizing twice changes nothing more. *)
Theorem task_result_is_never_text parse data :
  let out := normalizeTaskResult parse data in
  (forall text, getField "result" out <> Some (JString text))
  /\ (forall text,
        getField "result" data = Some (JString text) ->
        exists v, getField "result" out = Some v /\ hasSegmentArray v = true)
  /\ (forall key, key <> "result" -> getField key out = getField key data)
  /\ normalizeTaskResult parse out = out.
Proof.
  cbn zeta. unfold normalizeTaskResult.
  destruct (getField "result" data) as [result|] eqn:Hres.
  2:{ rewrite Hres. done. }
  destruct (hasSegmentArray result) eqn:Hseg.
  { destruct result; try done; rewrite Hres, Hseg; done. }
  destruct result as [| | |text| |]; try (rewrite Hres, ?Hseg; done).
  (* the stored result is text *)
  assert (exists v, (match parse text with
                     | Normal parsed =>
                         if hasSegmentArray parsed then setField "result" parsed data
                         else setField "result" TRUNCATED data
                     | Throw _ => setField "result" TRUNCATED data
                     end) = setField "result" v data
                    /\ hasSegmentArray v = true) as (v & -> & Hv).
  { destruct (parse text) as [parsed|e]; [|by exists TRUNCATED].
    destruct (hasSegmentArray parsed) eqn:Hparsed; [by exists parsed|by exists TRUNCATED]. }
  rewrite getField_setField, Hv.
  split; [intros text' [= ->]; done|]. split; [intros ? _; by exists v|].
  split; [intros key Hkey; by apply getField_setField_ne|]. by destruct v.
Qed.

(** X19.  One slash between host and path.  The address [directusRequest]
    fetches is the same whether or not the path starts with a slash, and
    whether or not the configured URL ends with one; without a configured URL
    it is the path alone, slash first. *)
Theorem request_url_is_normalized url path :
  endsWithSlash url = false ->
  startsWithSlash path = false ->
  let full := String.append url (String "/" path) in
  requestUrl (Some url) path = full
  /\ requestUrl (Some url) (String "/" path) = full
  /\ requestUrl (Some (String.append url "/")) path = full
  /\ requestUrl (Some (String.append url "/")) (String "/" path) = full
  /\ requestUrl None path = String "/" path.
Proof.
  intros Hurl Hpath full. unfold requestUrl, DIRECTUS_URL.
  rewrite stripSlash_append, (stripSlash_clean url Hurl), Hpath.
  change (startsWithSlash (String "/" path)) with true. done.
Qed.

Lemma request_url_is_normalized_witness :
  requestUrl (Some "https://cms.example.org/") "items/transcription_tasks"
  = "https://cms.example.org/items/transcription_tasks"
  /\ requestUrl (Some "https://cms.example.org") "/items/transcription_tasks"
     = "https://cms.example.org/items/transcription_tasks".
Proof.
  destruct (request_url_is_normalized "https://cms.example.org" "items/transcription_tasks")
    as (_ & Hslash & Hbase & _); [reflexivity|reflexivity|].
  split; [exact Hbase|exact Hslash].
Defined.

End RouteProperties.
